(** * Subpipe: subtitle pipeline, segment codec and orchestration

    A shallow embedding of the Python sources

      - [transcribe_only.py]  ([save_json_segments], [save_srt_segments])
      - [translate_only.py]   ([load_segments], [split_sentences],
                               [translate_segment], [save_srt_segments],
                               [save_txt_segments], [translate])
      - [pipeline.py]         ([select_video_file], the [step_*] wrappers,
                               [run_pipeline])

    Python [str] values are sequences of code points, Python [float]s are
    IEEE-754 binary64 values (the Standard Library's [spec_float] at
    precision 53), exceptions are values of [exn] carried in a sum type,
    and the file system and the external engines are explicit state. *)

From Stdlib Require Import ZArith Lia Bool String Ascii SpecFloat.
From stdpp Require Import base list gmap.

Set Default Proof Using "Type*".
Local Open Scope Z_scope.

(* ===================================================================== *)
(** * Part I: definitions                                                 *)
(* ===================================================================== *)

(** ** Python values shared by the three modules *)

Module Py.

(** A Python [str] is a sequence of Unicode code points; [len] counts
    code points. *)
Definition char := N.
Definition str := list char.

(** ASCII literals of the sources. *)
Definition lit (s : string) : str :=
  map (fun a : ascii => N_of_ascii a) (list_ascii_of_string s).

Definition len {A} (l : list A) : Z := Z.of_nat (length l).

(** The built-in exceptions the modelled code can raise or let through. *)
Inductive exn :=
| FileNotFoundError
| JSONDecodeError
| KeyError
| TypeError
| ValueError
| OverflowError
| ZeroDivisionError
| LookupError
| OSError
| CalledProcessError
| RuntimeError
| UnicodeEncodeError
| NotADirectoryError
| FileExistsError
| IsADirectoryError.

(** A computation that returns or raises. *)
Definition result (A : Type) := (exn + A)%type.
Definition Ok {A} (a : A) : result A := inr a.
Definition Raise {A} (e : exn) : result A := inl e.

Definition rbind {A B} (r : result A) (k : A -> result B) : result B :=
  match r with
  | inl e => inl e
  | inr a => k a
  end.

(** A computation over a state [S] that returns or raises; the state
    reached when an exception is raised is kept, as Python keeps the
    effects made before a [raise]. *)
Definition prog (S A : Type) := S -> result A * S.

Definition ret {S A} (a : A) : prog S A := fun w => (Ok a, w).
Definition raise {S A} (e : exn) : prog S A := fun w => (Raise e, w).
Definition bind {S A B} (m : prog S A) (k : A -> prog S B) : prog S B :=
  fun w => match m w with
           | (inl e, w') => (inl e, w')
           | (inr a, w') => k a w'
           end.
Definition lift {S A} (r : result A) : prog S A := fun w => (r, w).

(** [try: m  except Exception as e: h(e); raise] *)
Definition reraising {S A} (m : prog S A) (h : exn -> S -> S) : prog S A :=
  fun w => match m w with
           | (inl e, w') => (inl e, h e w')
           | (inr a, w') => (inr a, w')
           end.

(** [str.isspace] on one code point: the characters [str.strip()]
    removes when called without argument. *)
Definition isspace (c : char) : bool :=
  let c := Z.of_N c in
  ((9 <=? c) && (c <=? 13)) || ((28 <=? c) && (c <=? 32))
  || (c =? 133) || (c =? 160) || (c =? 5760)
  || ((8192 <=? c) && (c <=? 8202))
  || (c =? 8232) || (c =? 8233) || (c =? 8239) || (c =? 8287)
  || (c =? 12288).

Fixpoint lstrip (s : str) : str :=
  match s with
  | c :: s' => if isspace c then lstrip s' else s
  | [] => []
  end.

Definition rstrip (s : str) : str := rev (lstrip (rev s)).

(** [s.strip()] *)
Definition strip (s : str) : str := rstrip (lstrip s).

(** [l[:n]] for an integer [n] of either sign. *)
Definition slice_to {A} (n : Z) (l : list A) : list A :=
  if 0 <=? n then firstn (Z.to_nat n) l
  else firstn (length l - Z.to_nat (- n))%nat l.

(** [sep.join(parts)] *)
Fixpoint join (sep : str) (parts : list str) : str :=
  match parts with
  | [] => []
  | [p] => p
  | p :: ps => p ++ sep ++ join sep ps
  end.

(** Truthiness of a [str]: [not s] holds of the empty string only. *)
Definition truthy (s : str) : bool :=
  match s with [] => false | _ => true end.

(** [a or b] on strings. *)
Definition or_else (a b : str) : str := if truthy a then a else b.

(** Decimal digits of a non-negative integer, most significant first. *)
Fixpoint digits_fuel (fuel : nat) (n : Z) : str :=
  match fuel with
  | O => []
  | S f =>
      if n <? 10 then [Z.to_N (48 + n)]
      else digits_fuel f (n / 10) ++ [Z.to_N (48 + n mod 10)]
  end.

Definition digits (n : Z) : str := digits_fuel (S (Z.to_nat (Z.log2 n))) n.

(** [str(n)] and [f"{n}"] for an [int]. *)
Definition str_of_int (n : Z) : str :=
  if n <? 0 then lit "-" ++ digits (- n) else digits n.

(** [f"{n:0w}"] for an [int]: zero padding to a minimum width of [w],
    the sign counted in the width; wider numbers are not cut. *)
Definition format_zero (w : nat) (n : Z) : str :=
  if n <? 0 then
    let d := digits (- n) in
    lit "-" ++ repeat 48%N (w - 1 - length d)%nat ++ d
  else
    let d := digits n in
    repeat 48%N (w - length d)%nat ++ d.

End Py.

Declare Scope prog_scope.
Delimit Scope prog_scope with prog.
Notation "x <- m ;; k" := (Py.bind m (fun x => k))
  (at level 100, m at next level, right associativity) : prog_scope.
Notation "m ;;; k" := (Py.bind m (fun _ => k))
  (at level 100, right associativity) : prog_scope.
Local Open Scope prog_scope.

Import Py.

(** ** Python floats: IEEE-754 binary64 *)

Module Float.

Definition prec : Z := 53.
Definition emax : Z := 1024.

(** A Python [float]. The values Python can hold are the valid ones
    ([valid_binary prec emax]): canonical mantissa, exponent between
    [-1074] and [971]. *)
Definition float := spec_float.

Definition valid (x : float) : bool := valid_binary prec emax x.

Definition mul : float -> float -> float := SFmul prec emax.
Definition add : float -> float -> float := SFadd prec emax.
Definition sub : float -> float -> float := SFsub prec emax.
Definition div : float -> float -> float := SFdiv prec emax.
Definition ltb : float -> float -> bool := SFltb.

(** [float(n)] for an [int] literal. *)
Definition of_int (n : Z) : float := binary_normalize prec emax n 0 false.

Definition zero : float := S754_zero false.
Definition one : float := of_int 1.
Definition half : float := S754_finite false 4503599627370496 (-53).

(** C truthiness of a double, [if (x)]: everything but the two zeros. *)
Definition nonzero (x : float) : bool :=
  match x with S754_zero _ => false | _ => true end.

(** The sign bit; Python never reaches [copysign] with a NaN here. *)
Definition signbit (x : float) : bool :=
  match x with
  | S754_zero s | S754_infinity s | S754_finite s _ _ => s
  | S754_nan => false
  end.

(** [copysign(0.0, y)] *)
Definition copysign0 (y : float) : float := S754_zero (signbit y).

(** Every finite binary64 is a whole number of units of [2^-1074];
    [units] is the magnitude in that unit. *)
Definition units (x : float) : Z :=
  match x with
  | S754_finite _ m e => Z.shiftl (Zpos m) (e + 1074)
  | _ => 0
  end.

(** C [fmod]: the result has the sign of [x] and is computed exactly. *)
Definition fmod (x y : float) : float :=
  match x, y with
  | S754_nan, _ | _, S754_nan => S754_nan
  | S754_infinity _, _ => S754_nan
  | _, S754_zero _ => S754_nan
  | _, S754_infinity _ => x
  | S754_zero _, _ => x
  | S754_finite sx _ _, S754_finite _ _ _ =>
      binary_normalize prec emax
        (cond_Zopp sx (units x mod units y)) (-1074) sx
  end.

(** C [floor]. *)
Definition floor (x : float) : float :=
  match x with
  | S754_finite s m e =>
      if 0 <=? e then x
      else binary_normalize prec emax
             (Z.shiftr (cond_Zopp s (Zpos m)) (- e)) 0 s
  | _ => x
  end.

(** [x % y] on floats ([float_rem] of CPython). *)
Definition float_rem (x y : float) : result float :=
  if negb (nonzero y) then Raise ZeroDivisionError
  else
    let mod_ := fmod x y in
    if nonzero mod_ then
      if negb (eqb (ltb y zero) (ltb mod_ zero))
      then Ok (add mod_ y) else Ok mod_
    else Ok (copysign0 y).

(** [x // y] on floats ([float_floor_div] of CPython). *)
Definition float_floor_div (x y : float) : result float :=
  if negb (nonzero y) then Raise ZeroDivisionError
  else
    let mod_ := fmod x y in
    let div_ := div (sub x mod_) y in
    let div_ :=
      if nonzero mod_ && negb (eqb (ltb y zero) (ltb mod_ zero))
      then sub div_ one else div_ in
    if nonzero div_ then
      let floordiv := floor div_ in
      if ltb half (sub div_ floordiv)
      then Ok (add floordiv one) else Ok floordiv
    else Ok (copysign0 (div x y)).

(** [int(x)]: truncation toward zero. *)
Definition int_of_float (x : float) : result Z :=
  match x with
  | S754_nan => Raise ValueError
  | S754_infinity _ => Raise OverflowError
  | S754_zero _ => Ok 0
  | S754_finite s m e => Ok (cond_Zopp s (Z.shiftl (Zpos m) e))
  end.

End Float.

(** ** Files *)

Module FS.

Definition path := str.

(** JSON documents, which are also the Python values [json.load]
    returns: [dict], [list], [str], [int], [float], [bool], [None]. *)
#[warning="-register-all"]
Inductive json :=
| JNull
| JBool (b : bool)
| JInt (n : Z)
| JFloat (x : Float.float)
| JStr (s : str)
| JArr (items : list json)
| JObj (members : list (str * json)).

(** What a file holds: [Doc d] stands for a text that [json.load]
    reads as the document [d], and [Raw] for a text kept as it is: the
    text of a file while it is written, of a file [json.dump] left
    unfinished, and of the SRT and TXT files, which the stages never
    read as JSON. *)
Inductive content :=
| Raw (text : str)
| Doc (d : json).

(** The regular files of the machine, by path as written. Directories
    are those above the files, and a directory that is missing can be
    made unless a regular file is in the way; rights, quotas and devices
    are not modelled. *)
Definition fs := gmap path content.

Definition slash : char := 47%N.

Definition is_slash (c : char) : bool := (c =? slash)%N.

Fixpoint drop_while (f : char -> bool) (s : str) : str :=
  match s with
  | c :: s' => if f c then drop_while f s' else s
  | [] => []
  end.

(** [os.path.dirname] of [posixpath]: [head = p[:p.rfind('/') + 1]],
    and [head.rstrip('/')] unless [head] is empty or made of slashes. *)
Definition dirname (p : path) : path :=
  let head := rev (drop_while (fun c => negb (is_slash c)) (rev p)) in
  if forallb is_slash head then head
  else rev (drop_while is_slash (rev head)).

(** The directories above [name]: its proper prefixes that end before a
    slash, the empty one apart. *)
Fixpoint ancestors_from (pre rest : path) : list path :=
  match rest with
  | [] => []
  | c :: rest' =>
      (if is_slash c && negb (bool_decide (pre = [])) then [pre] else [])
      ++ ancestors_from (pre ++ [c]) rest'
  end.

Definition ancestors (name : path) : list path := ancestors_from [] name.

Definition is_file (st : fs) (q : path) : bool :=
  match st !! q with Some _ => true | None => false end.

Fixpoint starts_with (pre s : str) : bool :=
  match pre, s with
  | [], _ => true
  | a :: pre', b :: s' => (a =? b)%N && starts_with pre' s'
  | _ :: _, [] => false
  end.

(** [p] names a directory: it ends with a slash or a file lies under
    it. *)
Definition is_dir (st : fs) (p : path) : bool :=
  match last p with Some c => is_slash c | None => false end
  || existsb (fun kv => starts_with (p ++ [slash]) (fst kv)) (map_to_list st).

(** [os.makedirs(name, exist_ok=True)]: [mkdir('')] fails with ENOENT,
    a regular file above [name] with ENOTDIR, and one at [name] itself
    with EEXIST, which [exist_ok] forgives for a directory only. *)
Definition makedirs (name : path) : prog fs unit :=
  fun st =>
    if bool_decide (name = []) then (Raise FileNotFoundError, st)
    else if existsb (is_file st) (ancestors name) then (Raise NotADirectoryError, st)
    else if is_file st name then (Raise FileExistsError, st)
    else (Ok tt, st).

(** [open(p, "w", encoding="utf-8")] once the directory of [p] is
    there: the file is created or emptied. *)
Definition open_w (p : path) : prog fs unit :=
  fun st =>
    if is_dir st p then (Raise IsADirectoryError, st)
    else (Ok tt, <[p := Raw []]> st).

(** A string UTF-8 can encode: no surrogate code point. *)
Definition encodable (s : str) : bool :=
  forallb (fun c => negb ((55296 <=? c)%N && (c <=? 57343)%N)) s.

Definition append (p : path) (s : str) (st : fs) : fs :=
  match st !! p with
  | Some (Raw t) => <[p := Raw (t ++ s)]> st
  | _ => <[p := Raw s]> st
  end.

(** [f.write(s)] on a file opened for writing: the whole of [s] is
    encoded before any of it is written. What was written before an
    exception stays in the file, which the [with] statement closes. *)
Definition write (p : path) (s : str) : prog fs unit :=
  fun st =>
    if encodable s then (Ok tt, append p s st)
    else (Raise UnicodeEncodeError, st).

End FS.

(** ** The text of JSON ([json.dump] and [json.load]) *)

Module Json.
Import Float FS.

(** The conversion between a finite float and its decimal text is
    CPython's, [float.__repr__] one way and [float(str)] the other; it is
    taken as it is given. *)
Record float_text := {
  float_repr : float -> str;
  float_of_str : str -> float
}.

Definition hex_digit (n : N) : char :=
  if (n <? 10)%N then (48 + n)%N else (87 + n)%N.

(** [ESCAPE_DCT] of [json.encoder]: the replacement of a character that
    [ESCAPE] matches, with [ensure_ascii=False]. *)
Definition escape_char (c : char) : str :=
  if (c =? 34)%N then [92; 34]%N
  else if (c =? 92)%N then [92; 92]%N
  else if (c =? 8)%N then [92; 98]%N
  else if (c =? 12)%N then [92; 102]%N
  else if (c =? 10)%N then [92; 110]%N
  else if (c =? 13)%N then [92; 114]%N
  else if (c =? 9)%N then [92; 116]%N
  else if (c <? 32)%N then
    [92; 117; 48; 48]%N ++ [hex_digit (c / 16); hex_digit (c mod 16)]
  else [c].

Definition quote : char := 34%N.

(** [encode_basestring] *)
Definition encode_basestring (s : str) : str :=
  quote :: concat (map escape_char s) ++ [quote].

Section Codec.
Variable ft : float_text.

(** [floatstr] of [json.encoder], with [allow_nan] *)
Definition floatstr (x : float) : str :=
  match x with
  | S754_nan => lit "NaN"
  | S754_infinity false => lit "Infinity"
  | S754_infinity true => lit "-Infinity"
  | _ => float_repr ft x
  end.

(** The text of a value that is written in one piece. *)
Definition scalar_text (o : json) : option str :=
  match o with
  | JNull => Some (lit "null")
  | JBool true => Some (lit "true")
  | JBool false => Some (lit "false")
  | JInt n => Some (str_of_int n)
  | JFloat x => Some (floatstr x)
  | JStr s => Some (encode_basestring s)
  | JArr _ | JObj _ => None
  end.

(** The newline and the indentation of [level]. *)
Definition newline_indent (level : nat) : str :=
  10%N :: repeat 32%N (2 * level).

(** The chunks of the items of a list that is not empty: the bracket or
    the comma, with the newline and the indentation, goes with the item
    when the item is written in one piece, and before it otherwise. *)
Fixpoint items_chunks (enc : json -> list str) (nl : str) (first : bool)
    (l : list json) : list str :=
  match l with
  | [] => []
  | v :: l' =>
      let buf := (if first then lit "[" else lit ",") ++ nl in
      match scalar_text v with
      | Some t => [buf ++ t]
      | None => buf :: enc v
      end ++ items_chunks enc nl false l'
  end.

(** The chunks of the members of a dict that is not empty. *)
Fixpoint members_chunks (enc : json -> list str) (nl : str) (first : bool)
    (l : list (str * json)) : list str :=
  match l with
  | [] => []
  | (k, v) :: l' =>
      (if first then [] else [lit "," ++ nl])
      ++ [encode_basestring k; lit ": "]
      ++ match scalar_text v with
         | Some t => [t]
         | None => enc v
         end
      ++ members_chunks enc nl false l'
  end.

(** [_iterencode] of [json.encoder] with [indent=2]: the chunks in the
    order they are yielded. *)
Fixpoint iterencode (level : nat) (o : json) : list str :=
  match o with
  | JArr [] => [lit "[]"]
  | JArr items =>
      items_chunks (iterencode (S level)) (newline_indent (S level)) true items
      ++ [newline_indent level; lit "]"]
  | JObj [] => [lit "{}"]
  | JObj members =>
      lit "{" :: newline_indent (S level) ::
      members_chunks (iterencode (S level)) (newline_indent (S level)) true
        members
      ++ [newline_indent level; lit "}"]
  | _ => match scalar_text o with Some t => [t] | None => [] end
  end.

(** [WHITESPACE] of [json.decoder] *)
Definition is_ws (c : char) : bool :=
  (c =? 32)%N || (c =? 9)%N || (c =? 10)%N || (c =? 13)%N.

Definition skip_ws (s : str) : str := drop_while is_ws s.

Definition is_digit (c : char) : bool := (48 <=? c)%N && (c <=? 57)%N.

Definition hex_value (c : char) : option N :=
  if is_digit c then Some (c - 48)%N
  else if (97 <=? c)%N && (c <=? 102)%N then Some (c - 87)%N
  else if (65 <=? c)%N && (c <=? 70)%N then Some (c - 55)%N
  else None.

Definition hex4 (a b c d : char) : option N :=
  match hex_value a, hex_value b, hex_value c, hex_value d with
  | Some x, Some y, Some z, Some w => Some (((x * 16 + y) * 16 + z) * 16 + w)%N
  | _, _, _, _ => None
  end.

(** [scanstring], strict, from the character after the opening quote:
    the string and what follows its closing quote. *)
Fixpoint scanstring (s : str) : result (str * str) :=
  match s with
  | [] => Raise JSONDecodeError
  | c :: rest =>
      if (c =? 34)%N then Ok ([], rest)
      else if (c =? 92)%N then
        match rest with
        | [] => Raise JSONDecodeError
        | e :: rest1 =>
            let simple (ch : char) :=
              rbind (scanstring rest1) (fun r => Ok (ch :: fst r, snd r)) in
            if (e =? 34)%N then simple 34%N
            else if (e =? 92)%N then simple 92%N
            else if (e =? 47)%N then simple 47%N
            else if (e =? 98)%N then simple 8%N
            else if (e =? 102)%N then simple 12%N
            else if (e =? 110)%N then simple 10%N
            else if (e =? 114)%N then simple 13%N
            else if (e =? 116)%N then simple 9%N
            else if (e =? 117)%N then
              match rest1 with
              | a :: b :: c1 :: d :: rest2 =>
                  match hex4 a b c1 d with
                  | None => Raise JSONDecodeError
                  | Some u =>
                      let single :=
                        rbind (scanstring rest2)
                          (fun r => Ok (u :: fst r, snd r)) in
                      if (55296 <=? u)%N && (u <=? 56319)%N then
                        match rest2 with
                        | b1 :: u1 :: a2 :: b2 :: c2 :: d2 :: rest3 =>
                            if (b1 =? 92)%N && (u1 =? 117)%N then
                              match hex4 a2 b2 c2 d2 with
                              | Some u2 =>
                                  if (56320 <=? u2)%N && (u2 <=? 57343)%N then
                                    rbind (scanstring rest3) (fun r =>
                                      Ok ((65536 + (u - 55296) * 1024
                                           + (u2 - 56320))%N :: fst r, snd r))
                                  else single
                              | None => single
                              end
                            else single
                        | _ => single
                        end
                      else single
                  end
              | _ => Raise JSONDecodeError
              end
            else Raise JSONDecodeError
        end
      else if (c <? 32)%N then Raise JSONDecodeError
      else rbind (scanstring rest) (fun r => Ok (c :: fst r, snd r))
  end.

(** The digits at the head of a string, and what follows them. *)
Fixpoint span_digits (s : str) : str * str :=
  match s with
  | c :: rest =>
      if is_digit c then let '(d, r) := span_digits rest in (c :: d, r)
      else ([], s)
  | [] => ([], [])
  end.

(** [_match_number]: the longest head of [s] that is a JSON number,
    whether it is a float, and what follows it. *)
Definition match_number (s : str) : option (str * bool * str) :=
  let '(sign, s0) :=
    match s with
    | c :: r => if (c =? 45)%N then ([c], r) else ([], s)
    | [] => ([], s)
    end in
  let int_part :=
    match s0 with
    | c :: r =>
        if (c =? 48)%N then Some ([c], r)
        else if is_digit c then let '(d, r') := span_digits r in Some (c :: d, r')
        else None
    | [] => None
    end in
  match int_part with
  | None => None
  | Some (i, s1) =>
      let '(frac, s2) :=
        match s1 with
        | dot :: c :: r =>
            if (dot =? 46)%N && is_digit c then
              let '(d, r') := span_digits r in (dot :: c :: d, r')
            else ([], s1)
        | _ => ([], s1)
        end in
      let '(exp, s3) :=
        match s2 with
        | e :: r =>
            if (e =? 101)%N || (e =? 69)%N then
              let '(sg, r1) :=
                match r with
                | c :: r' =>
                    if (c =? 43)%N || (c =? 45)%N then ([c], r') else ([], r)
                | [] => ([], r)
                end in
              match span_digits r1 with
              | ([], _) => ([], s2)
              | (d, r2) => (e :: sg ++ d, r2)
              end
            else ([], s2)
        | [] => ([], s2)
        end in
      Some (sign ++ i ++ frac ++ exp,
            negb (bool_decide (frac = [])) || negb (bool_decide (exp = [])),
            s3)
  end.

(** [int(s)] on a number without fraction or exponent *)
Definition int_of_str (s : str) : Z :=
  let value (d : str) :=
    fold_left (fun acc c => acc * 10 + (Z.of_N c - 48)) d 0 in
  match s with
  | c :: r => if (c =? 45)%N then - value r else value s
  | [] => 0
  end.

Fixpoint array_items (scan : str -> result (json * str)) (n : nat) (s : str)
    : result (list json * str) :=
  match n with
  | O => Raise JSONDecodeError
  | S n' =>
      rbind (scan s) (fun r =>
        match skip_ws (snd r) with
        | c :: s1 =>
            if (c =? 93)%N then Ok ([fst r], s1)
            else if (c =? 44)%N then
              rbind (array_items scan n' (skip_ws s1)) (fun rs =>
                Ok (fst r :: fst rs, snd rs))
            else Raise JSONDecodeError
        | [] => Raise JSONDecodeError
        end)
  end.

(** [JSONArray], from the character after the bracket *)
Definition parse_array (scan : str -> result (json * str)) (n : nat) (s : str)
    : result (json * str) :=
  match skip_ws s with
  | c :: s1 =>
      if (c =? 93)%N then Ok (JArr [], s1)
      else rbind (array_items scan n (skip_ws s)) (fun r =>
             Ok (JArr (fst r), snd r))
  | [] => Raise JSONDecodeError
  end.

Fixpoint object_members (scan : str -> result (json * str)) (n : nat) (s : str)
    : result (list (str * json) * str) :=
  match n with
  | O => Raise JSONDecodeError
  | S n' =>
      match s with
      | q :: s0 =>
          if (q =? 34)%N then
            rbind (scanstring s0) (fun k =>
              match skip_ws (snd k) with
              | colon :: s1 =>
                  if (colon =? 58)%N then
                    rbind (scan (skip_ws s1)) (fun r =>
                      match skip_ws (snd r) with
                      | c :: s2 =>
                          if (c =? 125)%N then Ok ([(fst k, fst r)], s2)
                          else if (c =? 44)%N then
                            rbind (object_members scan n' (skip_ws s2))
                              (fun rs => Ok ((fst k, fst r) :: fst rs, snd rs))
                          else Raise JSONDecodeError
                      | [] => Raise JSONDecodeError
                      end)
                  else Raise JSONDecodeError
              | [] => Raise JSONDecodeError
              end)
          else Raise JSONDecodeError
      | [] => Raise JSONDecodeError
      end
  end.

(** [JSONObject], from the character after the brace. The members are
    kept in the order of the text; a name given twice keeps its last
    value when it is looked up. *)
Definition parse_object (scan : str -> result (json * str)) (n : nat) (s : str)
    : result (json * str) :=
  match skip_ws s with
  | c :: s1 =>
      if (c =? 125)%N then Ok (JObj [], s1)
      else rbind (object_members scan n (skip_ws s)) (fun r =>
             Ok (JObj (fst r), snd r))
  | [] => Raise JSONDecodeError
  end.

(** [scan_once]: the value at the head of [s] and what follows it.
    [fuel] bounds the depth of the value and the length of its arrays
    and objects. *)
Fixpoint scan_once (fuel : nat) (s : str) : result (json * str) :=
  match fuel with
  | O => Raise JSONDecodeError
  | S f =>
      match s with
      | [] => Raise JSONDecodeError
      | c :: rest =>
          if (c =? 34)%N then
            rbind (scanstring rest) (fun r => Ok (JStr (fst r), snd r))
          else if (c =? 123)%N then parse_object (scan_once f) f rest
          else if (c =? 91)%N then parse_array (scan_once f) f rest
          else if starts_with (lit "null") s then Ok (JNull, drop 4 s)
          else if starts_with (lit "true") s then Ok (JBool true, drop 4 s)
          else if starts_with (lit "false") s then Ok (JBool false, drop 5 s)
          else if starts_with (lit "NaN") s then Ok (JFloat S754_nan, drop 3 s)
          else if starts_with (lit "Infinity") s then
            Ok (JFloat (S754_infinity false), drop 8 s)
          else if starts_with (lit "-Infinity") s then
            Ok (JFloat (S754_infinity true), drop 9 s)
          else
            match match_number s with
            | Some (lexeme, true, s') => Ok (JFloat (float_of_str ft lexeme), s')
            | Some (lexeme, false, s') => Ok (JInt (int_of_str lexeme), s')
            | None => Raise JSONDecodeError
            end
      end
  end.

(** [json.loads]: one value, white space around it allowed, nothing
    else. *)
Definition loads (s : str) : result json :=
  match s with
  | 65279%N :: _ => Raise JSONDecodeError
  | _ =>
      rbind (scan_once (S (length s)) (skip_ws s)) (fun r =>
        match skip_ws (snd r) with
        | [] => Ok (fst r)
        | _ => Raise JSONDecodeError
        end)
  end.

(** The text of a document as [json.dump] writes it. *)
Definition dumps (o : json) : str := concat (iterencode 0 o).

(** [for chunk in iterable: f.write(chunk)] *)
Fixpoint write_chunks (chunks : list str) (p : path) (st : fs)
    : result unit * fs :=
  match chunks with
  | [] => (Ok tt, st)
  | chunk :: rest => (write p chunk ;;; write_chunks rest p) st
  end.

(** The [with] statement closes the file, an exception or not. What the
    file then holds is a document when its text is one. *)
Definition close_json (p : path) (st : fs) : fs :=
  match st !! p with
  | Some (Raw text) =>
      match loads text with
      | inr d => <[p := Doc d]> st
      | inl _ => st
      end
  | _ => st
  end.

(** [with open(p, "w", encoding="utf-8") as f:
       json.dump(o, f, ensure_ascii=False, indent=2)] *)
Definition dump (o : json) (p : path) : prog fs unit :=
  open_w p ;;;
  fun st => let '(r, st') := write_chunks (iterencode 0 o) p st in
            (r, close_json p st').

End Codec.

End Json.

(** ** SRT serialization ([save_srt_segments], the same text in
       [transcribe_only.py] and [translate_only.py]) *)

Module Srt.
Import Float FS.

Definition segment := (float * float * str)%type.

Definition c3600 : float := of_int 3600.
Definition c60 : float := of_int 60.
Definition c1000 : float := of_int 1000.

(** The four integers of a timestamp, in the order the f-string
    evaluates them. *)
Definition hours (t : float) : result Z :=
  rbind (float_floor_div t c3600) int_of_float.

Definition minutes (t : float) : result Z :=
  rbind (float_rem t c3600) (fun r =>
  rbind (float_floor_div r c60) int_of_float).

Definition seconds (t : float) : result Z :=
  rbind (float_rem t c60) int_of_float.

Definition millis (t : float) : result Z :=
  rbind (float_rem (mul t c1000) c1000) int_of_float.

(** [f"{int(t // 3600):02}:{int((t % 3600) // 60):02}:{int(t % 60):02},{int((t * 1000) % 1000):03}"] *)
Definition time_str (t : float) : result str :=
  rbind (hours t) (fun h =>
  rbind (minutes t) (fun m =>
  rbind (seconds t) (fun s =>
  rbind (millis t) (fun ms =>
  Ok (format_zero 2 h ++ lit ":" ++ format_zero 2 m ++ lit ":"
      ++ format_zero 2 s ++ lit "," ++ format_zero 3 ms))))).

Definition newline : str := [10%N].

(** One iteration of the loop: the text handed to [f.write]. *)
Definition block (idx : Z) (seg : segment) : result str :=
  let '(start, end_, text) := seg in
  rbind (time_str start) (fun start_time_str =>
  rbind (time_str end_) (fun end_time_str =>
  Ok (str_of_int idx ++ newline
      ++ start_time_str ++ lit " --> " ++ end_time_str ++ newline
      ++ text ++ newline ++ newline))).

(** [for idx, seg in enumerate(segments, idx): f.write(...)] *)
Fixpoint write_blocks (idx : Z) (segments : list segment)
    (output_srt : path) (st : fs) : result unit * fs :=
  match segments with
  | [] => (Ok tt, st)
  | seg :: rest =>
      match block idx seg with
      | inl e => (Raise e, st)
      | inr b =>
          (write output_srt b ;;; write_blocks (idx + 1) rest output_srt) st
      end
  end.

(** [save_srt_segments]: the directory, the file, the loop. *)
Definition save_srt_segments (segments : list segment)
    (output_srt : path) (st : fs) : result unit * fs :=
  (makedirs (dirname output_srt) ;;;
   open_w output_srt ;;;
   write_blocks 1 segments output_srt) st.

(** [for _, _, text in segments: f.write(text + "\n")] *)
Fixpoint write_lines (segments : list segment) (output_txt : path)
    (st : fs) : result unit * fs :=
  match segments with
  | [] => (Ok tt, st)
  | seg :: rest =>
      (write output_txt (snd seg ++ newline) ;;;
       write_lines rest output_txt) st
  end.

(** [save_txt_segments] of [translate_only.py]. *)
Definition save_txt_segments (segments : list segment)
    (output_txt : path) (st : fs) : result unit * fs :=
  (makedirs (dirname output_txt) ;;;
   open_w output_txt ;;;
   write_lines segments output_txt) st.

End Srt.

(** ** [transcribe_only.py]: the JSON envelope *)

Module transcribe_only.
Import Float FS Json Srt.

(** A [(start, end, text)] tuple as [json.dump] writes it: an array. *)
Definition segment_json (seg : segment) : json :=
  let '(start, end_, text) := seg in
  JArr [JFloat start; JFloat end_; JStr text].

(** [save_json_segments]: the directory, then
    [json.dump({"segments": segments, "lang": lang}, f, ...)]. *)
Definition save_json_segments (ft : float_text) (segments : list segment)
    (lang : str) (output_json : path) (st : fs) : result unit * fs :=
  (makedirs (dirname output_json) ;;;
   dump ft (JObj [(lit "segments", JArr (map segment_json segments));
                  (lit "lang", JStr lang)]) output_json) st.

Definition save_srt_segments := Srt.save_srt_segments.

(** The keys of [config.json] that [transcribe] reads, the recognition
    parameters apart. *)
Record config := {
  whisper_model : str;
  language_code_map : gmap str str
}.

(** A segment as the recognition engine yields it. *)
Record whisper_segment := {
  seg_start : float;
  seg_end : float;
  seg_text : str
}.

(** The recognition engine: loading the model, and one transcription of
    an audio file with a language hint, which gives the segments and
    [info.language]. The engine yields the segments while the loop of
    [transcribe] runs; a failure there comes before every write, as a
    failure of the call does, and is counted with it. *)
Record engines := {
  WhisperModel : str -> result unit;
  model_transcribe : path -> option str -> result (list whisper_segment * str)
}.

(** The loop that fills [transcription_segments]. *)
Definition transcription_segments (segments : list whisper_segment)
    : list segment :=
  map (fun seg => (seg_start seg, seg_end seg, strip (seg_text seg))) segments.

(** [language_code_map.get(info.language, info.language)] *)
Definition nllb_lang (cfg : config) (language : str) : str :=
  default language (language_code_map cfg !! language).

(** [transcribe]: the handlers log and re-raise, and [cleanup_gpu]
    swallows its own errors. *)
Definition transcribe (ft : float_text) (cfg : config) (eng : engines)
    (audio_file output_json output_srt : path) (source_lang : str)
    : prog fs unit :=
  lift (WhisperModel eng (whisper_model cfg)) ;;;
  r <- lift (model_transcribe eng audio_file
               (if decide (source_lang = lit "auto") then None
                else Some source_lang)) ;;
  let '(segments, language) := r in
  let ts := transcription_segments segments in
  save_json_segments ft ts (nllb_lang cfg language) output_json ;;;
  save_srt_segments ts output_srt.

End transcribe_only.

(** ** [translate_only.py] *)

Module translate_only.
Import Float FS Srt.

(** The keys of [config.json] this module reads. *)
Record config := {
  target_lang : str;
  translation_model : str;
  max_line_length : Z;
  max_lines : Z;
  language_code_map : gmap str str;
  use_regex_splitter : bool
}.

(** The external collaborators: the regular-expression engine on the
    pattern of [split_sentences], NLTK's tokenizer, and the translation
    model with its tokenizer. [generate src tgt max_length sentence]
    stands for encoding, [model.generate] and decoding of one
    sentence with [tokenizer.src_lang = src]. *)
Record engines := {
  re_split : str -> list str;
  sent_tokenize : str -> result (list str);
  tokenizer_from_pretrained : str -> result unit;
  model_from_pretrained : str -> result unit;
  generate : str -> str -> Z -> str -> result str
}.

(** One call of the translation engine. *)
Record call := { call_src : str; call_tgt : str; call_text : str }.

(** The state the stage acts on: the files and the calls made to the
    translation engine so far, oldest first. *)
Record world := { files : fs; calls : list call }.

Definition M (A : Type) := prog world A.

Definition on_files {A} (f : fs -> result A * fs) : M A :=
  fun w => let '(r, st) := f (files w) in
           (r, {| files := st; calls := calls w |}).

(** [data[key]] on the value [json.load] returned. A key given twice in
    the document keeps its last value. *)
Fixpoint dict_get (members : list (str * json)) (key : str) : option json :=
  match members with
  | [] => None
  | (k, v) :: rest =>
      match dict_get rest key with
      | Some v' => Some v'
      | None => if decide (k = key) then Some v else None
      end
  end.

Definition getitem (data : json) (key : str) : result json :=
  match data with
  | JObj members =>
      match dict_get members key with
      | Some v => Ok v
      | None => Raise KeyError
      end
  | _ => Raise TypeError
  end.

(** [json.load(open(json_file))] *)
Definition json_load (json_file : path) (st : fs) : result json :=
  match st !! json_file with
  | None => Raise FileNotFoundError
  | Some (Raw _) => Raise JSONDecodeError
  | Some (Doc d) => Ok d
  end.

(** [load_segments]: both handlers log and re-raise. *)
Definition load_segments (json_file : path) (st : fs) : result (json * json) :=
  rbind (json_load json_file st) (fun data =>
  rbind (getitem data (lit "segments")) (fun segments =>
  rbind (getitem data (lit "lang")) (fun lang =>
  Ok (segments, lang)))).




Section Stage.
Variable cfg : config.
Variable eng : engines.

(** [split_sentences] *)
Definition split_sentences (text : str) : result (list str) :=
  if use_regex_splitter cfg then
    Ok (filter (fun s => truthy s = true) (map strip (re_split eng text)))
  else sent_tokenize eng text.

(** The sentences [translate_segment] keeps for translation. *)
Definition cap_sentences (text : str) (sentences : list str) : list str :=
  if max_line_length cfg <? len text then
    slice_to (max_lines cfg) (map (slice_to (max_line_length cfg)) sentences)
  else slice_to (max_lines cfg) sentences.

(** One turn of the loop over [sentences]. *)
Definition translate_sentence (src_lang target_lang : str) (max_length : Z)
    (sentence : str) : M str :=
  fun w =>
    (generate eng src_lang target_lang max_length sentence,
     {| files := files w;
        calls := calls w ++ [{| call_src := src_lang;
                                call_tgt := target_lang;
                                call_text := sentence |}] |}).

Fixpoint translate_sentences (src_lang target_lang : str) (max_length : Z)
    (sentences : list str) : M (list str) :=
  match sentences with
  | [] => ret []
  | sentence :: rest =>
      t <- translate_sentence src_lang target_lang max_length sentence ;;
      ts <- translate_sentences src_lang target_lang max_length rest ;;
      ret (t :: ts)
  end.

(** [translate_segment]; [src_lang] is the state of the tokenizer. *)
Definition translate_segment (text : str) (src_lang target_lang : str)
    (max_length : Z) : M str :=
  if negb (truthy text) || (len (strip text) <? 3) then ret []
  else
    sentences <- lift (split_sentences text) ;;
    let sentences := cap_sentences text sentences in
    translated_sentences <-
      translate_sentences src_lang target_lang max_length sentences ;;
    ret (join (lit " ") translated_sentences).

(** [language_code_map.get(source_lang, source_lang) or "eng_Latn"] *)
Definition map_source_lang (source_lang : str) : str :=
  or_else (default source_lang (language_code_map cfg !! source_lang))
          (lit "eng_Latn").

(** The loop of [translate] that fills [translated_segments]. *)
Fixpoint translated_segments (segments : list segment)
    (src_lang target_lang : str) (max_length : Z) : M (list segment) :=
  match segments with
  | [] => ret []
  | (start, end_, text) :: rest =>
      translated_text <- translate_segment text src_lang target_lang max_length ;;
      others <- translated_segments rest src_lang target_lang max_length ;;
      ret ((start, end_, translated_text) :: others)
  end.

(** [translate]: every handler logs and re-raises, and [cleanup_gpu]
    in the [finally] clause swallows its own errors. *)
Definition translate (segments : list segment) (source_lang target_lang : str)
    (output_srt output_txt : path) : M unit :=
  let source_lang := map_source_lang source_lang in
  lift (tokenizer_from_pretrained eng (translation_model cfg)) ;;;
  lift (model_from_pretrained eng (translation_model cfg)) ;;;
  let max_length := 512 in
  out <- translated_segments segments source_lang target_lang max_length ;;
  on_files (save_srt_segments out output_srt) ;;;
  on_files (save_txt_segments out output_txt) ;;;
  ret tt.

End Stage.

End translate_only.

(** ** [pipeline.py] *)

Module pipeline.
Import FS.

Inductive stage := Extract | Transcribe | Translate | Subtitles.

(** The name of a stage on the command line. *)
Definition stage_name (s : stage) : str :=
  match s with
  | Extract => lit "extract"
  | Transcribe => lit "transcribe"
  | Translate => lit "translate"
  | Subtitles => lit "subtitles"
  end.

(** [config['paths']] *)
Record paths := {
  video_dir : path;
  audio_dir : path;
  audio_file : path;
  subs_original_dir : path;
  subs_original_file : path;
  subs_original_file_json : path;
  subs_translated_dir : path;
  subs_translated_file_srt : path;
  subs_translated_file_txt : path;
  video_with_subs_dir : path;
  output_soft : path;
  output_burned : path
}.

Record config := {
  cfg_paths : paths;
  target_lang : str;                (* models['target_lang'] *)
  subtitles_mode : option str       (* subtitles.get('mode') *)
}.

(** What [pipeline.py] imports and calls, over a state [W] of the
    machine (files, devices, models): [pathlib] and [os], and the stage
    functions of the four other files. *)
Record host (W : Type) := {
  resolve : W -> path -> path;
  path_exists : W -> path -> bool;
  glob_mp4 : W -> path -> list path;
  joinpath : path -> path -> path;
  makedirs : path -> prog W unit;
  extract_audio_from_video : path -> path -> prog W unit;
  transcribe : path -> path -> path -> prog W unit;
  load_segments : path -> prog W (json * json);
  translate : json -> json -> str -> path -> path -> prog W unit;
  add_soft_subs : path -> path -> path -> prog W unit;
  add_burned_subs : path -> path -> path -> prog W unit
}.
Arguments resolve {W}. Arguments path_exists {W}. Arguments glob_mp4 {W}.
Arguments joinpath {W}. Arguments makedirs {W}.
Arguments extract_audio_from_video {W}. Arguments transcribe {W}.
Arguments load_segments {W}. Arguments translate {W}.
Arguments add_soft_subs {W}. Arguments add_burned_subs {W}.

(** The records [pipeline.py] itself writes to its log. *)
Inductive event :=
| Started (s : stage)            (* "Step n: ..." *)
| Finished (s : stage)           (* the success record of a step *)
| Failed (s : stage) (e : exn)   (* the error record of a step *)
| MultipleVideos                 (* the warning of [select_video_file] *)
| Completed                      (* "Pipeline completed successfully." *)
| Aborted (e : exn).             (* the error record of [run_pipeline] *)

Record state (W : Type) := { machine : W; log : list event }.
Arguments machine {W}. Arguments log {W}.

Section Orchestrator.
Context {W : Type}.
Variable cfg : config.
Variable os : host W.

Definition P (A : Type) := prog (state W) A.

Definition logging (ev : event) : P unit :=
  fun s => (Ok tt, {| machine := machine s; log := log s ++ [ev] |}).

Definition record (ev : event) (s : state W) : state W :=
  {| machine := machine s; log := log s ++ [ev] |}.

Definition on_machine {A} (m : prog W A) : P A :=
  fun s => let '(r, w) := m (machine s) in
           (r, {| machine := w; log := log s |}).

Definition observe {A} (f : W -> A) : P A :=
  fun s => (Ok (f (machine s)), s).

(** [if video_arg:] holds of a non-empty string only. *)
Definition given (arg : option str) : option str :=
  match arg with
  | Some a => if truthy a then Some a else None
  | None => None
  end.

(** [select_video_file] *)
Definition select_video_file (video_arg : option str) : P path :=
  match given video_arg with
  | Some a =>
      video_path <- observe (fun w => resolve os w a) ;;
      ex <- observe (fun w => path_exists os w video_path) ;;
      if negb ex then raise FileNotFoundError
      else ret video_path
  | None =>
      video_files <- observe (fun w => glob_mp4 os w (video_dir (cfg_paths cfg))) ;;
      match video_files with
      | [] => raise FileNotFoundError
      | first :: others =>
          (match others with
           | [] => ret tt
           | _ => logging MultipleVideos
           end) ;;;
          observe (fun w => resolve os w first)
      end
  end.

(** [step_extract_audio] *)
Definition step_extract_audio (video_file output_audio : path) : P unit :=
  logging (Started Extract) ;;;
  reraising
    (on_machine (extract_audio_from_video os video_file output_audio) ;;;
     logging (Finished Extract))
    (fun e => record (Failed Extract e)).

(** [step_transcribe]; [cleanup_gpu] swallows its own errors. *)
Definition step_transcribe (output_audio subs_original_file_json
    subs_original_file : path) : P unit :=
  logging (Started Transcribe) ;;;
  reraising
    (on_machine (transcribe os output_audio subs_original_file_json
                   subs_original_file) ;;;
     logging (Finished Transcribe))
    (fun e => record (Failed Transcribe e)).

(** [step_translate] *)
Definition step_translate (subs_original_file_json subs_translated_file_srt
    subs_translated_file_txt : path) : P unit :=
  logging (Started Translate) ;;;
  reraising
    (loaded <- on_machine (load_segments os subs_original_file_json) ;;
     let '(segments, source_lang) := loaded in
     on_machine (translate os segments source_lang (target_lang cfg)
                   subs_translated_file_srt subs_translated_file_txt) ;;;
     logging (Finished Translate))
    (fun e => record (Failed Translate e)).

(** [step_subtitles] *)
Definition step_subtitles (video_file subs_translated_file_srt
    output_soft output_burned : path) (mode : str) : P unit :=
  logging (Started Subtitles) ;;;
  reraising
    (if decide (mode = lit "soft") then
       on_machine (add_soft_subs os video_file subs_translated_file_srt
                     output_soft) ;;;
       logging (Finished Subtitles)
     else if decide (mode = lit "burned") then
       on_machine (add_burned_subs os video_file subs_translated_file_srt
                     output_burned) ;;;
       logging (Finished Subtitles)
     else raise ValueError)
    (fun e => record (Failed Subtitles e)).

(** [name in steps] *)
Definition requested (steps : list str) (s : stage) : bool :=
  bool_decide (stage_name s ∈ steps).

Definition when (b : bool) (m : P unit) : P unit :=
  if b then m else ret tt.

(** [run_pipeline]: the three handlers log, print and re-raise. *)
Definition run_pipeline (steps : list str) (mode : option str)
    (video_arg : option str) : P unit :=
  let p := cfg_paths cfg in
  reraising
    (video_file <- select_video_file video_arg ;;
     let output_audio := joinpath os (audio_dir p) (audio_file p) in
     let subs_original_file :=
       joinpath os (subs_original_dir p) (subs_original_file p) in
     let subs_original_file_json :=
       joinpath os (subs_original_dir p) (subs_original_file_json p) in
     let subs_translated_file_srt :=
       joinpath os (subs_translated_dir p) (subs_translated_file_srt p) in
     let subs_translated_file_txt :=
       joinpath os (subs_translated_dir p) (subs_translated_file_txt p) in
     let output_soft := joinpath os (video_with_subs_dir p) (output_soft p) in
     let output_burned := joinpath os (video_with_subs_dir p) (output_burned p) in
     on_machine (makedirs os (audio_dir p)) ;;;
     let final_mode :=
       match given mode with
       | Some m => m
       | None => default (lit "burned") (subtitles_mode cfg)
       end in
     when (requested steps Extract)
       (step_extract_audio video_file output_audio) ;;;
     when (requested steps Transcribe)
       (step_transcribe output_audio subs_original_file_json
          subs_original_file) ;;;
     when (requested steps Translate)
       (step_translate subs_original_file_json subs_translated_file_srt
          subs_translated_file_txt) ;;;
     when (requested steps Subtitles)
       (step_subtitles video_file subs_translated_file_srt output_soft
          output_burned final_mode) ;;;
     logging Completed)
    (fun e => record (Aborted e)).

End Orchestrator.

(** The stages a run entered, in the order it entered them. *)
Fixpoint started (l : list event) : list stage :=
  match l with
  | Started s :: l' => s :: started l'
  | _ :: l' => started l'
  | [] => []
  end.

End pipeline.

(** ** The machine under [mp3extractor.py] and [embed_subtitles.py] *)

Module Sys.
Import FS.

(** What the two files call from [os], [pathlib], [subprocess] and
    MoviePy, over a state [W] of the machine. *)
Record host (W : Type) := {
  path_exists : W -> path -> bool;
  resolve : W -> path -> path;
  glob_mp4 : W -> path -> list path;
  dirname : path -> path;
  makedirs : path -> prog W unit;
  subprocess_run : list str -> prog W unit;
  VideoFileClip : path -> prog W unit;
  write_audiofile : path -> path -> prog W unit;
  close : path -> prog W unit
}.
Arguments path_exists {W}. Arguments resolve {W}. Arguments glob_mp4 {W}.
Arguments dirname {W}. Arguments makedirs {W}. Arguments subprocess_run {W}.
Arguments VideoFileClip {W}. Arguments write_audiofile {W}. Arguments close {W}.

(** The machine and the calls made to it so far, oldest first. *)
Inductive action :=
| Makedirs (dir : path)
| Run (command : list str)
| OpenClip (video : path)
| WriteAudio (video output : path)
| CloseClip (video : path).

Record state (W : Type) := { machine : W; actions : list action }.
Arguments machine {W}. Arguments actions {W}.

Definition acting {W A} (a : action) (m : prog W A) : prog (state W) A :=
  fun s => let '(r, w) := m (machine s) in
           (r, {| machine := w; actions := actions s ++ [a] |}).

Definition looking {W A} (f : W -> A) : prog (state W) A :=
  fun s => (Ok (f (machine s)), s).

End Sys.

(** ** [mp3extractor.py] *)

Module mp3extractor.
Import FS Sys.

Record config := {
  video_dir : path;                 (* paths["video_dir"] *)
  hwaccel : option str;             (* ffmpeg_conf.get("hwaccel") *)
  use_ffmpeg : bool
}.

Section Extractor.
Context {W : Type}.
Variable cfg : config.
Variable os : host W.

(** [select_video_file] of this file: the first MP4 of the directory. *)
Definition select_video_file : prog (state W) path :=
  video_files <- looking (fun w => glob_mp4 os w (video_dir cfg)) ;;
  match video_files with
  | [] => raise FileNotFoundError
  | first :: _ => looking (fun w => resolve os w first)
  end.

(** The argument list of [extract_audio_with_ffmpeg]. *)
Definition ffmpeg_command (video_file output_audio : path) : list str :=
  let hw := default (lit "none") (hwaccel cfg) in
  [lit "ffmpeg"]
  ++ (if decide (hw <> lit "none") then [lit "-hwaccel"; hw] else [])
  ++ [lit "-i"; video_file; lit "-vn"; lit "-acodec"; lit "mp3"; lit "-y";
      output_audio].

(** [extract_audio_with_ffmpeg]: both handlers log and re-raise. *)
Definition extract_audio_with_ffmpeg (video_file output_audio : path)
    : prog (state W) unit :=
  let command := ffmpeg_command video_file output_audio in
  acting (Run command) (subprocess_run os command).

(** [extract_audio_with_moviepy] *)
Definition extract_audio_with_moviepy (video_file output_audio : path)
    : prog (state W) unit :=
  acting (OpenClip video_file) (VideoFileClip os video_file) ;;;
  acting (Makedirs (dirname os output_audio))
    (makedirs os (dirname os output_audio)) ;;;
  acting (WriteAudio video_file output_audio)
    (write_audiofile os video_file output_audio) ;;;
  acting (CloseClip video_file) (close os video_file).

(** [extract_audio_from_video]: the handlers log, print and re-raise. *)
Definition extract_audio_from_video (video_file output_audio : path)
    : prog (state W) unit :=
  ex <- looking (fun w => path_exists os w video_file) ;;
  if negb ex then raise FileNotFoundError
  else if use_ffmpeg cfg then extract_audio_with_ffmpeg video_file output_audio
  else extract_audio_with_moviepy video_file output_audio.

End Extractor.

End mp3extractor.

(** ** [embed_subtitles.py] *)

Module embed_subtitles.
Import FS Sys.

(** [config["ffmpeg"]], each value as the f-string and [str] print it. *)
Record ffmpeg_conf := {
  subtitle_position : str;
  font_name : str;
  font_size : str;
  primary_colour : str;
  outline_colour : str;
  border_style : str;
  outline : str;
  shadow : str;
  preset : str;
  crf : str;
  pix_fmt : str
}.

Section Embedding.
Context {W : Type}.
Variable conf : ffmpeg_conf.
Variable os : host W.

(** The argument list of [add_soft_subs]. *)
Definition soft_command (video subs output : path) : list str :=
  [lit "ffmpeg"; lit "-i"; video; lit "-i"; subs;
   lit "-c:v"; lit "copy"; lit "-c:a"; lit "copy"; lit "-c:s"; lit "mov_text";
   lit "-y"; output].

(** [add_soft_subs]: the handler logs, prints and re-raises. *)
Definition add_soft_subs (video subs output : path) : prog (state W) unit :=
  ex <- looking (fun w => path_exists os w video) ;;
  if negb ex then raise FileNotFoundError else
  ex <- looking (fun w => path_exists os w subs) ;;
  if negb ex then raise FileNotFoundError else
  acting (Makedirs (dirname os output)) (makedirs os (dirname os output)) ;;;
  acting (Run (soft_command video subs output))
    (subprocess_run os (soft_command video subs output)).

(** [position_map.get(ffmpeg_conf["subtitle_position"], 2)] *)
Definition alignment : Z :=
  let position := subtitle_position conf in
  if decide (position = lit "bottom") then 2
  else if decide (position = lit "top") then 8
  else if decide (position = lit "center") then 10
  else 2.

(** The [-vf] filter of [add_burned_subs]. *)
Definition style (subs : path) : str :=
  lit "subtitles='" ++ subs ++ lit "':force_style="
  ++ lit "'FontName=" ++ font_name conf ++ lit ","
  ++ lit "FontSize=" ++ font_size conf ++ lit ","
  ++ lit "PrimaryColour=" ++ primary_colour conf ++ lit ","
  ++ lit "OutlineColour=" ++ outline_colour conf ++ lit ","
  ++ lit "BorderStyle=" ++ border_style conf ++ lit ","
  ++ lit "Outline=" ++ outline conf ++ lit ","
  ++ lit "Shadow=" ++ shadow conf ++ lit ","
  ++ lit "Alignment=" ++ str_of_int alignment ++ lit "'".

(** The argument list of [add_burned_subs]. *)
Definition burned_command (video subs output : path) : list str :=
  [lit "ffmpeg"; lit "-i"; video; lit "-vf"; style subs;
   lit "-c:a"; lit "copy"; lit "-c:v"; lit "libx264";
   lit "-preset"; preset conf; lit "-crf"; crf conf;
   lit "-pix_fmt"; pix_fmt conf; lit "-y"; output].

(** [add_burned_subs]: the handler logs and re-raises. *)
Definition add_burned_subs (video subs output : path) : prog (state W) unit :=
  ex <- looking (fun w => path_exists os w video) ;;
  if negb ex then raise FileNotFoundError else
  ex <- looking (fun w => path_exists os w subs) ;;
  if negb ex then raise FileNotFoundError else
  acting (Makedirs (dirname os output)) (makedirs os (dirname os output)) ;;;
  acting (Run (burned_command video subs output))
    (subprocess_run os (burned_command video subs output)).

End Embedding.

End embed_subtitles.

(** ** Sample configuration and engines, used by the examples *)

Module Demo.
Import translate_only.

Definition is_stop (c : char) : bool :=
  bool_decide (c ∈ lit ".?!").

(** A stand-in for the sentence tokenizer: a sentence ends at [.], [?]
    or [!] followed by one space. *)
Fixpoint toy_split (cur : str) (text : str) : list str :=
  match text with
  | [] => match cur with [] => [] | _ => [cur] end
  | c :: rest =>
      match rest with
      | sp :: rest' =>
          if is_stop c && (sp =? 32)%N
          then (cur ++ [c]) :: toy_split [] rest'
          else toy_split (cur ++ [c]) rest
      | [] => [cur ++ [c]]
      end
  end.

(** A stand-in for the translation model: it tags the sentence with the
    two language codes. *)
Definition toy_generate (src tgt : str) (max_length : Z) (sentence : str)
    : result str :=
  Ok (src ++ lit ">" ++ tgt ++ lit ":" ++ sentence).

Definition eng : engines := {|
  re_split := toy_split [];
  sent_tokenize := fun text => Ok (toy_split [] text);
  tokenizer_from_pretrained := fun _ => Ok tt;
  model_from_pretrained := fun _ => Ok tt;
  generate := toy_generate
|}.

Definition cfg : config := {|
  target_lang := lit "tur_Latn";
  translation_model := lit "facebook/nllb-200-distilled-600M";
  max_line_length := 40;
  max_lines := 2;
  language_code_map := {[ lit "en" := lit "eng_Latn" ]};
  use_regex_splitter := false
|}.

Definition w0 : world := {| files := ∅; calls := [] |}.

(** The same with the regular-expression splitter, and an engine whose
    model fails on every sentence. *)
Definition rcfg : config := {|
  target_lang := lit "tur_Latn";
  translation_model := lit "facebook/nllb-200-distilled-600M";
  max_line_length := 40;
  max_lines := 2;
  language_code_map := {[ lit "en" := lit "eng_Latn" ]};
  use_regex_splitter := true
|}.

Definition eng_down : engines := {|
  re_split := toy_split [];
  sent_tokenize := fun text => Ok (toy_split [] text);
  tokenizer_from_pretrained := fun _ => Ok tt;
  model_from_pretrained := fun _ => Ok tt;
  generate := fun _ _ _ _ => Raise RuntimeError
|}.

(** Fifty characters, three sentences. *)
Definition text50 : str :=
  lit "Hello there. How are you today? I am fine, thanks.".

(** A stand-in for the float conversion of CPython, right on the whole
    numbers: 2.0 is written [2.0] and read back as 2.0. *)
Definition toy_repr (x : Float.float) : str :=
  match x with
  | S754_zero true => lit "-0.0"
  | S754_zero false => lit "0.0"
  | _ =>
      match Float.int_of_float x with
      | inr n => str_of_int n ++ lit ".0"
      | inl _ => lit "0.0"
      end
  end.

Fixpoint before_dot (s : str) : str :=
  match s with
  | c :: rest => if (c =? 46)%N then [] else c :: before_dot rest
  | [] => []
  end.

Definition toy_float (s : str) : Float.float :=
  if bool_decide (s = lit "-0.0") then S754_zero true
  else Float.of_int (Json.int_of_str (before_dot s)).

Definition ftext : Json.float_text :=
  {| Json.float_repr := toy_repr; Json.float_of_str := toy_float |}.

(** A recognition engine that hears one segment of English, and one
    whose model does not load. *)
Definition tcfg : transcribe_only.config := {|
  transcribe_only.whisper_model := lit "large-v3";
  transcribe_only.language_code_map := {[ lit "en" := lit "eng_Latn" ]}
|}.

Definition heard : list transcribe_only.whisper_segment :=
  [{| transcribe_only.seg_start := Float.of_int 0;
      transcribe_only.seg_end := Float.of_int 2;
      transcribe_only.seg_text := lit " Hello there. " |}].

Definition whisper : transcribe_only.engines := {|
  transcribe_only.WhisperModel := fun _ => Ok tt;
  transcribe_only.model_transcribe := fun _ _ => Ok (heard, lit "en")
|}.

(** A machine for the orchestrator: the state is the list of the files
    present, and every stage checks its inputs and adds its outputs. *)
Definition present (w : list FS.path) (p : FS.path) : bool :=
  bool_decide (p ∈ w).

Definition is_mp4_in (dir p : FS.path) : bool :=
  bool_decide (take (length dir + 1) p = dir ++ lit "/")
  && bool_decide (drop (length p - 4) p = lit ".mp4").

Definition needs (inputs outputs : list FS.path) : prog (list FS.path) unit :=
  fun w =>
    if forallb (present w) inputs then (Ok tt, outputs ++ w)
    else (Raise FileNotFoundError, w).

Definition os : pipeline.host (list FS.path) := {|
  pipeline.resolve := fun _ p => p;
  pipeline.path_exists := present;
  pipeline.glob_mp4 := fun w dir => filter (fun p => is_mp4_in dir p = true) w;
  pipeline.joinpath := fun a b => a ++ lit "/" ++ b;
  pipeline.makedirs := fun _ => ret tt;
  pipeline.extract_audio_from_video := fun v a => needs [v] [a];
  pipeline.transcribe := fun a j srt => needs [a] [j; srt];
  pipeline.load_segments := fun j w =>
    if present w j then (Ok (FS.JArr [], FS.JStr (lit "eng_Latn")), w)
    else (Raise FileNotFoundError, w);
  pipeline.translate := fun _ _ _ srt txt => needs [] [srt; txt];
  pipeline.add_soft_subs := fun v srt out => needs [v; srt] [out];
  pipeline.add_burned_subs := fun v srt out => needs [v; srt] [out]
|}.

Definition pcfg : pipeline.config := {|
  pipeline.cfg_paths := {|
    pipeline.video_dir := lit "data/video";
    pipeline.audio_dir := lit "data/audio";
    pipeline.audio_file := lit "audio.mp3";
    pipeline.subs_original_dir := lit "data/subs";
    pipeline.subs_original_file := lit "original.srt";
    pipeline.subs_original_file_json := lit "original.json";
    pipeline.subs_translated_dir := lit "data/translated";
    pipeline.subs_translated_file_srt := lit "translated.srt";
    pipeline.subs_translated_file_txt := lit "translated.txt";
    pipeline.video_with_subs_dir := lit "data/out";
    pipeline.output_soft := lit "soft.mp4";
    pipeline.output_burned := lit "burned.mp4"
  |};
  pipeline.target_lang := lit "tur_Latn";
  pipeline.subtitles_mode := Some (lit "soft")
|}.

(** [os.path.dirname] on a POSIX path: what precedes the last slash. *)
Fixpoint parent (p : FS.path) : FS.path :=
  match p with
  | [] => []
  | c :: rest => if bool_decide (47%N ∈ rest) then c :: parent rest else []
  end.

(** The same machine under the extraction and the embedding: FFmpeg
    writes the last argument of its command. *)
Definition sys : Sys.host (list FS.path) := {|
  Sys.path_exists := present;
  Sys.resolve := fun _ p => p;
  Sys.glob_mp4 := fun w dir => filter (fun p => is_mp4_in dir p = true) w;
  Sys.dirname := parent;
  Sys.makedirs := fun _ => ret tt;
  Sys.subprocess_run := fun command => needs [] (option_list (last command));
  Sys.VideoFileClip := fun v => needs [v] [];
  Sys.write_audiofile := fun v o => needs [v] [o];
  Sys.close := fun _ => ret tt
|}.

Definition mcfg : mp3extractor.config := {|
  mp3extractor.video_dir := lit "data/video";
  mp3extractor.hwaccel := None;
  mp3extractor.use_ffmpeg := false
|}.

Definition fconf : embed_subtitles.ffmpeg_conf := {|
  embed_subtitles.subtitle_position := lit "middle";
  embed_subtitles.font_name := lit "Arial";
  embed_subtitles.font_size := lit "24";
  embed_subtitles.primary_colour := lit "&H00FFFFFF";
  embed_subtitles.outline_colour := lit "&H00000000";
  embed_subtitles.border_style := lit "1";
  embed_subtitles.outline := lit "2";
  embed_subtitles.shadow := lit "0";
  embed_subtitles.preset := lit "medium";
  embed_subtitles.crf := lit "23";
  embed_subtitles.pix_fmt := lit "yuv420p"
|}.

Definition video_only : Sys.state (list FS.path) :=
  {| Sys.machine := [lit "data/video/sample.mp4"]; Sys.actions := [] |}.

Definition video_and_subs : Sys.state (list FS.path) :=
  {| Sys.machine := [lit "data/video/sample.mp4"; lit "data/translated.srt"];
     Sys.actions := [] |}.

(** A machine holding one video and nothing else, and an empty one. *)
Definition with_video : pipeline.state (list FS.path) :=
  {| pipeline.machine := [lit "data/video/sample.mp4"]; pipeline.log := [] |}.

Definition bare : pipeline.state (list FS.path) :=
  {| pipeline.machine := [lit "data/subs/original.json"]; pipeline.log := [] |}.

End Demo.

(** ** The vocabulary of the statements *)

Import Float FS Srt.

Section TranslateTerms.
Import translate_only.

Definition mk_call (src tgt sentence : str) : call :=
  {| call_src := src; call_tgt := tgt; call_text := sentence |}.

(** The short-text check of [translate_segment], as a proposition. *)
Definition passes_short_check (text : str) : Prop :=
  text <> [] /\ 3 <= len (strip text).

(** [w'] extends the call log of [w] by calls made with source
    language [src]. *)
Definition calls_from (src : str) (w w' : world) : Prop :=
  exists new, calls w' = calls w ++ new /\
              Forall (fun c => call_src c = src) new.

End TranslateTerms.

(** A loaded value read as a transcript: a list of [start, end, text]
    triples of two floats and a string, and a language tag that is a
    string. [None] when the types do not conform. *)
Definition as_segment (item : json) : option segment :=
  match item with
  | JArr [JFloat start; JFloat end_; JStr text] => Some (start, end_, text)
  | _ => None
  end.

Fixpoint as_segments (items : list json) : option (list segment) :=
  match items with
  | [] => Some []
  | item :: rest =>
      match as_segment item, as_segments rest with
      | Some seg, Some segs => Some (seg :: segs)
      | _, _ => None
      end
  end.

Definition as_transcript (loaded : json * json) : option (list segment * str) :=
  match loaded with
  | (JArr items, JStr lang) =>
      match as_segments items with
      | Some segs => Some (segs, lang)
      | None => None
      end
  | _ => None
  end.

Section PipelineTerms.
Import pipeline.
Context {W : Type}.
Variable cfg : config.
Variable os : host W.

Definition all_stages : list stage := [Extract; Transcribe; Translate; Subtitles].

(** The requested stages, in the fixed order. *)
Definition plan (steps : list str) : list stage :=
  filter (fun st => requested steps st = true) all_stages.

(** [mode or subtitles.get('mode', 'burned')] *)
Definition final_mode (mode : option str) : str :=
  match given mode with
  | Some m => m
  | None => default (lit "burned") (subtitles_mode cfg)
  end.

(** The call [run_pipeline] makes for a stage. *)
Definition run_stage (video_file : path) (mode : str) (st : stage) : P (W:=W) unit :=
  let p := cfg_paths cfg in
  match st with
  | Extract =>
      step_extract_audio os video_file (joinpath os (audio_dir p) (audio_file p))
  | Transcribe =>
      step_transcribe os (joinpath os (audio_dir p) (audio_file p))
        (joinpath os (subs_original_dir p) (subs_original_file_json p))
        (joinpath os (subs_original_dir p) (subs_original_file p))
  | Translate =>
      step_translate cfg os
        (joinpath os (subs_original_dir p) (subs_original_file_json p))
        (joinpath os (subs_translated_dir p) (subs_translated_file_srt p))
        (joinpath os (subs_translated_dir p) (subs_translated_file_txt p))
  | Subtitles =>
      step_subtitles os video_file
        (joinpath os (subs_translated_dir p) (subs_translated_file_srt p))
        (joinpath os (video_with_subs_dir p) (output_soft p))
        (joinpath os (video_with_subs_dir p) (output_burned p)) mode
  end.

(** Stages run one after the other; the first exception ends the run. *)
Fixpoint run_in_order (run : stage -> P (W:=W) unit) (todo : list stage)
    (final : P (W:=W) unit) : P unit :=
  match todo with
  | [] => final
  | st :: rest => run st ;;; run_in_order run rest final
  end.

(** What it is to run a stage: the call of the function of the other
    file, on the paths of the configuration, on the machine. Translation
    loads the transcript and translates it; the subtitles are embedded
    by the function of the mode. *)
Definition stage_call (video_file : path) (mode : str) (st : stage)
    : prog W unit :=
  let p := cfg_paths cfg in
  match st with
  | Extract =>
      extract_audio_from_video os video_file
        (joinpath os (audio_dir p) (audio_file p))
  | Transcribe =>
      transcribe os (joinpath os (audio_dir p) (audio_file p))
        (joinpath os (subs_original_dir p) (subs_original_file_json p))
        (joinpath os (subs_original_dir p) (subs_original_file p))
  | Translate =>
      loaded <- load_segments os
                  (joinpath os (subs_original_dir p) (subs_original_file_json p)) ;;
      translate os (fst loaded) (snd loaded) (target_lang cfg)
        (joinpath os (subs_translated_dir p) (subs_translated_file_srt p))
        (joinpath os (subs_translated_dir p) (subs_translated_file_txt p))
  | Subtitles =>
      if decide (mode = lit "soft") then
        add_soft_subs os video_file
          (joinpath os (subs_translated_dir p) (subs_translated_file_srt p))
          (joinpath os (video_with_subs_dir p) (output_soft p))
      else if decide (mode = lit "burned") then
        add_burned_subs os video_file
          (joinpath os (subs_translated_dir p) (subs_translated_file_srt p))
          (joinpath os (video_with_subs_dir p) (output_burned p))
      else raise ValueError
  end.

(** The stages of [todo] run on the machine one after the other; the
    first exception ends the run and is its result. *)
Fixpoint run_calls (call : stage -> prog W unit) (todo : list stage)
    : prog W unit :=
  match todo with
  | [] => ret tt
  | st :: rest => call st ;;; run_calls call rest
  end.

(** The stages named in [steps], in the fixed order. *)
Definition named_stages (steps : list str) : list stage :=
  (if bool_decide (lit "extract" ∈ steps) then [Extract] else [])
  ++ (if bool_decide (lit "transcribe" ∈ steps) then [Transcribe] else [])
  ++ (if bool_decide (lit "translate" ∈ steps) then [Translate] else [])
  ++ (if bool_decide (lit "subtitles" ∈ steps) then [Subtitles] else []).

(** A program that enters no stage. *)
Definition quiet {A} (m : P (W:=W) A) : Prop :=
  forall s r s', m s = (r, s') -> started (log s') = started (log s).

End PipelineTerms.

(** [m] shifted left by [n] bits, as [shl_align] computes it. *)
Definition shl (m : positive) (n : Z) : positive :=
  match n with
  | Zpos p => Pos.iter xO m p
  | _ => m
  end.

(** [x] is a valid float, not negative, worth [u] units. *)
Definition is_units (x : float) (u : Z) : Prop :=
  (u = 0 /\ exists s, x = S754_zero s) \/
  (0 < u /\ exists m e, x = S754_finite false m e /\
                        bounded prec emax m e = true /\
                        Zpos m * 2 ^ (e + 1074) = u).

(** The float of [u] units, when there is one. *)
Definition of_units (u : Z) : float := binary_normalize prec emax u (-1074) false.

(** [u] units are the value of a binary64: at most 53 significant bits. *)
Definition representable (u : Z) : Prop :=
  0 < u /\ exists g, 0 <= g <= 2045 /\ (2 ^ g | u) /\ u < 2 ^ (53 + g).

Definition sec : Z := 2 ^ 1074.

(** Times: valid floats that are not negative and stay below [2^53]
    seconds. The SRT format has room for those under a hundred hours. *)
Definition nonneg (t : float) : bool :=
  match t with
  | S754_zero _ | S754_finite false _ _ => true
  | _ => false
  end.

Definition is_time (t : float) : Prop :=
  valid t = true /\ nonneg t = true /\ units t < 2 ^ 53 * 2 ^ 1074.

Definition below_100h (t : float) : Prop :=
  valid t = true /\ nonneg t = true /\ units t < 360000 * 2 ^ 1074.

(** The whole seconds of [t], and the whole part of the float product
    [t * 1000]. *)
Definition whole_seconds (t : float) : Z := units t / 2 ^ 1074.
Definition whole_millis (t : float) : Z := units (mul t c1000) / 2 ^ 1074.

Definition digit (k : Z) : char := Z.to_N (48 + k).

Definition two_digits (n : Z) : str := [digit (n / 10); digit (n mod 10)].

Definition three_digits (n : Z) : str :=
  [digit (n / 100); digit (n / 10 mod 10); digit (n mod 10)].

(** The timestamp of [t]: hours, minutes and seconds of the whole
    seconds, and the whole part of the product [t * 1000] modulo 1000. *)
Definition stamp_fields (t : float) : Z * Z * Z * Z :=
  (whole_seconds t / 3600, whole_seconds t mod 3600 / 60,
   whole_seconds t mod 60, whole_millis t mod 1000).

Definition stamp (t : float) : str :=
  let '(h, m, s, ms) := stamp_fields t in
  format_zero 2 h ++ lit ":" ++ two_digits m ++ lit ":" ++ two_digits s
  ++ lit "," ++ three_digits ms.

(** The timestamp in the form [HH:MM:SS,mmm]. *)
Definition hh_mm_ss_mmm (t : float) : str :=
  let '(h, m, s, ms) := stamp_fields t in
  two_digits h ++ lit ":" ++ two_digits m ++ lit ":" ++ two_digits s
  ++ lit "," ++ three_digits ms.

(** What one turn of the loop of [save_srt_segments] writes. *)
Definition block_text (idx : Z) (seg : segment) : str :=
  let '(start, end_, text) := seg in
  str_of_int idx ++ newline ++ stamp start ++ lit " --> " ++ stamp end_
  ++ newline ++ text ++ newline ++ newline.

Fixpoint srt_text (idx : Z) (segments : list segment) : str :=
  match segments with
  | [] => []
  | seg :: rest => block_text idx seg ++ srt_text (idx + 1) rest
  end.

Definition times_ok (seg : segment) : Prop :=
  is_time (fst (fst seg)) /\ is_time (snd (fst seg)).

(** The binary64 nearest to 3725.4, which is what the literal denotes. *)
Definition t_3725_4 : float := S754_finite false 8192241236233421 (-41).

(** [p] can be written on [st]: it has a directory part, no regular
    file is at that directory or above it, and [p] is not a directory
    (it does not end with a slash and no file lies under it). *)
Definition can_write (st : fs) (p : path) : Prop :=
  dirname p <> [] /\
  (forall q, q ∈ dirname p :: ancestors (dirname p) -> st !! q = None) /\
  last p <> Some slash /\
  (forall k, is_Some (st !! k) -> starts_with (p ++ [slash]) k = false).

(** Texts UTF-8 can encode. *)
Definition texts_encodable (segments : list segment) : Prop :=
  Forall (fun seg : segment => encodable (snd seg) = true) segments.

(** The text of [x] can be encoded and, followed by a comma, is read
    back as [x]. CPython's conversion has this property for every
    float. *)
Definition reads_back (ft : Json.float_text) (x : float) : Prop :=
  encodable (Json.floatstr ft x) = true /\
  forall rest f,
    Json.scan_once ft (S f) (Json.floatstr ft x ++ 44%N :: rest)
    = Ok (JFloat x, 44%N :: rest).

Definition times_read_back (ft : Json.float_text) (segments : list segment)
    : Prop :=
  Forall (fun seg : segment =>
            reads_back ft (fst (fst seg)) /\ reads_back ft (snd (fst seg)))
    segments.

(** The document [save_json_segments] hands to [json.dump]. *)
Definition transcript_doc (segments : list segment) (lang : str) : json :=
  JObj [(lit "segments", JArr (map transcribe_only.segment_json segments));
        (lit "lang", JStr lang)].

(** What [save_txt_segments] writes: one line per segment. *)
Definition txt_text (segments : list segment) : str :=
  concat (map (fun seg : segment => snd seg ++ newline) segments).

(** NaN and the two infinities. *)
Definition not_finite (t : float) : bool :=
  match t with
  | S754_nan | S754_infinity _ => true
  | _ => false
  end.

(** A segment whose start or end cannot be written: the first of the two
    that the f-strings meet is NaN or infinite. *)
Definition unwritable (seg : segment) : Prop :=
  not_finite (fst (fst seg)) = true \/
  (is_time (fst (fst seg)) /\ not_finite (snd (fst seg)) = true).

(** A string that begins and ends with a character that is not white
    space; such a string is not empty. *)
Definition clean_end (o : option char) : Prop :=
  exists c, o = Some c /\ isspace c = false.

Definition trimmed (s : str) : Prop := clean_end (head s) /\ clean_end (last s).

Section ExternalTerms.
Import Sys.
Context {W : Type}.
Variable os : host W.

(** The calls of an extraction with MoviePy in which nothing fails. *)
Definition moviepy_calls (video_file output_audio : path) : list action :=
  [OpenClip video_file; Makedirs (dirname os output_audio);
   WriteAudio video_file output_audio; CloseClip video_file].

(** What an embedding with the argument list [command] does from [s]:
    nothing when an input is missing; otherwise the directory of the
    output is made and then, unless that raised, FFmpeg is run with
    [command], and its outcome is the outcome of the embedding. *)
Definition embeds (command : list str) (video subs output : path)
    (s : state W) (r : result unit) (s' : state W) : Prop :=
  let inputs :=
    path_exists os (machine s) video && path_exists os (machine s) subs in
  let d := dirname os output in
  exists new,
    actions s' = actions s ++ new /\
    (inputs = false ->
       r = Raise FileNotFoundError /\ new = [] /\ machine s' = machine s) /\
    (inputs = true ->
       (forall e w1, makedirs os d (machine s) = (Raise e, w1) ->
          r = Raise e /\ new = [Makedirs d] /\ machine s' = w1) /\
       (forall w1, makedirs os d (machine s) = (Ok tt, w1) ->
          new = [Makedirs d; Run command] /\
          subprocess_run os command w1 = (r, machine s'))).

End ExternalTerms.

(** The configuration [conf] with another [subtitle_position]. *)
Definition with_position (conf : embed_subtitles.ffmpeg_conf) (position : str)
    : embed_subtitles.ffmpeg_conf :=
  {| embed_subtitles.subtitle_position := position;
     embed_subtitles.font_name := embed_subtitles.font_name conf;
     embed_subtitles.font_size := embed_subtitles.font_size conf;
     embed_subtitles.primary_colour := embed_subtitles.primary_colour conf;
     embed_subtitles.outline_colour := embed_subtitles.outline_colour conf;
     embed_subtitles.border_style := embed_subtitles.border_style conf;
     embed_subtitles.outline := embed_subtitles.outline conf;
     embed_subtitles.shadow := embed_subtitles.shadow conf;
     embed_subtitles.preset := embed_subtitles.preset conf;
     embed_subtitles.crf := embed_subtitles.crf conf;
     embed_subtitles.pix_fmt := embed_subtitles.pix_fmt conf |}.

(* ===================================================================== *)
(** * Part II: properties                                                 *)
(* ===================================================================== *)

(** ** Lists and strings *)

Lemma slice_to_nonneg {A} (n : Z) (l : list A) :
  0 <= n -> slice_to n l = take (Z.to_nat n) l.
Proof.
  intros Hn. unfold slice_to.
  destruct (0 <=? n) eqn:E; [reflexivity | apply Z.leb_gt in E; lia].
Qed.

Lemma len_take_le {A} (n : Z) (l : list A) :
  0 <= n -> len (take (Z.to_nat n) l) <= n.
Proof. intros Hn. unfold len. rewrite length_take. lia. Qed.

Lemma bind_ext {S A B} (m : prog S A) (k1 k2 : A -> prog S B) (s : S) :
  (forall a s', k1 a s' = k2 a s') -> bind m k1 s = bind m k2 s.
Proof.
  intros H. unfold bind. destruct (m s) as [[e|a] s']; [reflexivity | apply H].
Qed.

(** ** Files *)

Lemma existsb_false {A} (f : A -> bool) (l : list A) :
  (forall x, x ∈ l -> f x = false) -> existsb f l = false.
Proof.
  intros H. induction l as [|a l IH]; [reflexivity|].
  simpl. rewrite (H a) by left. apply IH. intros x Hx. apply H. right. exact Hx.
Qed.

Lemma makedirs_ok (st : fs) (p : path) :
  can_write st p -> makedirs (dirname p) st = (Ok tt, st).
Proof.
  intros (Hd & Hq & _ & _). unfold makedirs.
  rewrite bool_decide_eq_false_2 by exact Hd.
  rewrite existsb_false.
  - unfold is_file. rewrite (Hq (dirname p)) by left. reflexivity.
  - intros q Hin. unfold is_file. rewrite (Hq q) by (right; exact Hin).
    reflexivity.
Qed.

Lemma open_w_ok (st : fs) (p : path) :
  can_write st p -> open_w p st = (Ok tt, <[p := Raw []]> st).
Proof.
  intros (_ & _ & Hl & Hk). unfold open_w, is_dir.
  assert (E1 : match last p with Some c => is_slash c | None => false end = false).
  { destruct (last p) as [c|] eqn:E; [|reflexivity].
    unfold is_slash. apply N.eqb_neq. intros ->. apply Hl. reflexivity. }
  rewrite E1, existsb_false; [reflexivity|].
  intros [k v] Hin. apply elem_of_map_to_list in Hin. simpl.
  apply Hk. exists v. exact Hin.
Qed.

Lemma can_write_empty (p : path) :
  dirname p <> [] -> last p <> Some slash -> can_write ∅ p.
Proof.
  intros Hd Hl. split_and!; [exact Hd | | exact Hl |].
  - intros q _. apply lookup_empty.
  - intros k [v Hv]. unfold fs, path, str, char in *.
    rewrite lookup_empty in Hv. discriminate.
Qed.

(** Writing a file that is neither at nor above the directory of [p2],
    nor under [p2], leaves [p2] writable. *)
Lemma can_write_insert (st : fs) (p1 p2 : path) (c : content) :
  can_write st p2 ->
  p1 ∉ dirname p2 :: ancestors (dirname p2) ->
  starts_with (p2 ++ [slash]) p1 = false ->
  can_write (<[p1 := c]> st) p2.
Proof.
  intros (Hd & Hq & Hl & Hk) Hn Hs. split_and!; [exact Hd | | exact Hl |].
  - intros q Hin. unfold fs, path, str, char in *.
    rewrite lookup_insert_ne; [apply Hq; exact Hin|].
    intros ->. apply Hn. exact Hin.
  - intros k Hsome. destruct (decide (k = p1)) as [->|Hne]; [exact Hs|].
    apply Hk. unfold fs, path, str, char in *.
    rewrite lookup_insert_ne in Hsome by congruence. exact Hsome.
Qed.

Lemma makedirs_no_directory (st : fs) (p : path) :
  dirname p = [] -> makedirs (dirname p) st = (Raise FileNotFoundError, st).
Proof. intros ->. reflexivity. Qed.

Lemma append_raw (p : path) (b acc : str) (st : fs) :
  st !! p = Some (Raw acc) -> append p b st = <[p := Raw (acc ++ b)]> st.
Proof. intros H. unfold append. rewrite H. reflexivity. Qed.

Lemma write_ok (p : path) (b acc : str) (st : fs) :
  encodable b = true -> st !! p = Some (Raw acc) ->
  write p b st = (Ok tt, <[p := Raw (acc ++ b)]> st).
Proof.
  intros He Hp. unfold write. rewrite He, (append_raw p b acc st Hp). reflexivity.
Qed.

Lemma encodable_app (a b : str) :
  encodable (a ++ b) = encodable a && encodable b.
Proof. apply forallb_app. Qed.

(** Characters below 128 are encoded as they are. *)
Lemma encodable_ascii (s : str) :
  Forall (fun c => (c < 128)%N) s -> encodable s = true.
Proof.
  induction 1 as [|c s Hc _ IH]; [reflexivity|].
  simpl. rewrite IH, andb_true_r. apply negb_true_iff, andb_false_iff.
  left. apply N.leb_gt. lia.
Qed.

(** ** The translation stage *)

Section TranslateFacts.
Import translate_only.
Variable cfg : config.
Variable eng : engines.

Lemma short_check_false text :
  passes_short_check text ->
  negb (truthy text) || (len (strip text) <? 3) = false.
Proof.
  intros [Hne Hlen]. destruct text as [|c text]; [congruence|].
  simpl. apply Z.ltb_ge. exact Hlen.
Qed.

Lemma short_check_true text :
  len (strip text) < 3 ->
  negb (truthy text) || (len (strip text) <? 3) = true.
Proof.
  intros Hlen. apply orb_true_iff. right. apply Z.ltb_lt. exact Hlen.
Qed.

(** The engine is called on the sentences in order until one fails. *)
Lemma translate_sentences_calls src tgt n sentences w r w' :
  translate_sentences eng src tgt n sentences w = (r, w') ->
  files w' = files w /\
  exists k, (k <= length sentences)%nat /\
    calls w' = calls w ++ map (mk_call src tgt) (take k sentences) /\
    (forall ts, r = inr ts -> k = length sentences /\ length ts = length sentences).
Proof.
  revert w r w'. induction sentences as [|s rest IH]; intros w r w' H.
  - inversion H; subst. split; [reflexivity|]. exists 0%nat. simpl.
    rewrite app_nil_r. split_and!; [lia | reflexivity |].
    intros ts Hts. inversion Hts. auto.
  - simpl in H. unfold bind at 1 in H. unfold translate_sentence at 1 in H.
    destruct (generate eng src tgt n s) as [e|t] eqn:G.
    + inversion H; subst. simpl. split; [reflexivity|].
      exists 1%nat. simpl. split_and!; [lia | rewrite ?take_0; reflexivity |].
      intros ts Hts. discriminate.
    + unfold bind at 1 in H.
      destruct (translate_sentences eng src tgt n rest _) as [r1 w1] eqn:R.
      apply IH in R. destruct R as [Hf [k [Hk [Hc Hr]]]]. simpl in Hf, Hc.
      destruct r1 as [e1|ts1]; inversion H; subst; clear H.
      * split; [exact Hf|]. exists (S k). simpl.
        split_and!; [lia | rewrite Hc, <- app_assoc; reflexivity |].
        intros ts Hts. discriminate.
      * destruct (Hr ts1 eq_refl) as [Hk1 Hl1].
        split; [exact Hf|]. exists (S k). simpl.
        split_and!; [lia | rewrite Hc, <- app_assoc; reflexivity |].
        intros ts Hts. inversion Hts; subst. simpl. lia.
Qed.

Lemma calls_from_refl src w : calls_from src w w.
Proof. exists []. rewrite app_nil_r. split; [reflexivity | constructor]. Qed.

Lemma calls_from_same src w w' : calls w' = calls w -> calls_from src w w'.
Proof. intros E. exists []. rewrite app_nil_r. split; [exact E | constructor]. Qed.

Lemma calls_from_trans src w1 w2 w3 :
  calls_from src w1 w2 -> calls_from src w2 w3 -> calls_from src w1 w3.
Proof.
  intros [n1 [E1 F1]] [n2 [E2 F2]]. exists (n1 ++ n2). split.
  - rewrite E2, E1, app_assoc. reflexivity.
  - apply Forall_app. split; assumption.
Qed.

Lemma translate_sentences_src src tgt n sentences w r w' :
  translate_sentences eng src tgt n sentences w = (r, w') ->
  calls_from src w w'.
Proof.
  intros H. apply translate_sentences_calls in H.
  destruct H as [_ [k [_ [Hc _]]]].
  exists (map (mk_call src tgt) (take k sentences)). split; [exact Hc|].
  apply Forall_forall. intros c Hin. apply list_elem_of_fmap in Hin.
  destruct Hin as [x [-> _]]. reflexivity.
Qed.

Lemma translate_segment_src text src tgt n w r w' :
  translate_segment cfg eng text src tgt n w = (r, w') ->
  calls_from src w w'.
Proof.
  unfold translate_segment.
  destruct (negb (truthy text) || (len (strip text) <? 3)).
  - intros H. inversion H; subst. apply calls_from_refl.
  - unfold bind at 1, lift.
    destruct (split_sentences cfg eng text) as [e|ss].
    + intros H. inversion H; subst. apply calls_from_refl.
    + unfold bind.
      destruct (translate_sentences eng src tgt n _ w) as [r1 w1] eqn:R.
      apply translate_sentences_src in R.
      destruct r1; intros H; inversion H; subst; exact R.
Qed.

Lemma translated_segments_src segs src tgt n w r w' :
  translated_segments cfg eng segs src tgt n w = (r, w') ->
  calls_from src w w'.
Proof.
  revert w r w'. induction segs as [|[[start end_] text] rest IH]; intros w r w'.
  - intros H. inversion H; subst. apply calls_from_refl.
  - simpl. unfold bind at 1.
    destruct (translate_segment cfg eng text src tgt n w) as [r1 w1] eqn:R1.
    apply translate_segment_src in R1.
    destruct r1 as [e|t].
    + intros H. inversion H; subst. exact R1.
    + unfold bind at 1.
      destruct (translated_segments cfg eng rest src tgt n w1) as [r2 w2] eqn:R2.
      apply IH in R2.
      destruct r2; intros H; inversion H; subst;
        eapply calls_from_trans; eassumption.
Qed.

Lemma on_files_calls {A} (f : fs -> result A * fs) w r w' :
  on_files f w = (r, w') -> calls w' = calls w.
Proof.
  unfold on_files. destruct (f (files w)) as [r1 st].
  intros H. inversion H; subst. reflexivity.
Qed.

Lemma translated_segments_timing segs src tgt n w out w' :
  translated_segments cfg eng segs src tgt n w = (Ok out, w') ->
  map fst out = map fst segs.
Proof.
  revert w out w'. induction segs as [|[[start end_] text] rest IH]; intros w out w'.
  - intros H. inversion H; subst. reflexivity.
  - simpl. unfold bind at 1.
    destruct (translate_segment cfg eng text src tgt n w) as [[e|t] w1];
      [intros H; discriminate|].
    unfold bind at 1.
    destruct (translated_segments cfg eng rest src tgt n w1) as [[e|o] w2] eqn:R2;
      [intros H; discriminate|].
    intros H. inversion H; subst. simpl. f_equal. eapply IH. exact R2.
Qed.

Lemma translate_sentences_total src tgt n sentences w :
  (forall a b c s, exists t, generate eng a b c s = Ok t) ->
  exists ts w', translate_sentences eng src tgt n sentences w = (Ok ts, w').
Proof.
  intros Hg. revert w. induction sentences as [|s rest IH]; intros w.
  - eexists _, _. reflexivity.
  - simpl. unfold bind at 1, translate_sentence at 1.
    destruct (Hg src tgt n s) as [t ->]. unfold Ok, bind at 1.
    edestruct IH as [ts [w' ->]]. eexists _, _. reflexivity.
Qed.

Lemma translate_segment_total text src tgt n w :
  (forall t, exists ss, split_sentences cfg eng t = Ok ss) ->
  (forall a b c s, exists t, generate eng a b c s = Ok t) ->
  exists t w', translate_segment cfg eng text src tgt n w = (Ok t, w').
Proof.
  intros Hs Hg. unfold translate_segment.
  destruct (negb (truthy text) || (len (strip text) <? 3)).
  - eexists _, _. reflexivity.
  - unfold bind at 1, lift. destruct (Hs text) as [ss ->]. unfold Ok, bind.
    edestruct (translate_sentences_total src tgt n (cap_sentences cfg text ss) w Hg)
      as [ts [w' ->]].
    eexists _, _. reflexivity.
Qed.

Lemma translated_segments_total segs src tgt n w :
  (forall t, exists ss, split_sentences cfg eng t = Ok ss) ->
  (forall a b c s, exists t, generate eng a b c s = Ok t) ->
  exists out w', translated_segments cfg eng segs src tgt n w = (Ok out, w').
Proof.
  intros Hs Hg. revert w.
  induction segs as [|[[start end_] text] rest IH]; intros w.
  - eexists _, _. reflexivity.
  - simpl. unfold bind at 1.
    destruct (translate_segment_total text src tgt n w Hs Hg) as [t [w1 ->]].
    unfold Ok, bind at 1. destruct (IH w1) as [o [w2 ->]].
    eexists _, _. reflexivity.
Qed.

End TranslateFacts.

(** *** C4: short texts are not translated *)

(** C4. A segment whose text, trimmed, is shorter than three characters
    (the empty text included) is translated to the empty string: the call
    returns [""], raises nothing, and leaves the state untouched, so the
    translation engine is not called. *)
Theorem short_text_is_skipped :
  forall (cfg : translate_only.config) (eng : translate_only.engines)
         (text src tgt : str) (max_length : Z) (w : translate_only.world),
    len (strip text) < 3 ->
    translate_only.translate_segment cfg eng text src tgt max_length w = (Ok [], w).
Proof.
  intros cfg eng text src tgt n w Hlen. unfold translate_only.translate_segment.
  rewrite short_check_true by exact Hlen. reflexivity.
Qed.

Lemma short_text_is_skipped_witness :
  translate_only.translate_segment Demo.cfg Demo.eng (lit " ok ")
    (lit "eng_Latn") (lit "tur_Latn") 512 Demo.w0 = (Ok [], Demo.w0).
Proof. apply short_text_is_skipped. vm_compute. reflexivity. Defined.

(** *** C2: truncation and capping of the sentences *)

(** C2. For a text that passes the short-text check, with limits that are
    not negative: the segment is translated from the sentences kept by
    [cap_sentences]; when the untrimmed text is longer than
    [max_line_length] these are the first [max_lines] of the sentences
    each cut to its first [max_line_length] characters, otherwise the
    first [max_lines] sentences uncut. So at most [max_lines] sentences are
    kept, each of at most [max_line_length] characters in the first case;
    with limits 40 and 2, a text of 50 characters and 3 sentences keeps at
    most 2 sentences of at most 40 characters. *)
Theorem truncation_policy :
  forall (cfg : translate_only.config) (eng : translate_only.engines)
         (text src tgt : str) (max_length : Z) (sentences : list str),
    0 <= translate_only.max_line_length cfg ->
    0 <= translate_only.max_lines cfg ->
    passes_short_check text ->
    translate_only.split_sentences cfg eng text = Ok sentences ->
    let mll := translate_only.max_line_length cfg in
    let ml := translate_only.max_lines cfg in
    let kept := translate_only.cap_sentences cfg text sentences in
    (forall w,
       translate_only.translate_segment cfg eng text src tgt max_length w =
       (ts <- translate_only.translate_sentences eng src tgt max_length kept ;;
        ret (join (lit " ") ts)) w) /\
    (mll < len text ->
       kept = take (Z.to_nat ml) (map (take (Z.to_nat mll)) sentences)) /\
    (len text <= mll -> kept = take (Z.to_nat ml) sentences) /\
    len kept <= ml /\
    (mll < len text -> Forall (fun s => len s <= mll) kept) /\
    (mll = 40 -> ml = 2 -> len text = 50 -> length sentences = 3%nat ->
       len kept <= 2 /\ Forall (fun s => len s <= 40) kept).
Proof.
  intros cfg eng text src tgt n sentences Hmll Hml Hpass Hsplit mll ml kept.
  assert (Hlong : mll < len text ->
            kept = take (Z.to_nat ml) (map (take (Z.to_nat mll)) sentences)).
  { intros Hlt. subst kept. unfold translate_only.cap_sentences.
    fold mll ml. apply Z.ltb_lt in Hlt. rewrite Hlt.
    rewrite slice_to_nonneg by exact Hml. f_equal.
    apply map_ext. intros s. apply slice_to_nonneg. exact Hmll. }
  assert (Hshort : len text <= mll -> kept = take (Z.to_nat ml) sentences).
  { intros Hle. subst kept. unfold translate_only.cap_sentences.
    fold mll ml. apply Z.ltb_ge in Hle. rewrite Hle.
    apply slice_to_nonneg. exact Hml. }
  assert (Hcount : len kept <= ml).
  { destruct (Z.lt_ge_cases mll (len text)) as [Hlt|Hge].
    - rewrite (Hlong Hlt). apply len_take_le. exact Hml.
    - rewrite (Hshort Hge). apply len_take_le. exact Hml. }
  assert (Hcut : mll < len text -> Forall (fun s => len s <= mll) kept).
  { intros Hlt. rewrite (Hlong Hlt). apply Forall_take.
    apply Forall_forall. intros s Hin. apply list_elem_of_fmap in Hin.
    destruct Hin as [s0 [-> _]]. apply len_take_le. exact Hmll. }
  split_and!; try assumption.
  - intros w. unfold translate_only.translate_segment.
    rewrite short_check_false by exact Hpass.
    unfold bind at 1, lift. rewrite Hsplit. reflexivity.
  - intros E1 E2 E3 _. split.
    + rewrite <- E2. exact Hcount.
    + rewrite <- E1. apply Hcut. lia.
Qed.

Lemma truncation_policy_witness :
  let kept := translate_only.cap_sentences Demo.cfg Demo.text50
                (Demo.toy_split [] Demo.text50) in
  len kept <= 2 /\ Forall (fun s => len s <= 40) kept.
Proof.
  assert (H1 : 0 <= translate_only.max_line_length Demo.cfg)
    by (vm_compute; discriminate).
  assert (H2 : 0 <= translate_only.max_lines Demo.cfg)
    by (vm_compute; discriminate).
  assert (H3 : passes_short_check Demo.text50)
    by (split; [discriminate | vm_compute; discriminate]).
  assert (H4 : translate_only.split_sentences Demo.cfg Demo.eng Demo.text50
               = Ok (Demo.toy_split [] Demo.text50)) by reflexivity.
  destruct (truncation_policy Demo.cfg Demo.eng Demo.text50
              (lit "eng_Latn") (lit "tur_Latn") 512 _ H1 H2 H3 H4)
    as (_ & _ & _ & _ & _ & H).
  apply H; reflexivity.
Defined.

(** *** C5: the loop of [translate] keeps order and timing *)

(** C5. The translated list has as many segments as the input, in the
    same order, and its i-th segment has the start and end of the i-th
    input segment: only the text differs. The list is produced whenever
    the splitter and the engine do not raise. *)
Theorem translation_keeps_timing :
  forall (cfg : translate_only.config) (eng : translate_only.engines)
         (segments : list segment) (src tgt : str) (max_length : Z)
         (w : translate_only.world),
    (forall out w',
        translate_only.translated_segments cfg eng segments src tgt max_length w
          = (Ok out, w') ->
        length out = length segments /\
        map fst out = map fst segments /\
        (forall i start end_ text,
            segments !! i = Some (start, end_, text) ->
            exists text', out !! i = Some (start, end_, text'))) /\
    ((forall t, exists ss, translate_only.split_sentences cfg eng t = Ok ss) ->
     (forall a b c s, exists t, translate_only.generate eng a b c s = Ok t) ->
     exists out w',
       translate_only.translated_segments cfg eng segments src tgt max_length w
         = (Ok out, w')).
Proof.
  intros cfg eng segments src tgt n w. split.
  - intros out w' H. apply translated_segments_timing in H.
    assert (Hlen : length out = length segments).
    { apply (f_equal length) in H. rewrite !length_map in H. exact H. }
    split_and!; [exact Hlen | exact H |].
    intros i start end_ text Hi.
    assert (Hm : map fst out !! i = Some (start, end_)).
    { rewrite H. apply (list_lookup_fmap_Some fst segments).
      exists (start, end_, text). split; [reflexivity | exact Hi]. }
    apply (list_lookup_fmap_Some_1 fst out) in Hm.
    destruct Hm as [[[s e] t] [E Ho]]. simpl in E. inversion E; subst.
    exists t. exact Ho.
  - intros Hs Hg. apply translated_segments_total; assumption.
Qed.

Lemma translation_keeps_timing_witness :
  let segments := [(of_int 0, of_int 2, Demo.text50);
                   (of_int 2, of_int 3, lit "ok");
                   (of_int 3, of_int 5, lit "See you soon.")] in
  exists out w',
    translate_only.translated_segments Demo.cfg Demo.eng segments
      (lit "eng_Latn") (lit "tur_Latn") 512 Demo.w0 = (Ok out, w') /\
    map fst out = map fst segments.
Proof.
  intros segments.
  destruct (translation_keeps_timing Demo.cfg Demo.eng segments
              (lit "eng_Latn") (lit "tur_Latn") 512 Demo.w0) as [Hframe Htotal].
  destruct Htotal as [out [w' E]].
  - intros t. eexists. reflexivity.
  - intros a b c s. eexists. reflexivity.
  - exists out, w'. split; [exact E|]. apply (Hframe out w' E).
Defined.

(** *** C6: the source language handed to the engine *)

(** C6, counterexample. The table of [Demo.cfg] has no entry for ["fr"];
    the stage does not fall back to ["eng_Latn"] but translates with
    ["fr"] as the source language. *)
Lemma unmapped_code_is_not_replaced :
  translate_only.language_code_map Demo.cfg !! lit "fr" = None /\
  translate_only.map_source_lang Demo.cfg (lit "fr") = lit "fr" /\
  translate_only.map_source_lang Demo.cfg (lit "fr") <> lit "eng_Latn" /\
  map translate_only.call_src
    (translate_only.calls
       (snd (translate_only.translate Demo.cfg Demo.eng
               [(of_int 0, of_int 2, lit "Bonjour tout le monde.")]
               (lit "fr") (lit "tur_Latn") (lit "out.srt") (lit "out.txt")
               Demo.w0)))
  = [lit "fr"].
Proof. vm_compute. split_and!; try reflexivity. discriminate. Qed.

(** C6, as the code has it. The source language is looked up in the
    table; a code without entry is passed through unchanged. The default
    ["eng_Latn"] is used only when the outcome of that lookup is the empty
    string: the table maps the code to [""], or the code has no entry and
    is itself empty. Every call [translate] makes to the engine uses that
    source language. *)
Theorem source_lang_mapping :
  forall (cfg : translate_only.config) (eng : translate_only.engines)
         (segments : list segment) (source_lang tgt : str)
         (output_srt output_txt : path) (w : translate_only.world),
    translate_only.map_source_lang cfg source_lang =
      match translate_only.language_code_map cfg !! source_lang with
      | Some [] => lit "eng_Latn"
      | Some mapped => mapped
      | None => match source_lang with
                | [] => lit "eng_Latn"
                | _ => source_lang
                end
      end /\
    calls_from (translate_only.map_source_lang cfg source_lang) w
      (snd (translate_only.translate cfg eng segments source_lang tgt
              output_srt output_txt w)).
Proof.
  intros cfg eng segments source_lang tgt osrt otxt w. split.
  - unfold translate_only.map_source_lang, or_else.
    destruct (translate_only.language_code_map cfg !! source_lang) as [[|c m]|];
      simpl; [reflexivity | reflexivity |].
    destruct source_lang; reflexivity.
  - unfold translate_only.translate.
    set (src := translate_only.map_source_lang cfg source_lang).
    unfold bind at 1, lift.
    destruct (translate_only.tokenizer_from_pretrained eng _) as [e|[]];
      [apply calls_from_refl|].
    unfold bind at 1.
    destruct (translate_only.model_from_pretrained eng _) as [e|[]];
      [apply calls_from_refl|].
    unfold bind at 1.
    destruct (translate_only.translated_segments cfg eng segments src tgt 512 w)
      as [r1 w1] eqn:R1.
    apply translated_segments_src in R1.
    destruct r1 as [e|out]; [exact R1|].
    unfold bind at 1.
    destruct (translate_only.on_files (save_srt_segments out osrt) w1)
      as [r2 w2] eqn:R2.
    apply on_files_calls in R2.
    destruct r2 as [e|[]].
    { simpl. eapply calls_from_trans; [exact R1|]. apply calls_from_same, R2. }
    unfold bind at 1.
    destruct (translate_only.on_files (save_txt_segments out otxt) w2)
      as [r3 w3] eqn:R3.
    apply on_files_calls in R3.
    assert (H13 : calls_from src w w3).
    { eapply calls_from_trans; [exact R1|]. apply calls_from_same. congruence. }
    destruct r3 as [e|[]]; exact H13.
Qed.

(** ** The text of JSON *)

Section JsonText.
Import Json.
Variable ft : float_text.

Lemma hex4_low (c : char) :
  (c < 32)%N ->
  hex4 48%N 48%N (hex_digit (c / 16)) (hex_digit (c mod 16)) = Some c.
Proof.
  intros Hc.
  assert (Htab : forallb (fun k : nat =>
            bool_decide (hex4 48%N 48%N (hex_digit (N.of_nat k / 16))
                           (hex_digit (N.of_nat k mod 16))
                         = Some (N.of_nat k))) (seq 0 32) = true)
    by (vm_compute; reflexivity).
  rewrite forallb_forall in Htab. specialize (Htab (N.to_nat c)).
  rewrite N2Nat.id in Htab. eapply bool_decide_eq_true_1. apply Htab.
  apply in_seq. lia.
Qed.

(** A string written by [encode_basestring] is read by [scanstring] as
    it was, whatever its characters. *)
Lemma scanstring_encode (s rest : str) :
  scanstring (concat (map escape_char s) ++ quote :: rest) = Ok (s, rest).
Proof.
  induction s as [|c s IH]; [reflexivity|].
  change (list_fmap _ _ escape_char (c :: s))
    with (escape_char c :: map escape_char s).
  simpl concat. rewrite <- app_assoc.
  set (tail := concat (map escape_char s) ++ quote :: rest) in *.
  unfold escape_char.
  destruct (N.eqb_spec c 34) as [->|H34];
    [simpl; rewrite IH; reflexivity|].
  destruct (N.eqb_spec c 92) as [->|H92];
    [simpl; rewrite IH; reflexivity|].
  destruct (N.eqb_spec c 8) as [->|H8];
    [simpl; rewrite IH; reflexivity|].
  destruct (N.eqb_spec c 12) as [->|H12];
    [simpl; rewrite IH; reflexivity|].
  destruct (N.eqb_spec c 10) as [->|H10];
    [simpl; rewrite IH; reflexivity|].
  destruct (N.eqb_spec c 13) as [->|H13];
    [simpl; rewrite IH; reflexivity|].
  destruct (N.eqb_spec c 9) as [->|H9];
    [simpl; rewrite IH; reflexivity|].
  destruct (N.ltb_spec c 32) as [Hlow|Hhigh].
  - cbn [app scanstring]. cbn [N.eqb Pos.eqb].
    rewrite (hex4_low c Hlow).
    replace ((55296 <=? c)%N) with false by (symmetry; apply N.leb_gt; lia).
    cbn [andb]. rewrite IH. reflexivity.
  - cbn [app scanstring].
    rewrite (proj2 (N.eqb_neq c 34) H34), (proj2 (N.eqb_neq c 92) H92).
    replace ((c <? 32)%N) with false by (symmetry; apply N.ltb_ge; lia).
    rewrite IH. reflexivity.
Qed.

Lemma skip_ws_indent (level : nat) (c : char) (rest : str) :
  is_ws c = false ->
  skip_ws (newline_indent level ++ c :: rest) = c :: rest.
Proof.
  intros Hc. unfold skip_ws, newline_indent. cbn [app drop_while is_ws].
  cbn [N.eqb Pos.eqb orb].
  induction (2 * level)%nat as [|n IH]; simpl.
  - rewrite Hc. reflexivity.
  - exact IH.
Qed.

Lemma skip_ws_head (c : char) (rest : str) :
  is_ws c = false -> skip_ws (c :: rest) = c :: rest.
Proof. intros Hc. unfold skip_ws. simpl. rewrite Hc. reflexivity. Qed.

Lemma scan_string (f : nat) (s rest : str) :
  scan_once ft (S f) (encode_basestring s ++ rest) = Ok (JStr s, rest).
Proof.
  unfold encode_basestring. cbn [app scan_once].
  change ((quote =? 34)%N) with true. cbv iota.
  rewrite <- app_assoc. cbn [app].
  rewrite scanstring_encode. reflexivity.
Qed.

Lemma reads_back_head (x : float) :
  reads_back ft x ->
  exists c t, floatstr ft x = c :: t /\ is_ws c = false /\ (c =? 93)%N = false.
Proof.
  intros [_ H]. specialize (H [] 0%nat).
  destruct (floatstr ft x) as [|c t]; [simpl in H; discriminate|].
  exists c, t. split; [reflexivity|].
  destruct (N.eqb_spec c 32) as [->|H32]; [simpl in H; discriminate|].
  destruct (N.eqb_spec c 9) as [->|H9]; [simpl in H; discriminate|].
  destruct (N.eqb_spec c 10) as [->|H10]; [simpl in H; discriminate|].
  destruct (N.eqb_spec c 13) as [->|H13]; [simpl in H; discriminate|].
  destruct (N.eqb_spec c 93) as [->|H93]; [simpl in H; discriminate|].
  unfold is_ws.
  rewrite (proj2 (N.eqb_neq c 32) H32), (proj2 (N.eqb_neq c 9) H9),
          (proj2 (N.eqb_neq c 10) H10), (proj2 (N.eqb_neq c 13) H13).
  split; reflexivity.
Qed.

Lemma skip_ws_indent_float (level : nat) (x : float) (rest : str) :
  reads_back ft x ->
  skip_ws (newline_indent level ++ floatstr ft x ++ rest)
  = floatstr ft x ++ rest.
Proof.
  intros H. destruct (reads_back_head x H) as (c & t & E & Hws & _).
  rewrite E. cbn [app]. apply skip_ws_indent. exact Hws.
Qed.

Lemma array_items_more (scan : str -> result (json * str)) (n : nat)
    (s s1 s2 : str) (v : json) :
  scan s = Ok (v, s1) -> skip_ws s1 = 44%N :: s2 ->
  array_items scan (S n) s
  = rbind (array_items scan n (skip_ws s2))
      (fun rs => Ok (v :: fst rs, snd rs)).
Proof. intros H1 H2. cbn [array_items]. rewrite H1. simpl. rewrite H2. reflexivity. Qed.

Lemma array_items_last (scan : str -> result (json * str)) (n : nat)
    (s s1 s2 : str) (v : json) :
  scan s = Ok (v, s1) -> skip_ws s1 = 93%N :: s2 ->
  array_items scan (S n) s = Ok ([v], s2).
Proof. intros H1 H2. cbn [array_items]. rewrite H1. simpl. rewrite H2. reflexivity. Qed.

Lemma parse_array_items (scan : str -> result (json * str)) (n : nat)
    (s s1 : str) (c : char) :
  skip_ws s = c :: s1 -> (c =? 93)%N = false ->
  parse_array scan n s
  = rbind (array_items scan n (c :: s1)) (fun r => Ok (JArr (fst r), snd r)).
Proof. intros H1 H2. unfold parse_array. rewrite H1, H2. reflexivity. Qed.

Lemma scan_once_array (f : nat) (rest : str) :
  scan_once ft (S f) (91%N :: rest) = parse_array (scan_once ft f) f rest.
Proof. reflexivity. Qed.

Lemma scan_once_object (f : nat) (rest : str) :
  scan_once ft (S f) (123%N :: rest) = parse_object (scan_once ft f) f rest.
Proof. reflexivity. Qed.

Lemma parse_object_members (scan : str -> result (json * str)) (n : nat)
    (s s1 : str) (c : char) :
  skip_ws s = c :: s1 -> (c =? 125)%N = false ->
  parse_object scan n s
  = rbind (object_members scan n (c :: s1))
      (fun r => Ok (JObj (fst r), snd r)).
Proof. intros H1 H2. unfold parse_object. rewrite H1, H2. reflexivity. Qed.

(** The text of a segment is read as the segment. *)
Lemma scan_segment (level f : nat) (seg : segment) (rest : str) :
  reads_back ft (fst (fst seg)) -> reads_back ft (snd (fst seg)) ->
  scan_once ft (S (S (S (S (S f)))))
    (concat (iterencode ft level (transcribe_only.segment_json seg)) ++ rest)
  = Ok (transcribe_only.segment_json seg, rest).
Proof.
  destruct seg as [[a b] t]. cbn [fst snd]. intros Ha Hb.
  cbn [transcribe_only.segment_json iterencode items_chunks scalar_text
       concat app].
  rewrite !app_nil_r. rewrite <- !app_assoc.
  replace (lit "[") with [91%N] by reflexivity.
  replace (lit ",") with [44%N] by reflexivity.
  replace (lit "]") with [93%N] by reflexivity.
  cbn [app]. rewrite scan_once_array.
  destruct (reads_back_head a Ha) as (c & ta & Ea & Hws & H93).
  erewrite parse_array_items;
    [| rewrite skip_ws_indent_float by exact Ha; rewrite Ea; reflexivity
     | exact H93].
  rewrite app_comm_cons, <- Ea.
  erewrite array_items_more;
    [| apply (proj2 Ha) | apply skip_ws_head; reflexivity].
  rewrite skip_ws_indent_float by exact Hb.
  erewrite array_items_more;
    [| apply (proj2 Hb) | apply skip_ws_head; reflexivity].
  unfold encode_basestring at 1. cbn [app].
  rewrite skip_ws_indent by reflexivity.
  erewrite array_items_last;
    [reflexivity
    | apply (scan_string _ t)
    | apply skip_ws_indent; reflexivity].
Qed.

(** The items of the list of segments, from the first character of a
    segment on. *)
Lemma array_items_segments (F : nat) (more : list segment) :
  forall (seg : segment) (n : nat) (rest : str),
    (length (seg :: more) <= n)%nat ->
    times_read_back ft (seg :: more) ->
    array_items (scan_once ft (S (S (S (S (S F)))))) n
      (concat (iterencode ft 2 (transcribe_only.segment_json seg))
       ++ concat (items_chunks ft (iterencode ft 2) (newline_indent 2) false
                    (map transcribe_only.segment_json more))
       ++ newline_indent 1 ++ 93%N :: rest)
    = Ok (map transcribe_only.segment_json (seg :: more), rest).
Proof.
  induction more as [|seg2 more IH]; intros seg n rest Hn Hrb;
    inversion Hrb as [|? ? [Ha Hb] Hmore]; subst;
    (destruct n as [|n]; [simpl in Hn; lia|]).
  - cbn [map list_fmap items_chunks concat app].
    erewrite array_items_last;
      [reflexivity
      | apply (scan_segment 2 F seg _ Ha Hb)
      | apply skip_ws_indent; reflexivity].
  - change (map transcribe_only.segment_json (seg2 :: more))
      with (transcribe_only.segment_json seg2
            :: map transcribe_only.segment_json more).
    cbn [items_chunks].
    replace (scalar_text ft (transcribe_only.segment_json seg2)) with (@None str)
      by (destruct seg2 as [[? ?] ?]; reflexivity).
    cbn [concat app]. rewrite !concat_app, <- !app_assoc.
    replace (lit ",") with [44%N] by reflexivity. cbn [app].
    erewrite array_items_more;
      [| apply (scan_segment 2 F seg _ Ha Hb)
       | apply skip_ws_head; reflexivity].
    assert (Hhead : exists t2,
              concat (iterencode ft 2 (transcribe_only.segment_json seg2))
              = 91%N :: t2).
    { destruct seg2 as [[a2 b2] t2]. eexists. reflexivity. }
    destruct Hhead as [t2 Ht2].
    assert (Hskip : forall tail,
              skip_ws (newline_indent 2
                       ++ concat (iterencode ft 2
                                    (transcribe_only.segment_json seg2))
                       ++ tail)
              = concat (iterencode ft 2 (transcribe_only.segment_json seg2))
                ++ tail).
    { intros tail. rewrite Ht2. cbn [app]. apply skip_ws_indent. reflexivity. }
    rewrite Hskip.
    rewrite (IH seg2 n rest); [reflexivity | simpl in *; lia | exact Hmore].
Qed.

(** The text of the list of segments is read as the list. *)
Lemma scan_segments (G : nat) (segments : list segment) (rest : str) :
  (5 <= G)%nat -> (length segments <= G)%nat ->
  times_read_back ft segments ->
  scan_once ft (S G)
    (concat (iterencode ft 1
               (JArr (map transcribe_only.segment_json segments))) ++ rest)
  = Ok (JArr (map transcribe_only.segment_json segments), rest).
Proof.
  intros HG Hlen Hrb.
  destruct segments as [|seg more]; [reflexivity|].
  change (map transcribe_only.segment_json (seg :: more))
    with (transcribe_only.segment_json seg
          :: map transcribe_only.segment_json more).
  cbn [iterencode items_chunks].
  replace (scalar_text ft (transcribe_only.segment_json seg)) with (@None str)
    by (destruct seg as [[? ?] ?]; reflexivity).
  rewrite !concat_app. cbn [concat app]. rewrite <- !app_assoc.
  replace (lit "[") with [91%N] by reflexivity.
  replace (lit "]") with [93%N] by reflexivity.
  cbn [app]. rewrite scan_once_array.
  assert (Hhead : exists t1,
            concat (iterencode ft 2 (transcribe_only.segment_json seg))
            = 91%N :: t1).
  { destruct seg as [[a1 b1] t1]. eexists. reflexivity. }
  destruct Hhead as [t1 Ht1].
  erewrite parse_array_items;
    [| rewrite Ht1; cbn [app]; apply skip_ws_indent; reflexivity
     | reflexivity].
  destruct G as [|[|[|[|[|F]]]]]; try lia.
  pose proof (array_items_segments F more seg _ rest Hlen Hrb) as Hitems.
  rewrite Ht1 in Hitems.
  match goal with
  | |- rbind ?x _ = _ =>
      replace x
        with (@inr exn _ (map transcribe_only.segment_json (seg :: more), rest))
        by (symmetry; exact Hitems)
  end.
  reflexivity.
Qed.

Lemma object_members_more (scan : str -> result (json * str)) (n : nat)
    (s0 sk s1 s2 s3 : str) (k : str) (v : json) :
  scanstring s0 = Ok (k, sk) -> skip_ws sk = 58%N :: s1 ->
  scan (skip_ws s1) = Ok (v, s2) -> skip_ws s2 = 44%N :: s3 ->
  object_members scan (S n) (34%N :: s0)
  = rbind (object_members scan n (skip_ws s3))
      (fun rs => Ok ((k, v) :: fst rs, snd rs)).
Proof.
  intros H1 H2 H3 H4. cbn [object_members]. change ((34 =? 34)%N) with true.
  cbv iota. rewrite H1. simpl. rewrite H2. simpl. rewrite H3. simpl.
  rewrite H4. reflexivity.
Qed.

Lemma object_members_last (scan : str -> result (json * str)) (n : nat)
    (s0 sk s1 s2 s3 : str) (k : str) (v : json) :
  scanstring s0 = Ok (k, sk) -> skip_ws sk = 58%N :: s1 ->
  scan (skip_ws s1) = Ok (v, s2) -> skip_ws s2 = 125%N :: s3 ->
  object_members scan (S n) (34%N :: s0) = Ok ([(k, v)], s3).
Proof.
  intros H1 H2 H3 H4. cbn [object_members]. change ((34 =? 34)%N) with true.
  cbv iota. rewrite H1. simpl. rewrite H2. simpl. rewrite H3. simpl.
  rewrite H4. reflexivity.
Qed.

Lemma length_items_chunks (enc : json -> list str) (nl : str) (first : bool)
    (l : list json) :
  (length l <= length (concat (items_chunks ft enc nl first l)))%nat.
Proof.
  revert first. induction l as [|v l IH]; intros first; [simpl; lia|].
  cbn [items_chunks]. rewrite concat_app, length_app.
  specialize (IH false).
  assert (1 <= length (concat
            match scalar_text ft v with
            | Some t => [((if first then lit "[" else lit ",") ++ nl) ++ t]
            | None => ((if first then lit "[" else lit ",") ++ nl) :: enc v
            end))%nat.
  { destruct (scalar_text ft v); cbn [concat]; rewrite !length_app;
      destruct first; simpl; lia. }
  simpl length at 1. lia.
Qed.

Lemma iterencode_array_head (level : nat) (l : list json) :
  exists t, concat (iterencode ft level (JArr l)) = 91%N :: t.
Proof.
  destruct l as [|v l]; [eexists; reflexivity|].
  cbn [iterencode items_chunks].
  destruct (scalar_text ft v); eexists; reflexivity.
Qed.

(** The text [json.dump] writes for a transcript is read by [json.load]
    as the transcript. *)
Lemma loads_dumps_transcript (segments : list segment) (lang : str) :
  times_read_back ft segments ->
  loads ft (dumps ft (transcript_doc segments lang))
  = Ok (transcript_doc segments lang).
Proof.
  intros Hrb. unfold loads, dumps, transcript_doc.
  set (arr := JArr (map transcribe_only.segment_json segments)).
  assert (Hshape :
    concat (iterencode ft 0 (JObj [(lit "segments", arr); (lit "lang", JStr lang)]))
    = 123%N :: newline_indent 1
      ++ 34%N :: concat (map escape_char (lit "segments"))
      ++ 34%N :: 58%N :: 32%N :: concat (iterencode ft 1 arr)
      ++ 44%N :: newline_indent 1
      ++ 34%N :: concat (map escape_char (lit "lang"))
      ++ 34%N :: 58%N :: 32%N :: encode_basestring lang
      ++ newline_indent 0 ++ [125%N]).
  { cbn [iterencode members_chunks scalar_text].
    replace (scalar_text ft arr) with (@None str) by reflexivity.
    cbn [app concat]. rewrite !concat_app. cbn [concat app].
    rewrite !app_nil_r. unfold encode_basestring at 1 2.
    rewrite <- !app_assoc. reflexivity. }
  rewrite Hshape. clear Hshape.
  set (tail1 := 58%N :: 32%N :: concat (iterencode ft 1 arr) ++ _).
  set (text := 123%N :: _).
  assert (Hlen : (length segments + 8 <= @length char text)%nat).
  { subst text tail1. cbn [length]. rewrite !length_app. cbn [length].
    rewrite !length_app.
    assert (length segments <= length (concat (iterencode ft 1 arr)))%nat.
    { subst arr. destruct segments as [|seg more]; [simpl; lia|].
      change (map transcribe_only.segment_json (seg :: more))
        with (transcribe_only.segment_json seg
              :: map transcribe_only.segment_json more).
      cbn [iterencode]. rewrite concat_app, length_app.
      pose proof (length_items_chunks (iterencode ft 2) (newline_indent 2) true
                    (transcribe_only.segment_json seg
                     :: map transcribe_only.segment_json more)) as Hl.
      simpl length in Hl at 1. rewrite length_map in Hl. simpl length at 1. lia. }
    repeat (rewrite length_app || cbn [length]). lia. }
  change (match text with
          | 65279%N :: _ => Raise JSONDecodeError
          | _ => rbind (scan_once ft (S (length text)) (skip_ws text))
                   (fun r => match skip_ws (snd r) with
                             | [] => Ok (fst r)
                             | _ :: _ => Raise JSONDecodeError
                             end)
          end)
    with (rbind (scan_once ft (S (length text)) (skip_ws text))
            (fun r => match skip_ws (snd r) with
                      | [] => Ok (fst r)
                      | _ :: _ => Raise JSONDecodeError
                      end)).
  replace (skip_ws text) with text by reflexivity.
  match goal with
  | |- context [scan_once ft (S ?n)] =>
      change n with (@length char text);
      destruct (@length char text) as [|[|L]]; try lia
  end.
  subst text. rewrite scan_once_object.
  erewrite parse_object_members;
    [| apply skip_ws_indent; reflexivity | reflexivity].
  assert (Hsk : forall x,
            skip_ws (32%N :: concat (iterencode ft 1 arr) ++ x)
            = concat (iterencode ft 1 arr) ++ x).
  { intros x. subst arr.
    destruct (iterencode_array_head 1
                (map transcribe_only.segment_json segments)) as [t Ht].
    rewrite Ht. reflexivity. }
  erewrite object_members_more;
    [| apply scanstring_encode
     | subst tail1; apply skip_ws_head; reflexivity
     | rewrite Hsk;
       apply (scan_segments (S L) segments); [lia | lia | exact Hrb]
     | apply skip_ws_head; reflexivity].
  rewrite skip_ws_indent by reflexivity.
  destruct L as [|L']; [lia|].
  erewrite object_members_last;
    [| apply scanstring_encode
     | apply skip_ws_head; reflexivity
     | cbn [skip_ws drop_while is_ws N.eqb Pos.eqb orb]; apply scan_string
     | apply skip_ws_indent; reflexivity].
  reflexivity.
Qed.

(** *** What [json.dump] leaves in the file *)

Lemma write_chunks_value (chunks : list str) (p : path) :
  Forall (fun c => encodable c = true) chunks ->
  forall (acc : str) (st : fs),
    st !! p = Some (Raw acc) ->
    write_chunks chunks p st
    = (Ok tt, <[p := Raw (acc ++ concat chunks)]> st).
Proof.
  induction chunks as [|c rest IH]; intros He acc st Hst.
  - simpl. rewrite app_nil_r. unfold fs, path, str, char in *.
    rewrite insert_id by exact Hst. reflexivity.
  - inversion He as [|? ? Hc Hrest]; subst.
    cbn [write_chunks]. unfold bind.
    rewrite (write_ok p c acc st Hc Hst). unfold Ok. cbv beta iota.
    rewrite (IH Hrest (acc ++ c)).
    + unfold fs, path, str, char in *.
      rewrite insert_insert_eq. cbn [concat]. rewrite app_assoc. reflexivity.
    + unfold fs, path, str, char in *. apply lookup_insert_eq.
Qed.

Lemma hex_digit_ascii (n : N) : (n < 16)%N -> (hex_digit n < 128)%N.
Proof. intros H. unfold hex_digit. destruct (n <? 10)%N; lia. Qed.

Lemma escape_char_encodable (c : char) :
  encodable [c] = true -> encodable (escape_char c) = true.
Proof.
  intros Hc. unfold escape_char.
  repeat (match goal with
          | |- encodable (if ?b then _ else _) = true =>
              destruct b eqn:?; [try reflexivity|]
          end); [|exact Hc].
  match goal with H : (c <? 32)%N = true |- _ => apply N.ltb_lt in H end.
  apply encodable_ascii. repeat constructor; try lia.
  - apply hex_digit_ascii. apply N.Div0.div_lt_upper_bound. lia.
  - apply hex_digit_ascii. apply N.mod_lt. lia.
Qed.

Lemma encode_basestring_encodable (s : str) :
  encodable s = true -> encodable (encode_basestring s) = true.
Proof.
  intros Hs. unfold encode_basestring.
  change (quote :: concat (map escape_char s) ++ [quote])
    with ([quote] ++ concat (map escape_char s) ++ [quote]).
  rewrite !encodable_app.
  assert (H : encodable (concat (map escape_char s)) = true).
  { induction s as [|c s IH]; [reflexivity|].
    change (c :: s) with ([c] ++ s) in Hs. rewrite encodable_app in Hs.
    apply andb_true_iff in Hs as [Hc Hs'].
    cbn [map list_fmap concat]. rewrite encodable_app.
    rewrite (escape_char_encodable c Hc), (IH Hs'). reflexivity. }
  rewrite H. reflexivity.
Qed.

Lemma newline_indent_encodable (level : nat) :
  encodable (newline_indent level) = true.
Proof.
  unfold newline_indent. generalize (2 * level)%nat. intros n.
  change (10%N :: repeat 32%N n) with ([10%N] ++ repeat 32%N n).
  rewrite encodable_app. induction n as [|n IH]; [reflexivity | exact IH].
Qed.

Lemma segment_chunks_encodable (level : nat) (seg : segment) :
  reads_back ft (fst (fst seg)) -> reads_back ft (snd (fst seg)) ->
  encodable (snd seg) = true ->
  Forall (fun c => encodable c = true)
    (iterencode ft level (transcribe_only.segment_json seg)).
Proof.
  destruct seg as [[a b] t]. intros [Ha _] [Hb _] Ht. simpl in Ha, Hb, Ht.
  cbn [transcribe_only.segment_json iterencode items_chunks scalar_text
       app fst snd].
  repeat constructor;
    rewrite ?encodable_app, ?newline_indent_encodable, ?Ha, ?Hb,
      ?(encode_basestring_encodable t Ht); reflexivity.
Qed.

Lemma segments_chunks_encodable (segments : list segment) (first : bool) :
  times_read_back ft segments -> texts_encodable segments ->
  Forall (fun c => encodable c = true)
    (items_chunks ft (iterencode ft 2) (newline_indent 2) first
       (map transcribe_only.segment_json segments)).
Proof.
  revert first. induction segments as [|seg more IH]; intros first Hrb He;
    [constructor|].
  inversion Hrb as [|? ? [Ha Hb] Hmore]; subst.
  inversion He as [|? ? Hseg Hrest]; subst.
  change (map transcribe_only.segment_json (seg :: more))
    with (transcribe_only.segment_json seg
          :: map transcribe_only.segment_json more).
  cbn [items_chunks].
  replace (scalar_text ft (transcribe_only.segment_json seg)) with (@None str)
    by (destruct seg as [[? ?] ?]; reflexivity).
  apply Forall_app. split; [|apply IH; assumption].
  constructor; [|apply segment_chunks_encodable; assumption].
  rewrite encodable_app, newline_indent_encodable. destruct first; reflexivity.
Qed.

Lemma transcript_chunks_encodable (segments : list segment) (lang : str) :
  times_read_back ft segments -> texts_encodable segments ->
  encodable lang = true ->
  Forall (fun c => encodable c = true)
    (iterencode ft 0 (transcript_doc segments lang)).
Proof.
  intros Hrb He Hl. unfold transcript_doc.
  cbn [iterencode members_chunks].
  replace (scalar_text ft (JArr (map transcribe_only.segment_json segments)))
    with (@None str) by reflexivity.
  cbn [scalar_text app].
  repeat (apply Forall_cons; split;
          [first [reflexivity | apply newline_indent_encodable]|]).
  rewrite !Forall_app. split_and!.
  - destruct segments as [|seg more]; [repeat constructor|].
    change (map transcribe_only.segment_json (seg :: more))
      with (transcribe_only.segment_json seg
            :: map transcribe_only.segment_json more).
    apply Forall_app. split.
    + apply (segments_chunks_encodable (seg :: more) true Hrb He).
    + repeat constructor.
  - repeat (apply Forall_cons; split;
            [first [ reflexivity
                   | apply encode_basestring_encodable; exact Hl
                   | rewrite encodable_app, newline_indent_encodable;
                     reflexivity ]|]).
    constructor.
  - repeat constructor.
Qed.

(** What [save_json_segments] leaves: a file that is read as the
    transcript. *)
Lemma save_json_segments_value (segments : list segment) (lang : str)
    (output_json : path) (st : fs) :
  times_read_back ft segments -> texts_encodable segments ->
  encodable lang = true -> can_write st output_json ->
  transcribe_only.save_json_segments ft segments lang output_json st
  = (Ok tt, <[output_json := Doc (transcript_doc segments lang)]> st).
Proof.
  intros Hrb He Hl Hw. unfold transcribe_only.save_json_segments, bind.
  rewrite (makedirs_ok st output_json Hw). unfold Ok. cbv beta iota.
  unfold dump, bind.
  rewrite (open_w_ok st output_json Hw). unfold Ok. cbv beta iota.
  fold (transcript_doc segments lang).
  rewrite (write_chunks_value _ output_json
             (transcript_chunks_encodable segments lang Hrb He Hl) []).
  - unfold close_json. unfold fs, path, str, char in *.
    rewrite lookup_insert_eq. cbn [app].
    pose proof (loads_dumps_transcript segments lang Hrb) as Hload.
    unfold dumps in Hload. unfold fs, path, str, char in *.
    rewrite Hload. unfold Ok. rewrite !insert_insert_eq. reflexivity.
  - unfold fs, path, str, char in *. apply lookup_insert_eq.
Qed.

End JsonText.

(** ** The JSON envelope *)

Lemma as_segments_segment_json segments :
  as_segments (map transcribe_only.segment_json segments) = Some segments.
Proof.
  induction segments as [|[[start end_] text] rest IH]; [reflexivity|].
  simpl. change (list_fmap _ _ transcribe_only.segment_json rest)
    with (map transcribe_only.segment_json rest).
  rewrite IH. reflexivity.
Qed.






(** C8, counterexample. A document whose two keys hold numbers, neither a
    list of triples nor a string, is loaded without any error. *)
Lemma wrong_types_are_loaded :
  let st : fs :=
    {[ lit "subs.json" :=
         Doc (JObj [(lit "segments", JInt 5); (lit "lang", JInt 7)]) ]} in
  translate_only.load_segments (lit "subs.json") st = Ok (JInt 5, JInt 7) /\
  as_transcript (JInt 5, JInt 7) = None.
Proof. vm_compute. split; reflexivity. Qed.

(** C8, as the code has it. [load_segments] raises [FileNotFoundError]
    when the file is missing, [JSONDecodeError] when it is not JSON,
    [TypeError] when the document is not an object and [KeyError] when the
    object lacks ["segments"] or ["lang"]. When both keys are present it
    returns their two values as they are, of whatever type. *)
Theorem load_segments_outcomes :
  forall (json_file : path) (st : fs),
    translate_only.load_segments json_file st =
      match st !! json_file with
      | None => Raise FileNotFoundError
      | Some (Raw _) => Raise JSONDecodeError
      | Some (Doc (JObj members)) =>
          match translate_only.dict_get members (lit "segments"),
                translate_only.dict_get members (lit "lang") with
          | Some segments, Some lang => Ok (segments, lang)
          | _, _ => Raise KeyError
          end
      | Some (Doc _) => Raise TypeError
      end.
Proof.
  intros json_file st.
  unfold translate_only.load_segments, translate_only.json_load.
  destruct (st !! json_file) as [[text|d]|]; try reflexivity.
  destruct d; try reflexivity.
  simpl.
  destruct (translate_only.dict_get members (lit "segments")); [|reflexivity].
  simpl. destruct (translate_only.dict_get members (lit "lang")); reflexivity.
Qed.

(** ** The orchestrator *)

Section PipelineFacts.
Import pipeline.
Context {W : Type}.
Variable cfg : config.
Variable os : host W.

Local Abbreviation quiet := (quiet (W:=W)).
Local Abbreviation run_stage := (run_stage cfg os).
Local Abbreviation final_mode := (final_mode cfg).

Lemma started_app l1 l2 : started (l1 ++ l2) = started l1 ++ started l2.
Proof.
  induction l1 as [|ev l1 IH]; [reflexivity|].
  destruct ev; simpl; rewrite IH; reflexivity.
Qed.

Lemma quiet_ret {A} (a : A) : quiet (ret a).
Proof. intros s r s' H. inversion H; subst. reflexivity. Qed.

Lemma quiet_raise {A} e : quiet (raise (A:=A) e).
Proof. intros s r s' H. inversion H; subst. reflexivity. Qed.

Lemma quiet_on_machine {A} (m : prog W A) : quiet (on_machine m).
Proof.
  intros s r s'. unfold on_machine. destruct (m (machine s)) as [r1 w].
  intros H. inversion H; subst. reflexivity.
Qed.

Lemma quiet_observe {A} (f : W -> A) : quiet (observe f).
Proof. intros s r s' H. inversion H; subst. reflexivity. Qed.

Lemma quiet_logging ev :
  (forall st, ev <> Started st) -> quiet (logging ev).
Proof.
  intros Hev s r s' H. inversion H; subst. simpl.
  rewrite started_app. destruct ev; simpl; try apply app_nil_r.
  exfalso. eapply Hev. reflexivity.
Qed.

Lemma quiet_bind {A B} (m : P A) (k : A -> P B) :
  quiet m -> (forall a, quiet (k a)) -> quiet (bind m k).
Proof.
  intros Hm Hk s r s'. unfold bind.
  destruct (m s) as [[e|a] s1] eqn:E.
  - intros H. inversion H; subst. eapply Hm. exact E.
  - intros H. apply Hk in H. rewrite H. eapply Hm. exact E.
Qed.

Lemma quiet_select video_arg : quiet (select_video_file cfg os video_arg).
Proof.
  unfold select_video_file. destruct (given video_arg).
  - apply quiet_bind; [apply quiet_observe|]. intros vp.
    apply quiet_bind; [apply quiet_observe|]. intros ex.
    destruct (negb ex); [apply quiet_raise | apply quiet_ret].
  - apply quiet_bind; [apply quiet_observe|]. intros [|first others].
    + apply quiet_raise.
    + apply quiet_bind; [|intros; apply quiet_observe].
      destruct others; [apply quiet_ret|].
      apply quiet_logging. discriminate.
Qed.

(** What a step wrapper does around a body that enters no stage. *)
Lemma step_shape st (body : P (W:=W) unit) s r s' :
  quiet body ->
  (logging (Started st) ;;;
   reraising body (fun e => record (Failed st e))) s = (r, s') ->
  started (log s') = started (log s) ++ [st] /\
  (forall e, r = inl e -> exists l, log s' = l ++ [Failed st e]).
Proof.
  intros Hq. unfold bind at 1, logging at 1. unfold reraising.
  destruct (body _) as [[e|[]] s1] eqn:E; intros H; inversion H; subst.
  - apply Hq in E. simpl in *. rewrite started_app, E, started_app.
    simpl. rewrite app_nil_r. split; [reflexivity|].
    intros e0 He0. inversion He0; subst. eexists. reflexivity.
  - apply Hq in E. simpl in *. rewrite E, started_app. simpl.
    split; [reflexivity|]. intros e0 He0. discriminate.
Qed.

Lemma run_stage_shape video_file mode st s r s' :
  run_stage video_file mode st s = (r, s') ->
  started (log s') = started (log s) ++ [st] /\
  (forall e, r = inl e -> exists l, log s' = l ++ [Failed st e]).
Proof.
  destruct st; simpl; apply step_shape.
  - apply quiet_bind; [apply quiet_on_machine|].
    intros _. apply quiet_logging. discriminate.
  - apply quiet_bind; [apply quiet_on_machine|].
    intros _. apply quiet_logging. discriminate.
  - apply quiet_bind; [apply quiet_on_machine|].
    intros [segments source_lang].
    apply quiet_bind; [apply quiet_on_machine|].
    intros _. apply quiet_logging. discriminate.
  - destruct (decide (mode = lit "soft")).
    + apply quiet_bind; [apply quiet_on_machine|].
      intros _. apply quiet_logging. discriminate.
    + destruct (decide (mode = lit "burned")).
      * apply quiet_bind; [apply quiet_on_machine|].
        intros _. apply quiet_logging. discriminate.
      * apply quiet_raise.
Qed.

(** The trace of a run of [todo]: the stages entered are a prefix of
    [todo], all of it when the run returns, and when it raises the last
    stage entered is the one that failed with that exception. *)
Lemma run_in_order_trace video_file mode todo final s r s' :
  quiet final ->
  (forall s1 r1 s2, final s1 = (r1, s2) -> r1 = Ok tt) ->
  run_in_order (run_stage video_file mode) todo final s = (r, s') ->
  exists k, (k <= length todo)%nat /\
    started (log s') = started (log s) ++ take k todo /\
    match r with
    | inr _ => k = length todo
    | inl e =>
        exists st l, todo !! (k - 1)%nat = Some st /\ (0 < k)%nat /\
                     log s' = l ++ [Failed st e]
    end.
Proof.
  intros Hfinal Hok. revert s. induction todo as [|st rest IH]; intros s; simpl.
  - intros H. exists 0%nat. pose proof (Hok _ _ _ H) as ->.
    apply Hfinal in H. rewrite app_nil_r.
    split_and!; [lia | exact H | reflexivity].
  - unfold bind at 1.
    destruct (run_stage video_file mode st s) as [[e|[]] s1] eqn:E;
      apply run_stage_shape in E; destruct E as [Hs Hf].
    + intros H. inversion H; subst. exists 1%nat. simpl. rewrite take_0.
      split_and!; [lia | exact Hs |].
      destruct (Hf e eq_refl) as [l Hl]. exists st, l. split_and!; auto.
    + intros H. apply IH in H. destruct H as [k [Hk [Htr Hr]]].
      exists (S k). simpl. split_and!; [lia | |].
      * rewrite Htr, Hs, <- app_assoc. reflexivity.
      * destruct r as [e|[]]; [|lia].
        destruct Hr as [st' [l [Hl [Hpos Hlog]]]].
        exists st', l. split_and!; [|lia|exact Hlog].
        destruct k; [lia|]. simpl in *. rewrite Nat.sub_0_r in Hl. exact Hl.
Qed.

(** The four guarded calls of [run_pipeline] are a run of the plan. *)
Lemma guarded_calls_are_plan steps video_file mode final :
  (when (requested steps Extract) (run_stage video_file mode Extract) ;;;
   when (requested steps Transcribe) (run_stage video_file mode Transcribe) ;;;
   when (requested steps Translate) (run_stage video_file mode Translate) ;;;
   when (requested steps Subtitles) (run_stage video_file mode Subtitles) ;;;
   final)
  = run_in_order (run_stage video_file mode) (plan steps) final.
Proof.
  unfold plan, all_stages.
  rewrite !filter_cons, filter_nil.
  destruct (requested steps Extract), (requested steps Transcribe),
           (requested steps Translate), (requested steps Subtitles);
    reflexivity.
Qed.

(** [run_pipeline] resolves the video, makes the audio directory and
    runs the plan. *)
Lemma run_pipeline_plan steps mode video_arg s :
  run_pipeline cfg os steps mode video_arg s =
  reraising
    (video_file <- select_video_file cfg os video_arg ;;
     on_machine (makedirs os (audio_dir (cfg_paths cfg))) ;;;
     run_in_order (run_stage video_file (final_mode mode)) (plan steps)
       (logging Completed))
    (fun e => record (Aborted e)) s.
Proof.
  unfold run_pipeline, reraising.
  match goal with
  | |- (let (_, _) := ?a in _) = (let (_, _) := ?b in _) =>
      assert (E : a = b); [|rewrite E; reflexivity]
  end.
  apply bind_ext. intros video_file s0.
  rewrite <- guarded_calls_are_plan. reflexivity.
Qed.

(** A stage wrapper does on the machine what the stage function does,
    and returns what it returns. *)
Lemma run_stage_call video_file mode st s r s' :
  run_stage video_file mode st s = (r, s') ->
  stage_call cfg os video_file mode st (machine s) = (r, machine s').
Proof.
  destruct st; simpl.
  - unfold step_extract_audio, bind, logging, reraising, on_machine. simpl.
    destruct (extract_audio_from_video os _ _ (machine s)) as [[e|[]] w];
      intros H; inversion H; subst; reflexivity.
  - unfold step_transcribe, bind, logging, reraising, on_machine. simpl.
    destruct (transcribe os _ _ _ (machine s)) as [[e|[]] w];
      intros H; inversion H; subst; reflexivity.
  - unfold step_translate, bind, logging, reraising, on_machine. simpl.
    destruct (load_segments os _ (machine s)) as [[e|[segments source_lang]] w];
      [intros H; inversion H; subst; reflexivity|].
    simpl.
    destruct (translate os segments source_lang _ _ _ w) as [[e|[]] w2];
      intros H; inversion H; subst; reflexivity.
  - unfold step_subtitles, bind, logging, reraising, on_machine. simpl.
    destruct (decide (mode = lit "soft")) as [Hm|Hm]; cbn [machine log].
    + destruct (add_soft_subs os _ _ _ (machine s)) as [[e|[]] w];
        intros H; inversion H; subst; reflexivity.
    + destruct (decide (mode = lit "burned")) as [Hb|Hb]; cbn [machine log].
      * destruct (add_burned_subs os _ _ _ (machine s)) as [[e|[]] w];
          intros H; inversion H; subst; reflexivity.
      * intros H; inversion H; subst; reflexivity.
Qed.

Lemma run_in_order_calls video_file mode todo s r s' :
  run_in_order (run_stage video_file mode) todo (logging Completed) s = (r, s') ->
  run_calls (stage_call cfg os video_file mode) todo (machine s)
  = (r, machine s').
Proof.
  revert s. induction todo as [|st rest IH]; intros s; cbn [run_in_order run_calls].
  - intros H. inversion H; subst. reflexivity.
  - unfold bind.
    destruct (run_stage video_file mode st s) as [[e|[]] s1] eqn:E;
      apply run_stage_call in E; rewrite E.
    + intros H. inversion H; subst. reflexivity.
    + apply IH.
Qed.

Lemma plan_named_stages steps : plan steps = named_stages steps.
Proof.
  unfold plan, named_stages, all_stages, requested.
  rewrite !filter_cons, filter_nil. simpl stage_name.
  repeat match goal with
         | |- context [decide (bool_decide ?P = true)] =>
             destruct (bool_decide P) eqn:?
         end; reflexivity.
Qed.

End PipelineFacts.

(** C9. Once the input video is resolved and the audio directory made,
    [run_pipeline] runs the requested stages, and only those, in the
    order Extract, Transcribe, Translate, Subtitles, whatever the order of
    the names in the request: what it returns and what it leaves on the
    machine are what the calls of the stage functions of the plan, one
    after the other up to the first exception, return and leave. When a
    stage raises [e] no later stage is run or entered, and [e] itself is
    what [run_pipeline] raises, after the wrapper of the stage and
    [run_pipeline] have recorded it. The stages entered are the first
    [k] of the plan, all of it when the run returns. *)
Theorem stages_run_in_fixed_order :
  forall (W : Type) (cfg : pipeline.config) (os : pipeline.host W)
         (steps : list str) (mode video_arg : option str)
         (s s0 : pipeline.state W) (video_file : path) (w1 : W),
    pipeline.select_video_file cfg os video_arg s = (Ok video_file, s0) ->
    pipeline.makedirs os (pipeline.audio_dir (pipeline.cfg_paths cfg))
      (pipeline.machine s0) = (Ok tt, w1) ->
    plan steps = named_stages steps /\
    exists k, (k <= length (plan steps))%nat /\
      let '(r, s') := pipeline.run_pipeline cfg os steps mode video_arg s in
      run_calls (stage_call cfg os video_file (final_mode cfg mode))
        (plan steps) w1 = (r, pipeline.machine s') /\
      pipeline.started (pipeline.log s')
        = pipeline.started (pipeline.log s) ++ take k (plan steps) /\
      match r with
      | inr _ => k = length (plan steps)
      | inl e =>
          exists st l,
            plan steps !! (k - 1)%nat = Some st /\ (0 < k)%nat /\
            pipeline.log s' = l ++ [pipeline.Failed st e; pipeline.Aborted e]
      end.
Proof.
  intros W cfg os steps mode video_arg s s0 video_file w1 Hsel Hmk.
  split; [apply plan_named_stages|].
  pose proof (quiet_select cfg os video_arg _ _ _ Hsel) as Hq0.
  rewrite run_pipeline_plan. unfold reraising.
  unfold bind at 1. rewrite Hsel.
  unfold bind at 1, pipeline.on_machine at 1. rewrite Hmk.
  unfold Ok at 1 2. cbv beta iota.
  set (s1 := {| pipeline.machine := w1; pipeline.log := pipeline.log s0 |}).
  destruct (run_in_order (run_stage cfg os video_file (final_mode cfg mode))
              (plan steps) (pipeline.logging pipeline.Completed) s1)
    as [r s'] eqn:R.
  pose proof (run_in_order_calls cfg os _ _ _ _ _ _ R) as Hcalls.
  apply run_in_order_trace in R.
  - destruct R as [k [Hk [Htr Hr]]]. exists k. split; [exact Hk|].
    destruct r as [e|[]].
    + simpl. rewrite started_app. simpl. rewrite app_nil_r.
      split_and!; [exact Hcalls | rewrite Htr; simpl; rewrite Hq0; reflexivity |].
      destruct Hr as [st [l [Hl [Hpos Hlog]]]]. exists st, l.
      split_and!; [exact Hl | exact Hpos |].
      rewrite Hlog, <- app_assoc. reflexivity.
    + split_and!;
        [exact Hcalls | rewrite Htr; simpl; rewrite Hq0; reflexivity | exact Hr].
  - apply (quiet_logging os). intros st. discriminate.
  - intros s2 r1 s3 H. inversion H; subst. reflexivity.
Qed.

Lemma stages_run_in_fixed_order_witness :
  plan [lit "subtitles"; lit "extract"] = [pipeline.Extract; pipeline.Subtitles] /\
  exists k, (k <= length (plan [lit "subtitles"; lit "extract"]))%nat /\
    let '(r, s') :=
      pipeline.run_pipeline Demo.pcfg Demo.os [lit "subtitles"; lit "extract"]
        None None Demo.with_video in
    run_calls (stage_call Demo.pcfg Demo.os (lit "data/video/sample.mp4")
                 (final_mode Demo.pcfg None))
      (plan [lit "subtitles"; lit "extract"]) [lit "data/video/sample.mp4"]
    = (r, pipeline.machine s') /\
    pipeline.started (pipeline.log s')
      = pipeline.started (pipeline.log Demo.with_video)
        ++ take k (plan [lit "subtitles"; lit "extract"]) /\
    match r with
    | inr _ => k = length (plan [lit "subtitles"; lit "extract"])
    | inl e =>
        exists st l,
          plan [lit "subtitles"; lit "extract"] !! (k - 1)%nat = Some st /\
          (0 < k)%nat /\
          pipeline.log s' = l ++ [pipeline.Failed st e; pipeline.Aborted e]
    end.
Proof.
  apply (stages_run_in_fixed_order (list path) Demo.pcfg Demo.os
           [lit "subtitles"; lit "extract"] None None Demo.with_video
           Demo.with_video (lit "data/video/sample.mp4")
           [lit "data/video/sample.mp4"]).
  - vm_compute. reflexivity.
  - vm_compute. reflexivity.
Defined.

(** C10. The input video is resolved before any stage. When a path is
    given (a non-empty string) and does not exist, or none is given and
    the video directory holds no MP4 file, [run_pipeline] raises
    [FileNotFoundError] for any requested stages, having entered no stage
    and changed nothing on the machine: it only records the error. *)
Theorem missing_video_aborts_the_run :
  forall (W : Type) (cfg : pipeline.config) (os : pipeline.host W)
         (steps : list str) (mode video_arg : option str)
         (s : pipeline.state W),
    ((exists a, video_arg = Some a /\ a <> [] /\
                pipeline.path_exists os (pipeline.machine s)
                  (pipeline.resolve os (pipeline.machine s) a) = false)
     \/
     ((video_arg = None \/ video_arg = Some []) /\
      pipeline.glob_mp4 os (pipeline.machine s)
        (pipeline.video_dir (pipeline.cfg_paths cfg)) = [])) ->
    pipeline.run_pipeline cfg os steps mode video_arg s
      = (Raise FileNotFoundError,
         {| pipeline.machine := pipeline.machine s;
            pipeline.log := pipeline.log s ++ [pipeline.Aborted FileNotFoundError] |})
    /\ pipeline.started
         (pipeline.log (snd (pipeline.run_pipeline cfg os steps mode video_arg s)))
       = pipeline.started (pipeline.log s).
Proof.
  intros W cfg os steps mode video_arg s H.
  assert (E : pipeline.run_pipeline cfg os steps mode video_arg s
            = (Raise FileNotFoundError,
               {| pipeline.machine := pipeline.machine s;
                  pipeline.log := pipeline.log s
                                  ++ [pipeline.Aborted FileNotFoundError] |})).
  { assert (Hsel : pipeline.select_video_file cfg os video_arg s
                     = (Raise FileNotFoundError, s)).
    { unfold pipeline.select_video_file.
      destruct H as [[a [-> [Ha Hex]]]|[Hv Hglob]].
      - destruct a as [|c a]; [congruence|]. simpl.
        unfold bind, pipeline.observe, Ok. cbv beta iota.
        rewrite Hex. reflexivity.
      - assert (Hg : pipeline.given video_arg = None)
          by (destruct Hv as [->| ->]; reflexivity).
        rewrite Hg. unfold bind, pipeline.observe, Ok. cbv beta iota.
        rewrite Hglob. reflexivity. }
    unfold pipeline.run_pipeline, reraising. unfold bind at 1.
    rewrite Hsel. reflexivity. }
  split; [exact E|].
  rewrite E. simpl. rewrite started_app. simpl. apply app_nil_r.
Qed.

Lemma missing_video_aborts_the_run_witness :
  pipeline.run_pipeline Demo.pcfg Demo.os [lit "translate"] None None Demo.bare
    = (Raise FileNotFoundError,
       {| pipeline.machine := pipeline.machine Demo.bare;
          pipeline.log := pipeline.log Demo.bare
                          ++ [pipeline.Aborted FileNotFoundError] |})
  /\ pipeline.started
       (pipeline.log (snd (pipeline.run_pipeline Demo.pcfg Demo.os
                             [lit "translate"] None None Demo.bare)))
     = pipeline.started (pipeline.log Demo.bare).
Proof.
  apply missing_video_aborts_the_run.
  right. split; [left; reflexivity | vm_compute; reflexivity].
Defined.

(** ** Binary64 arithmetic *)

(** *** Digits and shifts *)

Lemma digits2_log2 (p : positive) :
  Zpos (digits2_pos p) = Z.log2 (Zpos p) + 1.
Proof.
  induction p as [p IH|p IH|]; simpl digits2_pos.
  - rewrite Pos2Z.inj_succ, IH.
    change (Zpos p~1) with (2 * Zpos p + 1).
    rewrite Z.log2_succ_double by lia. lia.
  - rewrite Pos2Z.inj_succ, IH.
    change (Zpos p~0) with (2 * Zpos p).
    rewrite Z.log2_double by lia. lia.
  - reflexivity.
Qed.

Lemma digits2_bounds (p : positive) :
  2 ^ (Zpos (digits2_pos p) - 1) <= Zpos p < 2 ^ Zpos (digits2_pos p).
Proof.
  rewrite digits2_log2.
  replace (Z.log2 (Zpos p) + 1 - 1) with (Z.log2 (Zpos p)) by lia.
  replace (Z.log2 (Zpos p) + 1) with (Z.succ (Z.log2 (Zpos p))) by lia.
  apply Z.log2_spec. lia.
Qed.

Lemma digits2_unique (p : positive) (d : Z) :
  2 ^ (d - 1) <= Zpos p < 2 ^ d -> Zpos (digits2_pos p) = d.
Proof.
  intros H. rewrite digits2_log2.
  assert (Hd : 0 < d).
  { destruct (Z.lt_ge_cases 0 d) as [?|Hle]; [assumption|].
    assert (2 ^ d <= 2 ^ 0) by (apply Z.pow_le_mono_r; lia).
    simpl in *. lia. }
  rewrite (Z.log2_unique (Zpos p) (d - 1)); [lia | lia |].
  replace (Z.succ (d - 1)) with d by lia. exact H.
Qed.

Lemma iter_xO_pow2 (m p : positive) :
  Zpos (Pos.iter xO m p) = Zpos m * 2 ^ Zpos p.
Proof.
  induction p as [|p IH] using Pos.peano_ind.
  - simpl. lia.
  - rewrite Pos.iter_succ, Pos2Z.inj_succ, Z.pow_succ_r by lia.
    change (Zpos (Pos.iter xO m p)~0) with (2 * Zpos (Pos.iter xO m p)).
    rewrite IH. ring.
Qed.

Lemma shl_pow2 (m : positive) (n : Z) :
  0 <= n -> Zpos (shl m n) = Zpos m * 2 ^ n.
Proof.
  intros Hn. destruct n as [|p|p]; simpl; [lia | apply iter_xO_pow2 | lia].
Qed.

Lemma digits2_shl (m : positive) (n : Z) :
  0 <= n -> Zpos (digits2_pos (shl m n)) = Zpos (digits2_pos m) + n.
Proof.
  intros Hn. rewrite !digits2_log2, shl_pow2 by exact Hn.
  rewrite Z.log2_mul_pow2 by lia. lia.
Qed.

Lemma iter_pos_iter {A} (f : A -> A) (p : positive) (x : A) :
  SpecFloat.iter_pos f p x = Pos.iter f x p.
Proof.
  revert x. induction p as [p IH|p IH|]; intros x; simpl.
  - rewrite !IH. rewrite <- !Pos.iter_swap. reflexivity.
  - rewrite !IH. reflexivity.
  - reflexivity.
Qed.

Lemma iter_shr_1_exact (m p : positive) :
  Pos.iter shr_1 (Build_shr_record (Zpos (Pos.iter xO m p)) false false) p
  = Build_shr_record (Zpos m) false false.
Proof.
  induction p as [|p IH] using Pos.peano_ind.
  - reflexivity.
  - rewrite (Pos.iter_succ p positive xO), Pos.iter_succ, <- Pos.iter_swap.
    simpl shr_1. exact IH.
Qed.

Lemma shr_exact (m : positive) (e n : Z) :
  0 <= n ->
  shr (Build_shr_record (Zpos (shl m n)) false false) e n
  = (Build_shr_record (Zpos m) false false, e + n).
Proof.
  intros Hn. destruct n as [|p|p]; simpl.
  - rewrite Z.add_0_r. reflexivity.
  - rewrite iter_pos_iter, iter_shr_1_exact. reflexivity.
  - lia.
Qed.

Lemma shr_m_shr_1 (mrs : shr_record) :
  0 <= shr_m mrs -> shr_m (shr_1 mrs) = Z.div2 (shr_m mrs).
Proof.
  destruct mrs as [m r s]. simpl. destruct m as [|[q|q|]|q]; simpl; try lia; reflexivity.
Qed.

Lemma shr_m_iter (mrs : shr_record) (p : positive) :
  0 <= shr_m mrs ->
  shr_m (Pos.iter shr_1 mrs p) = Z.shiftr (shr_m mrs) (Zpos p) /\
  0 <= shr_m (Pos.iter shr_1 mrs p).
Proof.
  intros H0. induction p as [|p [IH1 IH2]] using Pos.peano_ind.
  - simpl Pos.iter. rewrite shr_m_shr_1 by exact H0.
    split; [reflexivity|]. rewrite Z.div2_div. apply Z.div_pos; lia.
  - rewrite Pos.iter_succ, shr_m_shr_1 by exact IH2. rewrite IH1.
    rewrite Pos2Z.inj_succ, !Z.shiftr_div_pow2, Z.div2_div by lia.
    rewrite Z.pow_succ_r, Z.mul_comm, <- Z.div_div by lia.
    split; [reflexivity|]. apply Z.div_pos; [|lia]. apply Z.div_pos; lia.
Qed.

(** *** Rounding a representable value is exact *)

Lemma fexp_eq (e : Z) : fexp prec emax e = Z.max (e - 53) (-1074).
Proof. reflexivity. Qed.

Lemma bounded_spec (m : positive) (e : Z) :
  bounded prec emax m e = true <->
  Z.max (Zpos (digits2_pos m) + e - 53) (-1074) = e /\ e <= 971.
Proof.
  unfold bounded, canonical_mantissa. rewrite fexp_eq.
  rewrite andb_true_iff, Z.eqb_eq, Z.leb_le. reflexivity.
Qed.

Lemma round_aux_exact (m : positive) (e n : Z) :
  bounded prec emax m e = true -> 0 <= n ->
  binary_round_aux prec emax false (Zpos (shl m n)) (e - n) loc_Exact
  = S754_finite false m e.
Proof.
  intros Hb Hn. apply bounded_spec in Hb. destruct Hb as [Hc He].
  unfold binary_round_aux, shr_fexp. simpl Zdigits2. simpl shr_record_of_loc.
  rewrite fexp_eq, digits2_shl by exact Hn.
  replace (Zpos (digits2_pos m) + n + (e - n) - 53)
    with (Zpos (digits2_pos m) + e - 53) by lia.
  rewrite Hc. replace (e - (e - n)) with n by lia.
  rewrite shr_exact by exact Hn.
  replace (e - n + n) with e by lia.
  simpl loc_of_shr_record. simpl round_nearest_even. simpl Zdigits2.
  rewrite fexp_eq, Hc, Z.sub_diag. simpl shr. simpl shr_m.
  change (emax - prec) with 971. cbv beta iota.
  destruct (e <=? 971) eqn:E; [reflexivity | apply Z.leb_gt in E; lia].
Qed.

(** [binary_normalize] returns the float whose value is the one given,
    when there is one. Values are compared in units of [2^-1074]. *)
Lemma normalize_exact (M m : positive) (E e : Z) :
  bounded prec emax m e = true -> -1074 <= E ->
  Zpos M * 2 ^ (E + 1074) = Zpos m * 2 ^ (e + 1074) ->
  binary_normalize prec emax (Zpos M) E false = S754_finite false m e.
Proof.
  intros Hb HE Hv. pose proof Hb as Hb'.
  apply bounded_spec in Hb'. destruct Hb' as [Hc He].
  assert (He0 : -1074 <= e) by lia.
  assert (Hd : Zpos (digits2_pos M) + E = Zpos (digits2_pos m) + e).
  { assert (H1 : Z.log2 (Zpos M * 2 ^ (E + 1074)) = E + 1074 + Z.log2 (Zpos M))
      by (apply Z.log2_mul_pow2; lia).
    assert (H2 : Z.log2 (Zpos m * 2 ^ (e + 1074)) = e + 1074 + Z.log2 (Zpos m))
      by (apply Z.log2_mul_pow2; lia).
    rewrite Hv in H1. rewrite !digits2_log2. lia. }
  unfold binary_normalize, binary_round.
  rewrite fexp_eq, Hd, Hc. unfold shl_align.
  destruct (Z.lt_ge_cases e E) as [Hlt|Hge].
  - (* the mantissa is widened *)
    assert (Hm : Zpos m = Zpos M * 2 ^ (E - e)).
    { replace (E + 1074) with ((E - e) + (e + 1074)) in Hv by lia.
      rewrite (Z.pow_add_r 2 (E - e)), Z.mul_assoc in Hv by lia.
      apply Z.mul_cancel_r in Hv; [lia|]. apply Z.pow_nonzero; lia. }
    destruct (e - E) as [|d|d] eqn:Ed; try lia.
    assert (Hd' : Pos.iter xO M d = m).
    { apply Pos2Z.inj. rewrite iter_xO_pow2, Hm. f_equal. f_equal. lia. }
    rewrite Hd'.
    pose proof (round_aux_exact m e 0 Hb ltac:(lia)) as R.
    simpl shl in R. rewrite Z.sub_0_r in R. exact R.
  - assert (Hm : Zpos M = Zpos m * 2 ^ (e - E)).
    { replace (e + 1074) with ((e - E) + (E + 1074)) in Hv by lia.
      rewrite (Z.pow_add_r 2 (e - E)), Z.mul_assoc in Hv by lia.
      apply Z.mul_cancel_r in Hv; [lia|]. apply Z.pow_nonzero; lia. }
    assert (HM : M = shl m (e - E)).
    { apply Pos2Z.inj. rewrite shl_pow2 by lia. exact Hm. }
    assert (Hsh : (let (mz, ez) :=
                      match e - E with
                      | Z.neg d => (Pos.iter xO M d, e)
                      | _ => (M, E)
                      end in
                    binary_round_aux prec emax false (Zpos mz) ez loc_Exact)
                  = binary_round_aux prec emax false (Zpos M) E loc_Exact).
    { destruct (e - E) eqn:Ed; try reflexivity. lia. }
    rewrite Hsh, HM.
    replace E with (e - (e - E)) at 2 by lia.
    apply round_aux_exact; [exact Hb | lia].
Qed.

(** *** Non-negative floats, counted in units of [2^-1074] *)

Lemma bounded_range (m : positive) (e : Z) :
  bounded prec emax m e = true ->
  -1074 <= e <= 971 /\ Zpos m < 2 ^ 53.
Proof.
  intros Hb. apply bounded_spec in Hb. destruct Hb as [Hc He].
  split; [lia|].
  pose proof (digits2_bounds m) as [_ Hlt].
  eapply Z.lt_le_trans; [exact Hlt|]. apply Z.pow_le_mono_r; lia.
Qed.

Lemma units_finite (s : bool) (m : positive) (e : Z) :
  -1074 <= e -> units (S754_finite s m e) = Zpos m * 2 ^ (e + 1074).
Proof. intros He. unfold units. apply Z.shiftl_mul_pow2. lia. Qed.

Lemma is_units_units (x : float) (u : Z) : is_units x u -> units x = u.
Proof.
  intros [[-> [s ->]]|[Hu [m [e [-> [Hb Hv]]]]]]; [reflexivity|].
  rewrite units_finite; [exact Hv|]. apply bounded_range in Hb. lia.
Qed.

Lemma is_units_representable (x : float) (u : Z) :
  is_units x u -> 0 < u -> representable u.
Proof.
  intros [[-> _]|[_ [m [e [-> [Hb Hv]]]]]] Hu; [lia|].
  apply bounded_range in Hb. destruct Hb as [He Hm].
  split; [exact Hu|]. exists (e + 1074). split_and!; try lia.
  - exists (Zpos m). symmetry. exact Hv.
  - rewrite <- Hv, (Z.pow_add_r 2 53) by lia.
    apply Z.mul_lt_mono_pos_r; [apply Z.pow_pos_nonneg; lia | exact Hm].
Qed.

Lemma representable_is_units (u : Z) :
  representable u -> is_units (of_units u) u.
Proof.
  intros [Hu [g [Hg [[q Hq] Hlt]]]].
  pose proof (Z.log2_nonneg u) as Hlog.
  set (d := Z.log2 u + 1).
  set (k := Z.max (d - 53) 0).
  assert (Hd : 2 ^ (d - 1) <= u < 2 ^ d).
  { subst d. replace (Z.log2 u + 1 - 1) with (Z.log2 u) by lia.
    apply Z.log2_spec. exact Hu. }
  assert (Hdg : d <= 53 + g).
  { destruct (Z.le_gt_cases d (53 + g)) as [?|Hgt]; [assumption|].
    assert (2 ^ (53 + g) <= 2 ^ (d - 1)) by (apply Z.pow_le_mono_r; lia). lia. }
  assert (Hk : 0 <= k <= g) by lia.
  assert (Hdiv : u = (q * 2 ^ (g - k)) * 2 ^ k).
  { rewrite <- Z.mul_assoc, <- Z.pow_add_r by lia.
    replace (g - k + k) with g by lia. exact Hq. }
  set (mz := q * 2 ^ (g - k)) in *.
  assert (Hmz : 0 < mz).
  { assert (0 < 2 ^ k) by (apply Z.pow_pos_nonneg; lia). nia. }
  destruct mz as [|m|m] eqn:Em; try lia.
  assert (Hdm : Zpos (digits2_pos m) = d - k).
  { apply digits2_unique. destruct Hd as [Hd1 Hd2].
    assert (Hk1 : 2 ^ (d - 1) = 2 ^ (d - k - 1) * 2 ^ k).
    { rewrite <- Z.pow_add_r by lia. f_equal. lia. }
    assert (Hk2 : 2 ^ d = 2 ^ (d - k) * 2 ^ k).
    { rewrite <- Z.pow_add_r by lia. f_equal. lia. }
    assert (0 < 2 ^ k) by (apply Z.pow_pos_nonneg; lia).
    rewrite Hk1, Hdiv in Hd1. rewrite Hk2, Hdiv in Hd2.
    split.
    - apply Z.mul_le_mono_pos_r in Hd1; assumption.
    - apply Z.mul_lt_mono_pos_r in Hd2; assumption. }
  assert (Hb : bounded prec emax m (k - 1074) = true).
  { apply bounded_spec. rewrite Hdm. lia. }
  right. split; [exact Hu|]. exists m, (k - 1074). split_and!.
  - unfold of_units. destruct u as [|U|U]; try lia.
    apply normalize_exact; [exact Hb | lia |].
    replace (k - 1074 + 1074) with k by lia. simpl (_ + _). lia.
  - exact Hb.
  - replace (k - 1074 + 1074) with k by lia. lia.
Qed.

(** *** The operations on non-negative floats *)

Lemma is_units_zero (s : bool) : is_units (S754_zero s) 0.
Proof. left. split; [reflexivity | exists s; reflexivity]. Qed.

Lemma is_units_nonneg (x : float) (u : Z) : is_units x u -> 0 <= u.
Proof. intros [[-> _]|[Hu _]]; lia. Qed.

Lemma is_units_nonzero (x : float) (u : Z) :
  is_units x u -> nonzero x = negb (u =? 0).
Proof.
  intros [[-> [s ->]]|[Hu [m [e [-> _]]]]]; simpl; [reflexivity|].
  destruct (u =? 0) eqn:E; [apply Z.eqb_eq in E; lia | reflexivity].
Qed.

Lemma is_units_not_negative (x : float) (u : Z) :
  is_units x u -> ltb x zero = false.
Proof.
  intros [[_ [s ->]]|[_ [m [e [-> _]]]]]; reflexivity.
Qed.

Lemma is_units_of_units (u : Z) :
  u = 0 \/ representable u -> is_units (of_units u) u.
Proof.
  intros [->|H]; [apply is_units_zero | apply representable_is_units, H].
Qed.

Lemma pow2_divide (a b : Z) : 0 <= a <= b -> (2 ^ a | 2 ^ b).
Proof.
  intros H. exists (2 ^ (b - a)). rewrite <- Z.pow_add_r by lia.
  f_equal. lia.
Qed.

Lemma mod_representable (X C : Z) :
  representable X -> representable C -> 0 < X mod C ->
  representable (X mod C).
Proof.
  intros [HX [gx [Hgx [Hdx Hltx]]]] [HC [gc [Hgc [Hdc Hltc]]]] Hpos.
  split; [exact Hpos|]. exists (Z.min gx gc). split_and!; try lia.
  - rewrite Z.mod_eq by lia. apply Z.divide_sub_r.
    + eapply Z.divide_trans; [|exact Hdx]. apply pow2_divide. lia.
    + apply Z.divide_mul_l.
      eapply Z.divide_trans; [|exact Hdc]. apply pow2_divide. lia.
  - pose proof (Z.mod_pos_bound X C HC) as [_ Hm].
    assert (Hle : X mod C <= X) by (apply Z.mod_le; lia).
    destruct (Z.le_ge_cases gx gc) as [Hmin|Hmin].
    + rewrite Z.min_l by exact Hmin. lia.
    + rewrite Z.min_r by lia. lia.
Qed.

(** [x % c] for non-negative [x] and positive [c]. *)
Lemma float_rem_units (x c : float) (X C : Z) :
  is_units x X -> is_units c C -> 0 < C ->
  exists r, float_rem x c = Ok r /\ is_units r (X mod C).
Proof.
  intros Hx Hc HC.
  pose proof (is_units_units _ _ Hx) as Ux.
  pose proof (is_units_units _ _ Hc) as Uc.
  pose proof (is_units_not_negative _ _ Hc) as Nc.
  pose proof (is_units_representable _ _ Hc HC) as Rc.
  unfold float_rem. rewrite (is_units_nonzero _ _ Hc).
  replace (C =? 0) with false by (symmetry; apply Z.eqb_neq; lia).
  cbv beta iota. simpl negb. cbv iota.
  destruct Hc as [[? _]|[_ [mc [ec [-> _]]]]]; [lia|].
  destruct Hx as [[-> [s ->]]|[HX [m [e [-> [Hb Hv]]]]]].
  - simpl. exists (S754_zero false). split; [reflexivity|].
    rewrite Z.mod_0_l by lia. apply is_units_zero.
  - assert (Hf : fmod (S754_finite false m e) (S754_finite false mc ec)
                 = of_units (X mod C)).
    { unfold fmod. rewrite Ux, Uc. reflexivity. }
    rewrite Hf.
    assert (HR : X mod C = 0 \/ representable (X mod C)).
    { pose proof (Z.mod_pos_bound X C HC) as [Hm0 _].
      destruct (Z.eq_dec (X mod C) 0) as [?|Hne]; [left; assumption|].
      right. apply mod_representable; [|exact Rc|lia].
      eapply is_units_representable; [|exact HX].
      right. split; [exact HX|]. exists m, e. auto. }
    pose proof (is_units_of_units _ HR) as Hr.
    rewrite (is_units_nonzero _ _ Hr).
    destruct (X mod C =? 0) eqn:E0.
    + apply Z.eqb_eq in E0. simpl. exists (S754_zero false).
      split; [reflexivity|]. rewrite E0. apply is_units_zero.
    + simpl negb. cbv iota.
      rewrite (is_units_not_negative _ _ Hr). simpl.
      exists (of_units (X mod C)). split; [reflexivity | exact Hr].
Qed.

Lemma shl_align_units (m : positive) (e ez : Z) :
  -1074 <= ez <= e ->
  Zpos (fst (shl_align m e ez)) * 2 ^ (ez + 1074) = Zpos m * 2 ^ (e + 1074).
Proof.
  intros H. unfold shl_align. destruct (ez - e) as [|d|d] eqn:Ed; simpl fst.
  - replace ez with e by lia. reflexivity.
  - lia.
  - rewrite iter_xO_pow2, <- Z.mul_assoc, <- Z.pow_add_r by lia.
    f_equal. f_equal. lia.
Qed.

(** [x - y] when the difference is a binary64. *)
Lemma sub_units (x y : float) (X Y : Z) :
  is_units x X -> is_units y Y -> Y <= X ->
  X - Y = 0 \/ representable (X - Y) ->
  is_units (sub x y) (X - Y).
Proof.
  intros Hx Hy Hle HR.
  destruct Hy as [[-> [sy ->]]|[HY [my [ey [-> [Hby Hvy]]]]]].
  - rewrite Z.sub_0_r.
    destruct Hx as [[-> [sx ->]]|[HX [mx [ex [-> [Hbx Hvx]]]]]].
    + destruct sx, sy; apply is_units_zero.
    + right. split; [exact HX|]. exists mx, ex. auto.
  - destruct Hx as [[-> _]|[HX [mx [ex [-> [Hbx Hvx]]]]]]; [lia|].
    pose proof (bounded_range _ _ Hbx) as [Hex _].
    pose proof (bounded_range _ _ Hby) as [Hey _].
    unfold sub, SFsub. simpl cond_Zopp.
    set (ez := Z.min ex ey).
    assert (Ax : Zpos (fst (shl_align mx ex ez)) * 2 ^ (ez + 1074) = X)
      by (rewrite shl_align_units; [exact Hvx | lia]).
    assert (Ay : Zpos (fst (shl_align my ey ez)) * 2 ^ (ez + 1074) = Y)
      by (rewrite shl_align_units; [exact Hvy | lia]).
    set (D := Zpos (fst (shl_align mx ex ez)) - Zpos (fst (shl_align my ey ez))).
    assert (HD : D * 2 ^ (ez + 1074) = X - Y).
    { subst D. rewrite Z.mul_sub_distr_r, Ax, Ay. reflexivity. }
    assert (Hp : 0 < 2 ^ (ez + 1074)) by (apply Z.pow_pos_nonneg; lia).
    destruct HR as [H0|Hrep].
    + assert (D = 0) by nia. rewrite H, H0. apply is_units_zero.
    + pose proof (representable_is_units _ Hrep) as Hu.
      destruct Hrep as [Hpos _].
      destruct Hu as [[? _]|[_ [m [e [Hof [Hb Hv]]]]]]; [lia|].
      assert (0 < D) by nia. destruct D as [|Dp|Dp] eqn:ED; try lia.
      rewrite (normalize_exact Dp m ez e Hb); [|lia|lia].
      right. split; [exact Hpos|]. exists m, e. auto.
Qed.

Lemma pow2_cancel (a b p q t : Z) :
  0 <= p -> 0 <= q -> 0 <= p + t -> 0 <= q + t ->
  a * 2 ^ (p + t) = b * 2 ^ (q + t) -> a * 2 ^ p = b * 2 ^ q.
Proof.
  intros Hp Hq Hpt Hqt H.
  destruct (Z.le_ge_cases 0 t) as [Ht|Ht].
  - rewrite !Z.pow_add_r, !Z.mul_assoc in H by lia.
    apply Z.mul_cancel_r in H; [exact H|]. apply Z.pow_nonzero; lia.
  - replace p with ((p + t) + (- t)) by lia.
    replace q with ((q + t) + (- t)) by lia.
    rewrite (Z.pow_add_r 2 (p + t)), (Z.pow_add_r 2 (q + t)) by lia.
    rewrite !Z.mul_assoc, H. reflexivity.
Qed.

Lemma new_location_0 (n : Z) : new_location n 0 = loc_Exact.
Proof.
  unfold new_location, new_location_even, new_location_odd.
  destruct (Z.even n); reflexivity.
Qed.

(** [x / c] when the quotient is a binary64. *)
Lemma div_units (x c z : float) (X C Q : Z) :
  is_units x X -> is_units c C -> is_units z Q ->
  0 < X -> 0 < C -> 0 < Q ->
  X * 2 ^ 1074 = Q * C ->
  div x c = z.
Proof.
  intros Hx Hc Hz HX HC HQ Hv.
  destruct Hx as [[? _]|[_ [mx [ex [-> [Hbx Hvx]]]]]]; [lia|].
  destruct Hc as [[? _]|[_ [mc [ec [-> [Hbc Hvc]]]]]]; [lia|].
  destruct Hz as [[? _]|[_ [mz [ez [-> [Hbz Hvz]]]]]]; [lia|].
  pose proof (bounded_range _ _ Hbx) as [Hex _].
  pose proof (bounded_range _ _ Hbc) as [Hec _].
  pose proof (bounded_range _ _ Hbz) as [Hez _].
  pose proof Hbz as Hcz. apply bounded_spec in Hcz. destruct Hcz as [Hcz _].
  (* the value equation on mantissas *)
  assert (Hval : Zpos mx * 2 ^ (ex + 2148) = (Zpos mz * Zpos mc) * 2 ^ (ez + ec + 2148)).
  { replace (ex + 2148) with ((ex + 1074) + 1074) by lia.
    replace (ez + ec + 2148) with ((ez + 1074) + (ec + 1074)) by lia.
    rewrite (Z.pow_add_r 2 (ex + 1074) 1074) by lia.
    rewrite (Z.pow_add_r 2 (ez + 1074) (ec + 1074)) by lia.
    rewrite <- Hvx, <- Hvz, <- Hvc in Hv.
    rewrite Z.mul_assoc. rewrite Hv. ring. }
  set (d1 := Zpos (digits2_pos mx)). set (d2 := Zpos (digits2_pos mc)).
  set (dz := Zpos (digits2_pos mz)) in *.
  assert (Hdig : d1 + ex - (d2 + ec) <= dz + ez).
  { assert (H1 : Z.log2 (Zpos mx * 2 ^ (ex + 2148)) = ex + 2148 + Z.log2 (Zpos mx))
      by (apply Z.log2_mul_pow2; lia).
    assert (H2 : Z.log2 (Zpos mz * Zpos mc * 2 ^ (ez + ec + 2148))
                 = ez + ec + 2148 + Z.log2 (Zpos mz * Zpos mc))
      by (apply Z.log2_mul_pow2; lia).
    assert (H3 : Z.log2 (Zpos mz * Zpos mc)
                 <= Z.log2 (Zpos mz) + Z.log2 (Zpos mc) + 1)
      by (apply Z.log2_mul_above; lia).
    rewrite Hval in H1. subst d1 d2 dz. rewrite !digits2_log2. lia. }
  unfold div, SFdiv, SFdiv_core_binary. simpl Zdigits2. fold d1 d2.
  rewrite fexp_eq.
  set (e' := Z.min (Z.max (d1 + ex - (d2 + ec) - 53) (-1074)) (ex - ec)).
  assert (He' : e' <= ez /\ e' <= ex - ec /\ -2045 <= e') by lia.
  set (s := ex - ec - e').
  set (n := ez - e').
  assert (Hmant : Zpos mx * 2 ^ s = (Zpos mz * Zpos mc) * 2 ^ n).
  { apply (pow2_cancel _ _ s n (ec + e' + 2148)); try lia.
    replace (s + (ec + e' + 2148)) with (ex + 2148) by lia.
    replace (n + (ec + e' + 2148)) with (ez + ec + 2148) by lia.
    exact Hval. }
  assert (Hm' : match s with
                | Z.pos _ => Z.shiftl (Zpos mx) s
                | 0 => Zpos mx
                | Z.neg _ => 0
                end = Zpos (shl mz n) * Zpos mc).
  { rewrite shl_pow2 by lia.
    replace (Zpos mz * 2 ^ n * Zpos mc) with (Zpos mz * Zpos mc * 2 ^ n) by ring.
    rewrite <- Hmant.
    destruct s as [|sp|sp] eqn:Es; [simpl; lia | | lia].
    apply Z.shiftl_mul_pow2. lia. }
  rewrite Hm'.
  assert (Hq : Z.div_eucl (Zpos (shl mz n) * Zpos mc) (Zpos mc)
               = (Zpos (shl mz n), 0)).
  { pose proof (Z.div_mul (Zpos (shl mz n)) (Zpos mc) ltac:(lia)) as Hd.
    pose proof (Z.mod_mul (Zpos (shl mz n)) (Zpos mc) ltac:(lia)) as Hmd.
    unfold Z.div in Hd. unfold Z.modulo in Hmd.
    destruct (Z.div_eucl _ _) as [q r]. simpl in Hd, Hmd. subst. reflexivity. }
  rewrite Hq, new_location_0. simpl xorb.
  replace e' with (ez - n) by lia.
  apply round_aux_exact; [exact Hbz | lia].
Qed.

(** [floor] of a whole number. *)
Lemma floor_whole (x : float) (K : Z) :
  is_units x (K * 2 ^ 1074) -> 0 < K -> floor x = x.
Proof.
  intros Hx HK.
  destruct Hx as [[H0 _]|[_ [m [e [-> [Hb Hv]]]]]].
  { assert (0 < 2 ^ 1074) by (apply Z.pow_pos_nonneg; lia). nia. }
  pose proof (bounded_range _ _ Hb) as [He _].
  unfold floor. destruct (0 <=? e) eqn:E0; [reflexivity|].
  apply Z.leb_gt in E0. simpl cond_Zopp.
  assert (Hm : Zpos m = K * 2 ^ (- e)).
  { replace 1074 with ((- e) + (e + 1074)) in Hv at 2 by lia.
    rewrite (Z.pow_add_r 2 (- e)), Z.mul_assoc in Hv by lia.
    apply Z.mul_cancel_r in Hv; [exact Hv|]. apply Z.pow_nonzero; lia. }
  rewrite Z.shiftr_div_pow2 by lia. rewrite Hm, Z.div_mul.
  2:{ apply Z.pow_nonzero; lia. }
  destruct K as [|Kp|Kp]; try lia.
  apply normalize_exact; [exact Hb | lia |].
  rewrite Hv. reflexivity.
Qed.

(** [int(x)] *)
Lemma int_of_float_units (x : float) (u : Z) :
  is_units x u -> int_of_float x = Ok (u / 2 ^ 1074).
Proof.
  intros [[-> [s ->]]|[_ [m [e [-> [Hb Hv]]]]]]; [reflexivity|].
  pose proof (bounded_range _ _ Hb) as [He _].
  unfold int_of_float. simpl cond_Zopp. f_equal. rewrite <- Hv.
  destruct (Z.le_gt_cases 0 e) as [H0|H0].
  - rewrite Z.shiftl_mul_pow2 by lia.
    rewrite (Z.pow_add_r 2 e), Z.mul_assoc, Z.div_mul by lia.
    reflexivity.
  - replace e with (- (- e)) at 1 by lia.
    rewrite Z.shiftl_opp_r, Z.shiftr_div_pow2 by lia.
    replace (2 ^ 1074) with (2 ^ (- e) * 2 ^ (e + 1074)).
    2:{ rewrite <- Z.pow_add_r by lia. f_equal. lia. }
    rewrite Z.div_mul_cancel_r; [reflexivity| |]; apply Z.pow_nonzero; lia.
Qed.

(** [fmod(x, c)] is exact. *)
Lemma fmod_units (x c : float) (X C : Z) :
  is_units x X -> is_units c C -> 0 < C ->
  is_units (fmod x c) (X mod C).
Proof.
  intros Hx Hc HC.
  pose proof (is_units_units _ _ Hx) as Ux.
  pose proof (is_units_units _ _ Hc) as Uc.
  pose proof (is_units_representable _ _ Hc HC) as Rc.
  destruct Hc as [[? _]|[_ [mc [ec [-> _]]]]]; [lia|].
  destruct Hx as [[-> [s ->]]|[HX [m [e [-> [Hb Hv]]]]]].
  - simpl. rewrite Z.mod_0_l by lia. apply is_units_zero.
  - assert (Hf : fmod (S754_finite false m e) (S754_finite false mc ec)
                 = of_units (X mod C)).
    { unfold fmod. rewrite Ux, Uc. reflexivity. }
    rewrite Hf. apply is_units_of_units.
    pose proof (Z.mod_pos_bound X C HC) as [Hm0 _].
    destruct (Z.eq_dec (X mod C) 0) as [?|Hne]; [left; assumption|].
    right. apply mod_representable; [|exact Rc|lia].
    eapply is_units_representable; [|exact HX].
    right. split; [exact HX|]. exists m, e. auto.
Qed.

Lemma whole_representable (K : Z) :
  0 < K < 2 ^ 53 -> representable (K * 2 ^ 1074).
Proof.
  intros [H0 H53]. assert (Hp : 0 < 2 ^ 1074) by (apply Z.pow_pos_nonneg; lia).
  split; [nia|]. exists 1074.
  split; [lia|]. split; [exists K; reflexivity|].
  rewrite Z.pow_add_r by lia. apply Z.mul_lt_mono_pos_r; assumption.
Qed.

(** [x // c] for a non-negative [x] and a whole positive [c]: the
    quotient is the exact floor, as long as it fits 53 bits. *)
Lemma float_floor_div_units (x c : float) (X n : Z) :
  is_units x X -> is_units c (n * 2 ^ 1074) -> 0 < n ->
  X / (n * 2 ^ 1074) * n < 2 ^ 53 ->
  exists q, float_floor_div x c = Ok q /\
            is_units q (X / (n * 2 ^ 1074) * 2 ^ 1074).
Proof.
  intros Hx Hc Hn Hfit.
  assert (Hp : 0 < 2 ^ 1074) by (apply Z.pow_pos_nonneg; lia).
  set (C := n * 2 ^ 1074) in *.
  assert (HC : 0 < C) by (subst C; nia).
  set (K := X / C) in *.
  pose proof (is_units_nonneg _ _ Hx) as HX0.
  assert (HK0 : 0 <= K) by (apply Z.div_pos; lia).
  pose proof (fmod_units x c X C Hx Hc HC) as Hmod.
  assert (Hdec : X - X mod C = K * C).
  { subst K. rewrite Z.mod_eq by lia. ring. }
  assert (Hsub : is_units (sub x (fmod x c)) (K * C)).
  { rewrite <- Hdec. apply sub_units; [exact Hx | exact Hmod | |].
    - apply Z.mod_le; lia.
    - rewrite Hdec. destruct (Z.eq_dec K 0) as [->|HK]; [left; reflexivity|].
      right. subst C. rewrite Z.mul_assoc. apply whole_representable. nia. }
  unfold float_floor_div.
  rewrite (is_units_nonzero _ _ Hc).
  replace (C =? 0) with false by (symmetry; apply Z.eqb_neq; lia).
  simpl negb. cbv iota.
  rewrite (is_units_not_negative _ _ Hc), (is_units_not_negative _ _ Hmod).
  simpl eqb. simpl negb. rewrite andb_false_r.
  destruct (Z.eq_dec K 0) as [HK|HK].
  - (* less than one [c]: the quotient is a zero *)
    rewrite HK in *. simpl in Hsub.
    destruct Hsub as [[_ [s Hs]]|[? _]]; [|lia].
    rewrite Hs.
    destruct Hc as [[? _]|[_ [mc [ec [-> _]]]]]; [lia|].
    simpl div at 1. simpl nonzero. cbv iota.
    eexists. split; [reflexivity|]. simpl. apply is_units_zero.
  - assert (HKpos : 0 < K < 2 ^ 53) by nia.
    pose proof (representable_is_units _ (whole_representable K HKpos)) as Hq.
    assert (Hdiv : div (sub x (fmod x c)) c = of_units (K * 2 ^ 1074)).
    { apply (div_units _ _ _ (K * C) C (K * 2 ^ 1074)); try assumption; nia. }
    rewrite Hdiv. rewrite (is_units_nonzero _ _ Hq).
    replace (K * 2 ^ 1074 =? 0) with false by (symmetry; apply Z.eqb_neq; nia).
    simpl negb. cbv iota.
    rewrite (floor_whole _ K Hq) by lia.
    assert (Hz : is_units (sub (of_units (K * 2 ^ 1074)) (of_units (K * 2 ^ 1074)))
                   (K * 2 ^ 1074 - K * 2 ^ 1074)).
    { apply sub_units; [exact Hq | exact Hq | lia | left; lia]. }
    rewrite Z.sub_diag in Hz.
    destruct Hz as [[_ [s Hs]]|[? _]]; [|lia].
    rewrite Hs. simpl ltb. cbv iota.
    eexists. split; [reflexivity | exact Hq].
Qed.

(** *** Rounding in general: the product of two floats *)

Lemma Zdigits2_log2 (m : Z) : 0 < m -> Zdigits2 m = Z.log2 m + 1.
Proof. destruct m; try lia. intros _. apply digits2_log2. Qed.

Lemma shr_m_of_loc (m : Z) (l : location) : shr_m (shr_record_of_loc m l) = m.
Proof. destruct l as [|[| |]]; reflexivity. Qed.

Lemma shr_general (mrs : shr_record) (e n : Z) :
  0 <= shr_m mrs -> 0 <= n ->
  exists mrs', shr mrs e n = (mrs', e + n) /\
               shr_m mrs' = Z.shiftr (shr_m mrs) n.
Proof.
  intros Hm Hn. destruct n as [|p|p]; [| |lia].
  - exists mrs. simpl. rewrite Z.add_0_r. split; reflexivity.
  - exists (Pos.iter shr_1 mrs p). simpl shr. rewrite iter_pos_iter.
    split; [reflexivity|]. apply shr_m_iter. exact Hm.
Qed.

Lemma shr_of_zero (e n : Z) :
  shr_m (fst (shr (shr_record_of_loc 0 loc_Exact) e n)) = 0.
Proof.
  destruct n as [|p|p]; try reflexivity.
  simpl shr. simpl fst. rewrite iter_pos_iter.
  destruct (shr_m_iter (Build_shr_record 0 false false) p) as [H _]; [simpl; lia|].
  rewrite H. apply Z.shiftr_0_l.
Qed.

Lemma round_nearest_even_cases (m : Z) (l : location) :
  round_nearest_even m l = m \/ round_nearest_even m l = m + 1.
Proof.
  destruct l as [|[| |]]; simpl; auto. destruct (Z.even m); auto.
Qed.

Lemma log2_succ_cases (m : Z) :
  0 < m -> Z.log2 (m + 1) = Z.log2 m \/ Z.log2 (m + 1) = Z.log2 m + 1.
Proof.
  intros Hm. pose proof (Z.log2_succ_or m) as [H|H].
  - right. replace (m + 1) with (Z.succ m) by lia. lia.
  - left. replace (m + 1) with (Z.succ m) by lia. exact H.
Qed.

(** Rounding a positive mantissa that has enough digits gives a valid
    float that is not negative; it is finite when the magnitude is far
    from the overflow threshold. *)
Lemma round_aux_valid (M : positive) (E : Z) (l : location) :
  E <= Z.max (Zpos (digits2_pos M) + E - 53) (-1074) ->
  Zpos (digits2_pos M) + E <= 1000 ->
  exists u, is_units (binary_round_aux prec emax false (Zpos M) E l) u.
Proof.
  intros HE Hmag.
  set (d := Zpos (digits2_pos M)) in *.
  assert (Hd : d = Z.log2 (Zpos M) + 1) by apply digits2_log2.
  pose proof (Z.log2_nonneg (Zpos M)) as HlogM.
  set (E1 := Z.max (d + E - 53) (-1074)) in *.
  unfold binary_round_aux, shr_fexp. simpl Zdigits2. fold d.
  rewrite fexp_eq. fold E1.
  destruct (shr_general (shr_record_of_loc (Zpos M) l) E (E1 - E))
    as [mrs' [Hs1 Hm1]]; [rewrite shr_m_of_loc; lia | lia |].
  rewrite Hs1. replace (E + (E1 - E)) with E1 by lia.
  rewrite shr_m_of_loc in Hm1.
  set (m' := shr_m mrs') in *.
  rewrite Z.shiftr_div_pow2 in Hm1 by lia.
  assert (Hm'0 : 0 <= m') by (rewrite Hm1; apply Z.div_pos; [lia | apply Z.pow_pos_nonneg; lia]).
  set (m'' := round_nearest_even m' (loc_of_shr_record mrs')).
  assert (Hm'' : m'' = m' \/ m'' = m' + 1) by apply round_nearest_even_cases.
  (* the digits of the rounded mantissa *)
  assert (Hdig : m'' = 0 \/
                 (0 < m'' /\ (m' = 0 -> E1 = -1074) /\
                  (Z.log2 m'' + 1 + E1 = d + E \/
                   Z.log2 m'' + 1 + E1 = d + E + 1 \/
                   (m'' = 1 /\ E1 = -1074)))).
  { destruct (Z.eq_dec m' 0) as [H0|H0].
    - assert (HE1 : E1 = -1074).
      { assert (Hlt : Zpos M < 2 ^ (E1 - E)).
        { rewrite H0 in Hm1. symmetry in Hm1.
          apply Z.div_small_iff in Hm1; [|apply Z.pow_nonzero; lia]. lia. }
        apply Z.log2_lt_pow2 in Hlt; lia. }
      destruct Hm'' as [->| ->]; [left; exact H0|].
      right. rewrite H0. simpl. split_and!; auto; lia.
    - right. assert (Hpos : 0 < m') by lia.
      assert (Hlog : Z.log2 m' = Z.log2 (Zpos M) - (E1 - E)).
      { rewrite Hm1, <- Z.shiftr_div_pow2 by lia.
        rewrite Z.log2_shiftr by lia.
        assert (2 ^ (E1 - E) <= Zpos M).
        { destruct (Z.le_gt_cases (2 ^ (E1 - E)) (Zpos M)) as [?|Hgt]; [assumption|].
          rewrite Hm1, Z.div_small in Hpos by lia. lia. }
        apply Z.log2_le_pow2 in H; lia. }
      destruct Hm'' as [->| ->].
      + split_and!; [lia | lia | left; lia].
      + destruct (log2_succ_cases m' Hpos) as [Hl|Hl];
          (split_and!; [lia | lia |]); [left | right; left]; lia. }
  destruct Hdig as [Hz|[Hpos [_ Hcases]]].
  - (* rounded to zero *)
    rewrite Hz. simpl Zdigits2. rewrite fexp_eq.
    pose proof (shr_of_zero E1 (Z.max (0 + E1 - 53) (-1074) - E1)) as Hs2.
    destruct (shr _ E1 _) as [mrs2 e2]. simpl in Hs2. rewrite Hs2.
    exists 0. apply is_units_zero.
  - rewrite (Zdigits2_log2 m'' Hpos), fexp_eq.
    set (D := Z.log2 m'' + 1 + E1) in *.
    set (Ef := Z.max (D - 53) (-1074)).
    pose proof (Z.log2_nonneg m'') as Hlog0.
    assert (Hn2 : 0 <= Ef - E1 <= 1 /\ (Ef - E1 = 1 -> 1 <= Z.log2 m'')).
    { subst Ef. destruct Hcases as [HD|[HD|[H1 HE1]]].
      - rewrite HD. fold E1. lia.
      - rewrite HD. subst E1. split; [lia|]. intros Hone.
        destruct (Z.eq_dec (Z.log2 m'') 0) as [Hl0|]; [|lia].
        subst D. lia.
      - subst D. rewrite H1, HE1. simpl. lia. }
    destruct Hn2 as [Hn2 Hbig].
    destruct (shr_general (shr_record_of_loc m'' loc_Exact) E1 (Ef - E1))
      as [mrs2 [Hs2 Hm2]]; [simpl; lia | lia |].
    rewrite Hs2, Hm2. simpl shr_m.
    replace (E1 + (Ef - E1)) with Ef by lia.
    rewrite Z.shiftr_div_pow2 by lia.
    set (mf := m'' / 2 ^ (Ef - E1)).
    assert (Hlogf : 0 < mf /\ Z.log2 mf = Z.log2 m'' - (Ef - E1)).
    { subst mf. destruct (Z.eq_dec (Ef - E1) 0) as [H0|H0].
      - rewrite H0. simpl (2 ^ 0). rewrite Z.div_1_r. lia.
      - assert (H1 : Ef - E1 = 1) by lia. rewrite H1.
        assert (Hge : 2 ^ 1 <= m'') by (apply Z.log2_le_pow2; [lia | apply Hbig, H1]).
        split.
        + apply Z.div_str_pos. simpl in Hge. simpl. lia.
        + rewrite <- Z.shiftr_div_pow2, Z.log2_shiftr by lia.
          specialize (Hbig H1). lia. }
    destruct Hlogf as [Hmf Hlogf].
    destruct mf as [|mp|mp] eqn:Emf; try lia.
    change (emax - prec) with 971.
    assert (HEf : Ef <= 971) by lia.
    replace (Ef <=? 971) with true by (symmetry; apply Z.leb_le; exact HEf).
    assert (Hb : bounded prec emax mp Ef = true).
    { apply bounded_spec. rewrite digits2_log2, Hlogf. split; [|exact HEf].
      subst Ef D. lia. }
    exists (Zpos mp * 2 ^ (Ef + 1074)). right. split.
    + apply Z.mul_pos_pos; [lia | apply Z.pow_pos_nonneg; lia].
    + exists mp, Ef. auto.
Qed.

Lemma mul_units (x c : float) (X C k : Z) :
  is_units x X -> is_units c C -> 0 < C ->
  2 ^ 52 <= C < 2 ^ (k + 1074) -> X < 2 ^ (k + 1074) -> 0 <= k <= 490 ->
  exists Y, is_units (mul x c) Y.
Proof.
  intros Hx Hc HC [HCn HCk] HXk Hk.
  destruct Hc as [[? _]|[_ [mc [ec [-> [Hbc Hvc]]]]]]; [lia|].
  destruct Hx as [[-> [s ->]]|[HX [mx [ex [-> [Hbx Hvx]]]]]].
  - exists 0. simpl. apply is_units_zero.
  - pose proof (bounded_range _ _ Hbx) as [Hex Hmx].
    pose proof (bounded_range _ _ Hbc) as [Hec Hmc].
    unfold mul, SFmul. simpl xorb.
    pose proof (Z.log2_nonneg (Zpos mx)) as Hlx.
    (* magnitudes of the two factors *)
    assert (Lx : Z.log2 (Zpos mx) + ex + 1074 < k + 1074).
    { assert (H : Z.log2 (Zpos mx * 2 ^ (ex + 1074)) = ex + 1074 + Z.log2 (Zpos mx))
        by (apply Z.log2_mul_pow2; lia).
      rewrite Hvx in H. apply Z.log2_lt_pow2 in HXk; lia. }
    assert (Lc : 52 <= Z.log2 (Zpos mc) + ec + 1074 < k + 1074).
    { assert (H : Z.log2 (Zpos mc * 2 ^ (ec + 1074)) = ec + 1074 + Z.log2 (Zpos mc))
        by (apply Z.log2_mul_pow2; lia).
      rewrite Hvc in H. apply Z.log2_lt_pow2 in HCk; [|lia].
      apply Z.log2_le_pow2 in HCn; lia. }
    assert (Hc53 : Z.log2 (Zpos mc) = 52).
    { apply bounded_spec in Hbc. destruct Hbc as [Hcan _].
      rewrite digits2_log2 in Hcan. lia. }
    assert (Lm : Z.log2 (Zpos mx) + Z.log2 (Zpos mc)
                 <= Z.log2 (Zpos (mx * mc))
                 <= Z.log2 (Zpos mx) + Z.log2 (Zpos mc) + 1).
    { rewrite Pos2Z.inj_mul. split.
      - apply Z.log2_mul_below; lia.
      - apply Z.log2_mul_above; lia. }
    apply round_aux_valid; rewrite digits2_log2; lia.
Qed.

(** *** The constants of the timestamp *)

Lemma sec_pos : 0 < sec.
Proof. unfold sec. apply Z.pow_pos_nonneg; lia. Qed.

Lemma of_int_units (n : Z) : 0 < n < 2 ^ 53 -> is_units (of_int n) (n * 2 ^ 1074).
Proof.
  intros Hn.
  pose proof (representable_is_units _ (whole_representable n Hn)) as H.
  destruct H as [[H0 _]|[Hpos [m [e [Hof [Hb Hv]]]]]].
  { pose proof sec_pos. unfold sec in *. nia. }
  right. split; [exact Hpos|]. exists m, e. split_and!; try assumption.
  unfold of_int. destruct n as [|np|np]; try lia.
  apply normalize_exact; [exact Hb | lia |]. rewrite Hv. reflexivity.
Qed.

Lemma c3600_units : is_units c3600 (3600 * 2 ^ 1074).
Proof. apply of_int_units. split; [lia | reflexivity]. Qed.

Lemma c60_units : is_units c60 (60 * 2 ^ 1074).
Proof. apply of_int_units. split; [lia | reflexivity]. Qed.

Lemma c1000_units : is_units c1000 (1000 * 2 ^ 1074).
Proof. apply of_int_units. split; [lia | reflexivity]. Qed.

(** *** The four fields of a timestamp *)

Lemma valid_nonneg_units (t : float) :
  valid t = true -> nonneg t = true -> is_units t (units t).
Proof.
  intros Hv Hn. destruct t as [s|s| |s m e]; try discriminate.
  - apply is_units_zero.
  - destruct s; [discriminate|]. simpl in Hv.
    pose proof (bounded_range _ _ Hv) as [He _].
    rewrite units_finite by lia. right. split.
    + apply Z.mul_pos_pos; [lia | apply Z.pow_pos_nonneg; lia].
    + exists m, e. auto.
Qed.

Lemma div_scale (T n : Z) :
  0 < n -> T / (n * 2 ^ 1074) = T / 2 ^ 1074 / n.
Proof.
  intros Hn. pose proof sec_pos as Hs. unfold sec in Hs.
  rewrite Z.div_div by lia. f_equal. apply Z.mul_comm.
Qed.

Lemma mod_scale (T n : Z) :
  0 < n -> T mod (n * 2 ^ 1074) / 2 ^ 1074 = (T / 2 ^ 1074) mod n.
Proof.
  intros Hn. pose proof sec_pos as Hs. unfold sec in Hs.
  rewrite (Z.mul_comm n), Z.rem_mul_r by lia.
  rewrite Z.add_comm, (Z.mul_comm (2 ^ 1074)), Z.div_add_l by lia.
  rewrite (Z.div_small (T mod 2 ^ 1074)); [lia|]. apply Z.mod_pos_bound. lia.
Qed.

Section Fields.
Variable t : float.
Variable T : Z.
Hypothesis Ht : is_units t T.
Hypothesis Hlt : T < 2 ^ 53 * 2 ^ 1074.

Let s := T / 2 ^ 1074.

Lemma seconds_range : 0 <= s < 2 ^ 53.
Proof using All.
  pose proof sec_pos as Hs. unfold sec in Hs.
  pose proof (is_units_nonneg _ _ Ht) as H0. subst s. split.
  - apply Z.div_pos; lia.
  - apply Z.div_lt_upper_bound; lia.
Qed.

Lemma hours_value : hours t = Ok (s / 3600).
Proof using All.
  pose proof seconds_range as Hr.
  assert (Hq : T / (3600 * 2 ^ 1074) = s / 3600) by (apply div_scale; lia).
  destruct (float_floor_div_units t c3600 T 3600 Ht c3600_units) as [q [Hq1 Hq2]];
    [lia | |].
  { rewrite Hq.
    assert (s / 3600 * 3600 <= s).
    { rewrite Z.mul_comm. apply Z.mul_div_le. lia. }
    lia. }
  unfold hours. rewrite Hq1. simpl rbind.
  rewrite (int_of_float_units _ _ Hq2), Hq.
  pose proof sec_pos as Hs. unfold sec in Hs.
  rewrite Z.div_mul by lia. reflexivity.
Qed.

Lemma minutes_value : minutes t = Ok (s mod 3600 / 60).
Proof using All.
  pose proof seconds_range as Hr.
  pose proof sec_pos as Hs. unfold sec in Hs.
  destruct (float_rem_units t c3600 T (3600 * 2 ^ 1074) Ht c3600_units)
    as [r [Hr1 Hr2]]; [lia|].
  assert (Hq : T mod (3600 * 2 ^ 1074) / (60 * 2 ^ 1074) = s mod 3600 / 60).
  { rewrite div_scale by lia. rewrite mod_scale by lia. reflexivity. }
  destruct (float_floor_div_units r c60 _ 60 Hr2 c60_units) as [q [Hq1 Hq2]];
    [lia | |].
  { rewrite Hq.
    assert (s mod 3600 / 60 < 60).
    { apply Z.div_lt_upper_bound; [lia|].
      pose proof (Z.mod_pos_bound s 3600 ltac:(lia)). lia. }
    assert (0 <= s mod 3600 / 60).
    { apply Z.div_pos; [|lia]. apply Z.mod_pos_bound. lia. }
    assert (2 ^ 53 = 9007199254740992) by reflexivity. lia. }
  unfold minutes. rewrite Hr1. simpl rbind. rewrite Hq1. simpl rbind.
  rewrite (int_of_float_units _ _ Hq2), Hq.
  rewrite Z.div_mul by lia. reflexivity.
Qed.

Lemma seconds_value : seconds t = Ok (s mod 60).
Proof using All.
  pose proof sec_pos as Hs. unfold sec in Hs.
  destruct (float_rem_units t c60 T (60 * 2 ^ 1074) Ht c60_units)
    as [r [Hr1 Hr2]]; [lia|].
  unfold seconds. rewrite Hr1. simpl rbind.
  rewrite (int_of_float_units _ _ Hr2), mod_scale by lia. reflexivity.
Qed.

Lemma millis_value : millis t = Ok (units (mul t c1000) / 2 ^ 1074 mod 1000).
Proof using All.
  pose proof sec_pos as Hs. unfold sec in Hs.
  assert (Hy : exists Y, is_units (mul t c1000) Y).
  { apply (mul_units t c1000 T (1000 * 2 ^ 1074) 53 Ht c1000_units).
    - lia.
    - split.
      + assert (H1 : 2 ^ 52 <= 2 ^ 1074) by (apply Z.pow_le_mono_r; lia). lia.
      + rewrite Z.pow_add_r by lia.
        assert (2 ^ 53 = 9007199254740992) by reflexivity. lia.
    - rewrite Z.pow_add_r by lia. exact Hlt.
    - lia. }
  destruct Hy as [Y HY].
  rewrite (is_units_units _ _ HY).
  destruct (float_rem_units _ c1000 Y (1000 * 2 ^ 1074) HY c1000_units)
    as [r [Hr1 Hr2]]; [lia|].
  unfold millis. rewrite Hr1. simpl rbind.
  rewrite (int_of_float_units _ _ Hr2), mod_scale by lia. reflexivity.
Qed.

End Fields.

(** *** Zero-padded fields *)

Lemma format_zero_table (w : nat) (f : Z -> str) (bound : nat) :
  forallb (fun k => bool_decide (format_zero w (Z.of_nat k) = f (Z.of_nat k)))
    (seq 0 bound) = true ->
  forall n, 0 <= n < Z.of_nat bound -> format_zero w n = f n.
Proof.
  intros Htab n Hn. rewrite forallb_forall in Htab.
  specialize (Htab (Z.to_nat n)).
  rewrite Z2Nat.id in Htab by lia.
  eapply bool_decide_eq_true_1. apply Htab.
  apply in_seq. lia.
Qed.

Lemma format_zero_2 (n : Z) : 0 <= n < 100 -> format_zero 2 n = two_digits n.
Proof.
  intros Hn. apply (format_zero_table 2 two_digits 100); [|lia].
  vm_compute. reflexivity.
Qed.

Lemma format_zero_3 (n : Z) : 0 <= n < 1000 -> format_zero 3 n = three_digits n.
Proof.
  intros Hn. apply (format_zero_table 3 three_digits 1000); [|lia].
  vm_compute. reflexivity.
Qed.

(** *** Timestamps *)

Lemma is_time_units (t : float) :
  is_time t -> is_units t (units t) /\ units t < 2 ^ 53 * 2 ^ 1074.
Proof.
  intros [Hv [Hn Hlt]]. split; [apply valid_nonneg_units; assumption | exact Hlt].
Qed.

Lemma below_100h_is_time (t : float) : below_100h t -> is_time t.
Proof.
  intros [Hv [Hn Hlt]]. split_and!; try assumption.
  pose proof sec_pos as Hs. unfold sec in Hs.
  assert (2 ^ 53 = 9007199254740992) by reflexivity. nia.
Qed.

Lemma stamp_fields_range (t : float) :
  is_time t ->
  let '(h, m, s, ms) := stamp_fields t in
  0 <= h /\ 0 <= m < 60 /\ 0 <= s < 60 /\ 0 <= ms < 1000 /\
  (below_100h t -> h < 100).
Proof.
  intros Ht. destruct (is_time_units t Ht) as [Hu Hlt].
  pose proof (seconds_range t (units t) Hu Hlt) as Hs. simpl in Hs.
  unfold stamp_fields, whole_seconds.
  set (s := units t / 2 ^ 1074) in *.
  pose proof (Z.mod_pos_bound s 3600 ltac:(lia)) as H3600.
  split_and!.
  - apply Z.div_pos; lia.
  - apply Z.div_pos; lia.
  - apply Z.div_lt_upper_bound; lia.
  - apply Z.mod_pos_bound; lia.
  - apply Z.mod_pos_bound; lia.
  - apply Z.mod_pos_bound; lia.
  - apply Z.mod_pos_bound; lia.
  - intros [_ [_ Hb]]. apply Z.div_lt_upper_bound; [lia|].
    subst s. apply Z.div_lt_upper_bound; [apply sec_pos|].
    unfold sec. lia.
Qed.

(** The f-string of [save_srt_segments] on a time. *)
Lemma time_str_value (t : float) : is_time t -> time_str t = Ok (stamp t).
Proof.
  intros Ht. pose proof (stamp_fields_range t Ht) as Hr.
  destruct (is_time_units t Ht) as [Hu Hlt].
  unfold time_str.
  rewrite (hours_value t _ Hu Hlt), (minutes_value t _ Hu Hlt),
          (seconds_value t _ Hu Hlt), (millis_value t _ Hu Hlt).
  simpl rbind. unfold stamp, stamp_fields in *.
  fold (whole_seconds t). fold (whole_millis t).
  destruct Hr as (_ & Hm & Hs & Hms & _).
  rewrite (format_zero_2 (whole_seconds t mod 3600 / 60)) by lia.
  rewrite (format_zero_2 (whole_seconds t mod 60)) by lia.
  rewrite (format_zero_3 (whole_millis t mod 1000)) by lia.
  reflexivity.
Qed.

Lemma stamp_below_100h (t : float) : below_100h t -> stamp t = hh_mm_ss_mmm t.
Proof.
  intros Hb. pose proof (stamp_fields_range t (below_100h_is_time t Hb)) as Hr.
  unfold stamp, hh_mm_ss_mmm. destruct (stamp_fields t) as [[[h m] s] ms].
  destruct Hr as (Hh & _ & _ & _ & Hlt).
  rewrite format_zero_2 by (specialize (Hlt Hb); lia). reflexivity.
Qed.

Lemma block_value (idx : Z) (seg : segment) :
  times_ok seg -> block idx seg = Ok (block_text idx seg).
Proof.
  destruct seg as [[start end_] text]. intros [Hs He]. simpl in Hs, He.
  unfold block. rewrite (time_str_value start Hs), (time_str_value end_ He).
  reflexivity.
Qed.

(** *** What the writer hands to the encoder *)

Lemma digits_fuel_ascii (fuel : nat) :
  forall n, Forall (fun c => (c < 128)%N) (digits_fuel fuel n).
Proof.
  induction fuel as [|f IH]; intros n; simpl; [constructor|].
  destruct (n <? 10) eqn:E.
  - apply Z.ltb_lt in E. constructor; [lia | constructor].
  - apply Forall_app. split; [apply IH|].
    pose proof (Z.mod_pos_bound n 10 ltac:(lia)).
    constructor; [lia | constructor].
Qed.

Lemma repeat_ascii (c : char) (n : nat) :
  (c < 128)%N -> Forall (fun c => (c < 128)%N) (repeat c n).
Proof. intros H. induction n; simpl; constructor; assumption. Qed.

Lemma lit_minus_ascii : Forall (fun c => (c < 128)%N) (lit "-").
Proof. repeat constructor. Qed.

Lemma str_of_int_ascii (n : Z) : Forall (fun c => (c < 128)%N) (str_of_int n).
Proof.
  unfold str_of_int, digits. destruct (n <? 0).
  - apply Forall_app. split; [apply lit_minus_ascii | apply digits_fuel_ascii].
  - apply digits_fuel_ascii.
Qed.

Lemma format_zero_ascii (w : nat) (n : Z) :
  Forall (fun c => (c < 128)%N) (format_zero w n).
Proof.
  unfold format_zero, digits. destruct (n <? 0).
  - apply Forall_app. split; [apply lit_minus_ascii|].
    apply Forall_app. split; [|apply digits_fuel_ascii].
    apply repeat_ascii. reflexivity.
  - apply Forall_app. split; [|apply digits_fuel_ascii].
    apply repeat_ascii. reflexivity.
Qed.

Lemma digit_ascii (k : Z) : 0 <= k < 10 -> (digit k < 128)%N.
Proof. intros H. unfold digit. lia. Qed.

Lemma two_digits_ascii (n : Z) :
  0 <= n < 100 -> Forall (fun c => (c < 128)%N) (two_digits n).
Proof.
  intros H. unfold two_digits.
  pose proof (Z.mod_pos_bound n 10 ltac:(lia)).
  assert (0 <= n / 10 < 10)
    by (split; [apply Z.div_pos; lia | apply Z.div_lt_upper_bound; lia]).
  repeat constructor; apply digit_ascii; lia.
Qed.

Lemma three_digits_ascii (n : Z) :
  0 <= n < 1000 -> Forall (fun c => (c < 128)%N) (three_digits n).
Proof.
  intros H. unfold three_digits.
  pose proof (Z.mod_pos_bound n 10 ltac:(lia)).
  pose proof (Z.mod_pos_bound (n / 10) 10 ltac:(lia)).
  assert (0 <= n / 100 < 10)
    by (split; [apply Z.div_pos; lia | apply Z.div_lt_upper_bound; lia]).
  repeat constructor; apply digit_ascii; lia.
Qed.

Lemma stamp_ascii (t : float) :
  is_time t -> Forall (fun c => (c < 128)%N) (stamp t).
Proof.
  intros Ht. pose proof (stamp_fields_range t Ht) as Hr.
  unfold stamp. destruct (stamp_fields t) as [[[h m] sec_] ms].
  destruct Hr as (_ & Hm & Hs & Hms & _).
  repeat (apply Forall_app; split);
    try apply format_zero_ascii; try (apply two_digits_ascii; lia);
    try (apply three_digits_ascii; lia); repeat constructor.
Qed.

Lemma block_text_encodable (idx : Z) (seg : segment) :
  times_ok seg -> encodable (snd seg) = true ->
  encodable (block_text idx seg) = true.
Proof.
  destruct seg as [[start end_] text]. intros [Hs He] Ht. simpl in Hs, He, Ht.
  unfold block_text. rewrite !encodable_app, Ht.
  rewrite (encodable_ascii _ (str_of_int_ascii idx)).
  rewrite (encodable_ascii _ (stamp_ascii start Hs)).
  rewrite (encodable_ascii _ (stamp_ascii end_ He)).
  reflexivity.
Qed.

Lemma write_blocks_value (segments : list segment) (output_srt : path) :
  Forall times_ok segments -> texts_encodable segments ->
  forall (idx : Z) (acc : str) (st : fs),
    st !! output_srt = Some (Raw acc) ->
    write_blocks idx segments output_srt st
    = (Ok tt, <[output_srt := Raw (acc ++ srt_text idx segments)]> st).
Proof.
  induction segments as [|seg rest IH]; intros Ht He idx acc st Hst.
  - simpl. rewrite app_nil_r. unfold fs, path, str, char in *.
    rewrite insert_id by exact Hst. reflexivity.
  - inversion Ht as [|? ? Hseg Hrest]; subst.
    inversion He as [|? ? Heseg Herest]; subst.
    simpl write_blocks. rewrite (block_value idx seg Hseg).
    unfold Ok. cbv beta iota. unfold bind.
    rewrite (write_ok output_srt (block_text idx seg) acc st
               (block_text_encodable idx seg Hseg Heseg) Hst).
    unfold Ok. cbv beta iota.
    rewrite (IH Hrest Herest (idx + 1) (acc ++ block_text idx seg)).
    + unfold fs, path, str, char in *.
      rewrite insert_insert_eq. simpl srt_text. rewrite app_assoc. reflexivity.
    + unfold fs, path, str, char in *. apply lookup_insert_eq.
Qed.

Lemma save_srt_segments_value (segments : list segment) (output_srt : path)
    (st : fs) :
  Forall times_ok segments -> texts_encodable segments ->
  can_write st output_srt ->
  save_srt_segments segments output_srt st
  = (Ok tt, <[output_srt := Raw (srt_text 1 segments)]> st).
Proof.
  intros Ht He Hw. unfold save_srt_segments. unfold bind.
  rewrite (makedirs_ok st output_srt Hw). unfold Ok. cbv beta iota.
  rewrite (open_w_ok st output_srt Hw). unfold Ok. cbv beta iota.
  rewrite (write_blocks_value segments output_srt Ht He 1 []).
  - unfold fs, path, str, char in *. rewrite insert_insert_eq. reflexivity.
  - unfold fs, path, str, char in *. apply lookup_insert_eq.
Qed.

Lemma t_3725_4_nearest :
  valid t_3725_4 = true /\
  Z.abs (10 * 8192241236233421 - 37254 * 2 ^ 41) <= 5.
Proof. split; [reflexivity | vm_compute; discriminate]. Qed.

(** The milliseconds are cut, not rounded: 1.9996 is written with 999
    milliseconds. They are cut from the float product: 1.001 * 1000 is
    1000.9999999999999 and gives 000, 0.57 * 1000 is 570.0 and gives 570. *)
Example millis_are_cut :
  time_str (S754_finite false 9005397814890044 (-52)) = Ok (lit "00:00:01,999") /\
  time_str (S754_finite false 4508103226997866 (-52)) = Ok (lit "00:00:01,000") /\
  time_str (S754_finite false 5134103575202365 (-53)) = Ok (lit "00:00:00,570").
Proof. vm_compute. split_and!; reflexivity. Qed.

(** *** C1: the timestamp line *)

(** From a hundred hours on the hour field takes three digits: the
    format [:02] is a minimum width. *)
Example hour_field_of_100_hours :
  valid (of_int 360000) = true /\ nonneg (of_int 360000) = true /\
  ltb (of_int 360001) (of_int 360000) = false /\
  block 1 (of_int 360000, of_int 360001, lit "late")
  = Ok (lit "1
100:00:00,000 --> 100:00:01,000
late

").
Proof. vm_compute. split_and!; reflexivity. Qed.

(** C1, counterexample. The milliseconds are not the truncated
    fractional-second remainder. The binary64 nearest to 2.57 lies below
    2.57; its remainder over the whole seconds, times 1000, is below 570,
    and truncates to 569, whether it is computed exactly or in floats as
    [int((t % 1) * 1000)]. The code multiplies the time itself by 1000,
    which rounds to 2570.0, and writes 570. *)
Lemma millis_are_not_the_cut_remainder :
  let t := S754_finite false 5787125521171087 (-51) in
  valid t = true /\
  Z.abs (100 * 5787125521171087 - 257 * 2 ^ 51) <= 50 /\
  100 * 5787125521171087 < 257 * 2 ^ 51 /\
  (5787125521171087 - 2 * 2 ^ 51) * 1000 / 2 ^ 51 = 569 /\
  rbind (float_rem t one) (fun r => int_of_float (mul r c1000)) = Ok 569 /\
  time_str t = Ok (lit "00:00:02,570").
Proof. vm_compute. split_and!; first [reflexivity | discriminate]. Qed.

(** C1, as the code has it. For a segment whose start and end are not
    negative and under a hundred hours, the loop writes the index line,
    the line [HH:MM:SS,mmm --> HH:MM:SS,mmm], the text and an empty line.
    Each timestamp has two digits of hours, minutes and seconds of the
    whole seconds and three digits of milliseconds; the milliseconds are
    the float product [t * 1000], cut to its whole part, modulo 1000.
    The time 3725.4 is written [01:02:05,400]. *)
Theorem srt_timestamp_line :
  forall (idx : Z) (start end_ : float) (text : str),
    below_100h start -> below_100h end_ ->
    block idx (start, end_, text)
    = Ok (str_of_int idx ++ newline
          ++ hh_mm_ss_mmm start ++ lit " --> " ++ hh_mm_ss_mmm end_ ++ newline
          ++ text ++ newline ++ newline) /\
    (forall t, t = start \/ t = end_ ->
       time_str t = Ok (hh_mm_ss_mmm t) /\
       let '(h, m, s, ms) := stamp_fields t in
       0 <= h < 100 /\ 0 <= m < 60 /\ 0 <= s < 60 /\ 0 <= ms < 1000 /\
       h = whole_seconds t / 3600 /\
       m = whole_seconds t / 60 mod 60 /\
       s = whole_seconds t mod 60 /\
       ms = whole_millis t mod 1000) /\
    time_str t_3725_4 = Ok (lit "01:02:05,400").
Proof.
  intros idx start end_ text Hs He.
  assert (Hone : forall t, below_100h t ->
            time_str t = Ok (hh_mm_ss_mmm t) /\
            let '(h, m, s, ms) := stamp_fields t in
            0 <= h < 100 /\ 0 <= m < 60 /\ 0 <= s < 60 /\ 0 <= ms < 1000 /\
            h = whole_seconds t / 3600 /\
            m = whole_seconds t / 60 mod 60 /\
            s = whole_seconds t mod 60 /\
            ms = whole_millis t mod 1000).
  { intros t Hb. pose proof (below_100h_is_time t Hb) as Ht.
    split.
    - rewrite (time_str_value t Ht). f_equal. apply stamp_below_100h, Hb.
    - pose proof (stamp_fields_range t Ht) as Hr.
      unfold stamp_fields in *.
      destruct Hr as (Hh & Hm & Hsec & Hms & Hlt). specialize (Hlt Hb).
      split_and!; try lia; try reflexivity.
      change 3600 with (60 * 60).
      rewrite (Z.rem_mul_r (whole_seconds t) 60 60) by lia.
      rewrite Z.add_comm, Z.mul_comm, Z.div_add_l by lia.
      rewrite (Z.div_small (whole_seconds t mod 60)); [lia|].
      apply Z.mod_pos_bound. lia. }
  split_and!.
  - rewrite (block_value idx (start, end_, text)).
    + unfold block_text.
      rewrite (stamp_below_100h start Hs), (stamp_below_100h end_ He).
      reflexivity.
    + split; apply below_100h_is_time; assumption.
  - intros t [->| ->]; apply Hone; assumption.
  - vm_compute. reflexivity.
Qed.

Lemma srt_timestamp_line_witness :
  block 7 (t_3725_4, of_int 3730, lit "Hello.")
  = Ok (lit "7
01:02:05,400 --> 01:02:10,000
Hello.

").
Proof.
  assert (Hs : below_100h t_3725_4)
    by (split_and!; vm_compute; reflexivity).
  assert (He : below_100h (of_int 3730))
    by (split_and!; vm_compute; reflexivity).
  destruct (srt_timestamp_line 7 t_3725_4 (of_int 3730) (lit "Hello.") Hs He)
    as [Hblock _].
  rewrite Hblock. vm_compute. reflexivity.
Defined.

(** *** C7: no check of the order of start and end *)

(** C7, counterexample. A segment that ends before it starts is
    encoded: no error is raised and the two timestamps are written as
    they are. *)
Lemma end_before_start_is_encoded :
  ltb (of_int 1) (of_int 2) = true /\
  fst (save_srt_segments [(of_int 2, of_int 1, lit "hi")]
         (lit "subs/out.srt") ∅)
  = Ok tt /\
  snd (save_srt_segments [(of_int 2, of_int 1, lit "hi")]
         (lit "subs/out.srt") ∅)
    !! lit "subs/out.srt"
  = Some (Raw (lit "1
00:00:02,000 --> 00:00:01,000
hi

")).
Proof. vm_compute. split_and!; reflexivity. Qed.

(** C7, as the code has it. [save_srt_segments] never compares the end
    of a segment with its start. For every list of segments whose starts
    and ends are valid floats, not negative and below [2^53] seconds, in
    whatever order, and whose texts UTF-8 can encode, written to a path
    that can be written, it returns without raising and the file holds
    the blocks of the segments, numbered from 1, each with its two
    timestamps as given. *)
Theorem srt_encoding_succeeds :
  forall (segments : list segment) (output_srt : path) (st : fs),
    Forall times_ok segments ->
    texts_encodable segments ->
    can_write st output_srt ->
    save_srt_segments segments output_srt st
    = (Ok tt, <[output_srt := Raw (srt_text 1 segments)]> st).
Proof.
  intros segments output_srt st H He Hw.
  apply save_srt_segments_value; assumption.
Qed.

Lemma srt_encoding_succeeds_witness :
  save_srt_segments [(of_int 2, of_int 1, lit "hi")] (lit "subs/out.srt") ∅
  = (Ok tt,
     <[lit "subs/out.srt" :=
         Raw (srt_text 1 [(of_int 2, of_int 1, lit "hi")])]> ∅).
Proof.
  apply srt_encoding_succeeds.
  - constructor; [|constructor].
    split; (split_and!; vm_compute; reflexivity).
  - repeat constructor.
  - apply can_write_empty; vm_compute; discriminate.
Defined.

(** ** More on the SRT and text writers *)

Lemma write_lines_value (segments : list segment) (output_txt : path) :
  texts_encodable segments ->
  forall (acc : str) (st : fs),
    st !! output_txt = Some (Raw acc) ->
    write_lines segments output_txt st
    = (Ok tt, <[output_txt := Raw (acc ++ txt_text segments)]> st).
Proof.
  induction 1 as [|seg rest Hseg _ IH]; intros acc st Hst.
  - simpl. unfold txt_text. simpl. rewrite app_nil_r.
    unfold fs, path, str, char in *. rewrite insert_id by exact Hst. reflexivity.
  - simpl write_lines. unfold bind.
    rewrite (write_ok output_txt (snd seg ++ newline) acc st);
      [|rewrite encodable_app, Hseg; reflexivity | exact Hst].
    unfold Ok. cbv beta iota.
    rewrite (IH (acc ++ snd seg ++ newline)).
    + unfold fs, path, str, char in *. rewrite insert_insert_eq.
      unfold txt_text. simpl. rewrite <- !app_assoc. reflexivity.
    + unfold fs, path, str, char in *. apply lookup_insert_eq.
Qed.

Lemma save_txt_segments_value (segments : list segment) (output_txt : path)
    (st : fs) :
  texts_encodable segments -> can_write st output_txt ->
  save_txt_segments segments output_txt st
  = (Ok tt, <[output_txt := Raw (txt_text segments)]> st).
Proof.
  intros He Hw. unfold save_txt_segments. unfold bind.
  rewrite (makedirs_ok st output_txt Hw). unfold Ok. cbv beta iota.
  rewrite (open_w_ok st output_txt Hw). unfold Ok. cbv beta iota.
  rewrite (write_lines_value segments output_txt He []).
  - unfold fs, path, str, char in *. rewrite insert_insert_eq. reflexivity.
  - unfold fs, path, str, char in *. apply lookup_insert_eq.
Qed.

(** X1. For texts UTF-8 can encode and a path that can be written,
    [save_txt_segments] returns and the file it leaves holds exactly the
    texts of the segments in order, each followed by a newline (an earlier
    content of the file is replaced). For a path without directory part
    it raises [FileNotFoundError], from [os.makedirs('')], and writes
    nothing. *)
Theorem txt_file_content :
  forall (segments : list segment) (output_txt : path) (st : fs),
    (texts_encodable segments -> can_write st output_txt ->
     save_txt_segments segments output_txt st
     = (Ok tt, <[output_txt := Raw (txt_text segments)]> st)) /\
    (dirname output_txt = [] ->
     save_txt_segments segments output_txt st = (Raise FileNotFoundError, st)).
Proof.
  intros segments output_txt st. split.
  - intros He Hw. apply save_txt_segments_value; assumption.
  - intros Hd. unfold save_txt_segments, bind.
    rewrite (makedirs_no_directory st output_txt Hd). reflexivity.
Qed.

Lemma txt_file_content_witness :
  save_txt_segments [(of_int 0, of_int 2, lit "a"); (of_int 2, of_int 3, lit "b")]
    (lit "subs/out.txt") ∅
  = (Ok tt, <[lit "subs/out.txt" := Raw (lit "a
b
")]> ∅) /\
  save_txt_segments [(of_int 0, of_int 2, lit "a")] (lit "out.txt") ∅
  = (Raise FileNotFoundError, ∅).
Proof.
  split.
  - apply (txt_file_content
             [(of_int 0, of_int 2, lit "a"); (of_int 2, of_int 3, lit "b")]
             (lit "subs/out.txt") ∅).
    + repeat constructor.
    + apply can_write_empty; vm_compute; discriminate.
  - apply (txt_file_content [(of_int 0, of_int 2, lit "a")] (lit "out.txt") ∅).
    reflexivity.
Defined.

Lemma srt_text_imap (segments : list segment) :
  forall idx : Z,
    srt_text idx segments
    = concat (imap (fun i seg => block_text (idx + Z.of_nat i) seg) segments).
Proof.
  induction segments as [|seg rest IH]; intros idx; [reflexivity|].
  simpl srt_text. rewrite imap_cons. simpl concat.
  rewrite Z.add_0_r. f_equal. rewrite IH. f_equal.
  apply imap_ext. intros i x _. simpl. f_equal. lia.
Qed.

(** X2. The blocks of an SRT file are numbered 1, 2, 3, ... in the order
    of the list: for times and texts that can be written, on a path that
    can be written, the file is the concatenation of the blocks of the
    segments, the segment at position [i] (from 0) carrying the index
    [i + 1]. *)
Theorem srt_blocks_are_numbered_from_1 :
  forall (segments : list segment) (output_srt : path) (st : fs),
    Forall times_ok segments ->
    texts_encodable segments ->
    can_write st output_srt ->
    save_srt_segments segments output_srt st
    = (Ok tt,
       <[output_srt :=
           Raw (concat (imap (fun i seg => block_text (Z.of_nat i + 1) seg)
                          segments))]> st).
Proof.
  intros segments output_srt st H He Hw.
  rewrite (save_srt_segments_value segments output_srt st H He Hw).
  rewrite srt_text_imap. do 4 f_equal.
  apply imap_ext. intros i x _. simpl. f_equal. lia.
Qed.

Lemma srt_blocks_are_numbered_from_1_witness :
  save_srt_segments [(of_int 0, of_int 2, lit "a"); (of_int 2, of_int 3, lit "b")]
    (lit "subs/out.srt") ∅
  = (Ok tt,
     <[lit "subs/out.srt" :=
         Raw (concat (imap (fun i seg => block_text (Z.of_nat i + 1) seg)
                [(of_int 0, of_int 2, lit "a"); (of_int 2, of_int 3, lit "b")]))]>
       ∅).
Proof.
  apply srt_blocks_are_numbered_from_1.
  - repeat constructor; vm_compute; reflexivity.
  - repeat constructor.
  - apply can_write_empty; vm_compute; discriminate.
Defined.

Lemma time_str_not_finite (t : float) :
  not_finite t = true -> time_str t = Raise ValueError.
Proof.
  destruct t as [s|s| |s m e]; try discriminate; intros _.
  - destruct s; vm_compute; reflexivity.
  - vm_compute. reflexivity.
Qed.

Lemma block_unwritable (idx : Z) (seg : segment) :
  unwritable seg -> block idx seg = Raise ValueError.
Proof.
  destruct seg as [[start end_] text]. unfold unwritable. simpl.
  intros [Hs|[Hs He]]; unfold block.
  - rewrite (time_str_not_finite start Hs). reflexivity.
  - rewrite (time_str_value start Hs), (time_str_not_finite end_ He). reflexivity.
Qed.

Lemma write_blocks_app (good rest : list segment) (output_srt : path) :
  Forall times_ok good -> texts_encodable good ->
  forall (idx : Z) (acc : str) (st : fs),
    st !! output_srt = Some (Raw acc) ->
    write_blocks idx (good ++ rest) output_srt st
    = write_blocks (idx + len good) rest output_srt
        (<[output_srt := Raw (acc ++ srt_text idx good)]> st).
Proof.
  induction good as [|seg good IH]; intros Ht He idx acc st Hst.
  - simpl. rewrite app_nil_r. unfold len. simpl. rewrite Z.add_0_r.
    unfold fs, path, str, char in *. rewrite insert_id by exact Hst. reflexivity.
  - inversion Ht as [|? ? Hseg Hgood]; subst.
    inversion He as [|? ? Heseg Hegood]; subst.
    simpl app. simpl write_blocks. rewrite (block_value idx seg Hseg).
    unfold Ok. cbv beta iota. unfold bind.
    rewrite (write_ok output_srt (block_text idx seg) acc st
               (block_text_encodable idx seg Hseg Heseg) Hst).
    unfold Ok. cbv beta iota.
    rewrite (IH Hgood Hegood (idx + 1) (acc ++ block_text idx seg)).
    + unfold fs, path, str, char in *. rewrite insert_insert_eq.
      simpl srt_text. rewrite app_assoc.
      replace (idx + 1 + len good) with (idx + len (seg :: good))
        by (unfold len; simpl length; lia).
      reflexivity.
    + unfold fs, path, str, char in *. apply lookup_insert_eq.
Qed.

(** X3. On a path that can be written, a start or end that is NaN or
    infinite makes [save_srt_segments] raise [ValueError] (the integer
    conversion of a NaN). The file is left with the blocks of the
    segments before that one, and none of the segments after it is
    written. *)
Theorem srt_stops_at_unwritable_time :
  forall (good rest : list segment) (bad : segment)
         (output_srt : path) (st : fs),
    Forall times_ok good -> texts_encodable good -> unwritable bad ->
    can_write st output_srt ->
    save_srt_segments (good ++ bad :: rest) output_srt st
    = (Raise ValueError, <[output_srt := Raw (srt_text 1 good)]> st).
Proof.
  intros good rest bad output_srt st Hgood Hegood Hbad Hw.
  unfold save_srt_segments. unfold bind.
  rewrite (makedirs_ok st output_srt Hw). unfold Ok. cbv beta iota.
  rewrite (open_w_ok st output_srt Hw). unfold Ok. cbv beta iota.
  rewrite (write_blocks_app good (bad :: rest) output_srt Hgood Hegood 1 []).
  - simpl write_blocks. rewrite (block_unwritable _ bad Hbad).
    unfold Raise. cbv beta iota.
    unfold fs, path, str, char in *. rewrite insert_insert_eq. reflexivity.
  - unfold fs, path, str, char in *. apply lookup_insert_eq.
Qed.

Lemma srt_stops_at_unwritable_time_witness :
  save_srt_segments
    ([(of_int 0, of_int 2, lit "a")]
     ++ (S754_nan, of_int 3, lit "b") :: [(of_int 3, of_int 4, lit "c")])
    (lit "subs/out.srt") ∅
  = (Raise ValueError,
     <[lit "subs/out.srt" :=
         Raw (srt_text 1 [(of_int 0, of_int 2, lit "a")])]> ∅).
Proof.
  apply srt_stops_at_unwritable_time.
  - repeat constructor; vm_compute; reflexivity.
  - repeat constructor.
  - left. reflexivity.
  - apply can_write_empty; vm_compute; discriminate.
Defined.

(** ** White space at the ends of a string *)

Lemma lstrip_head (s : str) : lstrip s = [] \/ clean_end (head (lstrip s)).
Proof.
  induction s as [|c s IH]; [left; reflexivity|].
  simpl. destruct (isspace c) eqn:E; [exact IH|].
  right. exists c. split; [reflexivity | exact E].
Qed.

Lemma lstrip_app_nonspace (l r : str) (c : char) :
  isspace c = false -> lstrip (l ++ c :: r) = lstrip l ++ c :: r.
Proof.
  intros Hc. induction l as [|d l IH]; simpl.
  - rewrite Hc. reflexivity.
  - destruct (isspace d); [exact IH | reflexivity].
Qed.

Lemma strip_cases (x : str) : strip x = [] \/ trimmed (strip x).
Proof.
  unfold strip, rstrip.
  destruct (lstrip_head x) as [E|[c [Hh Hc]]].
  - left. rewrite E. reflexivity.
  - right. destruct (lstrip x) as [|c0 a]; [discriminate|].
    simpl in Hh. inversion Hh; subst c0. simpl rev.
    rewrite (lstrip_app_nonspace (rev a) [] c Hc), rev_unit.
    split.
    + exists c. split; [reflexivity | exact Hc].
    + destruct (lstrip_head (rev a)) as [E|[d [Hd Hsp]]].
      * rewrite E. exists c. split; [reflexivity | exact Hc].
      * destruct (lstrip (rev a)) as [|d0 b]; [discriminate|].
        simpl in Hd. inversion Hd; subst d0. simpl rev.
        exists d. split; [|exact Hsp].
        change (c :: rev b ++ [d]) with ((c :: rev b) ++ [d]).
        apply last_snoc.
Qed.

(** ** More on the translation stage *)

Section TranslateMore.
Import translate_only.
Variable cfg : config.
Variable eng : engines.

(** The calls of one segment: the engine is called on the kept sentences
    in order until one fails, and on nothing when the short-text check or
    the splitter ends the call. *)
Lemma translate_segment_calls text src tgt n w r w' :
  translate_segment cfg eng text src tgt n w = (r, w') ->
  files w' = files w /\
  exists kept k,
    calls w' = calls w ++ map (mk_call src tgt) (take k kept) /\
    (kept = [] \/
     exists sentences, split_sentences cfg eng text = Ok sentences /\
                       kept = cap_sentences cfg text sentences).
Proof.
  unfold translate_segment.
  destruct (negb (truthy text) || (len (strip text) <? 3)).
  - intros H. inversion H; subst. split; [reflexivity|].
    exists [], 0%nat. simpl. rewrite app_nil_r. auto.
  - unfold bind at 1, lift.
    destruct (split_sentences cfg eng text) as [e|ss] eqn:S.
    + intros H. inversion H; subst. split; [reflexivity|].
      exists [], 0%nat. simpl. rewrite app_nil_r. auto.
    + unfold bind.
      destruct (translate_sentences eng src tgt n _ w) as [r1 w1] eqn:R.
      apply translate_sentences_calls in R.
      destruct R as [Hf [k [_ [Hc _]]]].
      intros H. destruct r1; inversion H; subst; (split; [exact Hf|]);
        exists (cap_sentences cfg text ss), k; (split; [exact Hc|]);
        right; exists ss; auto.
Qed.

Lemma cap_sentences_length text sentences :
  0 <= max_lines cfg ->
  (length (cap_sentences cfg text sentences) <= Z.to_nat (max_lines cfg))%nat.
Proof.
  intros Hml. unfold cap_sentences.
  destruct (max_line_length cfg <? len text);
    rewrite slice_to_nonneg by exact Hml; rewrite length_take; lia.
Qed.

Lemma translated_segments_files segs src tgt n w r w' :
  translated_segments cfg eng segs src tgt n w = (r, w') -> files w' = files w.
Proof.
  revert w r w'. induction segs as [|[[start end_] text] rest IH]; intros w r w'.
  - intros H. inversion H; subst. reflexivity.
  - simpl. unfold bind at 1.
    destruct (translate_segment cfg eng text src tgt n w) as [r1 w1] eqn:R1.
    apply translate_segment_calls in R1. destruct R1 as [Hf _].
    destruct r1 as [e|t].
    + intros H. inversion H; subst. exact Hf.
    + unfold bind at 1.
      destruct (translated_segments cfg eng rest src tgt n w1) as [r2 w2] eqn:R2.
      apply IH in R2.
      destruct r2; intros H; inversion H; subst; congruence.
Qed.

Lemma times_ok_map_fst (out segs : list segment) :
  map fst out = map fst segs -> Forall times_ok segs -> Forall times_ok out.
Proof.
  revert segs. induction out as [|o out IH]; intros [|s segs] E H;
    try discriminate; [constructor|].
  simpl in E. inversion E as [[E1 E2]]. inversion H; subst.
  constructor; [|eapply IH; eassumption].
  unfold times_ok in *. rewrite E1. assumption.
Qed.

Lemma regex_split_trimmed (pieces : list str) :
  Forall trimmed (filter (fun s => truthy s = true) (map strip pieces)).
Proof.
  induction pieces as [|x l IH]; [constructor|].
  simpl. destruct (strip_cases x) as [E|T].
  - rewrite E. simpl. exact IH.
  - destruct (strip x) as [|c s] eqn:E.
    + destruct T as [[c [Hc _]] _]. discriminate.
    + simpl. constructor; assumption.
Qed.

Lemma Forall_slice_to {A} (P : A -> Prop) (n : Z) (l : list A) :
  Forall P l -> Forall P (slice_to n l).
Proof. intros H. unfold slice_to. destruct (0 <=? n); apply Forall_take; exact H. Qed.

Lemma cap_sentences_nonempty text sentences :
  0 < max_line_length cfg ->
  Forall (fun s => s <> []) sentences ->
  Forall (fun s => s <> []) (cap_sentences cfg text sentences).
Proof.
  intros Hmll H. unfold cap_sentences.
  destruct (max_line_length cfg <? len text); apply Forall_slice_to; [|exact H].
  apply Forall_forall. intros s Hin. apply list_elem_of_fmap in Hin.
  destruct Hin as [s0 [-> Hin]].
  rewrite Forall_forall in H. specialize (H s0 Hin).
  rewrite slice_to_nonneg by lia.
  destruct s0 as [|c s0]; [congruence|].
  destruct (Z.to_nat (max_line_length cfg)) eqn:E; [lia|]. discriminate.
Qed.

(** The calls of the loop, segment by segment. *)
Lemma translated_segments_calls segs src tgt n w r w' :
  translated_segments cfg eng segs src tgt n w = (r, w') ->
  exists groups,
    calls w' = calls w ++ concat groups /\
    (length groups <= length segs)%nat /\
    Forall (fun g => exists text kept k,
              g = map (mk_call src tgt) (take k kept) /\
              (kept = [] \/
               exists sentences, split_sentences cfg eng text = Ok sentences /\
                                 kept = cap_sentences cfg text sentences))
           groups.
Proof.
  revert w r w'. induction segs as [|[[start end_] text] rest IH]; intros w r w'.
  - intros H. inversion H; subst. exists []. simpl. rewrite app_nil_r.
    split_and!; [reflexivity | lia | constructor].
  - simpl. unfold bind at 1.
    destruct (translate_segment cfg eng text src tgt n w) as [r1 w1] eqn:R1.
    apply translate_segment_calls in R1.
    destruct R1 as [_ [kept [k [Hc Hk]]]].
    destruct r1 as [e|t].
    + intros H. inversion H; subst.
      exists [map (mk_call src tgt) (take k kept)]. simpl. rewrite app_nil_r.
      split_and!; [exact Hc | lia |].
      constructor; [|constructor]. exists text, kept, k. auto.
    + unfold bind at 1.
      destruct (translated_segments cfg eng rest src tgt n w1) as [r2 w2] eqn:R2.
      apply IH in R2. destruct R2 as [groups [Hc2 [Hl2 Hg2]]].
      intros H.
      assert (E : w' = w2) by (destruct r2; inversion H; reflexivity).
      subst w'.
      exists (map (mk_call src tgt) (take k kept) :: groups). simpl.
      split_and!; [rewrite Hc2, Hc, <- app_assoc; reflexivity | lia |].
      constructor; [|exact Hg2]. exists text, kept, k. auto.
Qed.

Lemma length_concat_le {A} (m : nat) (groups : list (list A)) :
  Forall (fun g => (length g <= m)%nat) groups ->
  (length (concat groups) <= length groups * m)%nat.
Proof.
  induction 1 as [|g groups Hg _ IH]; simpl; [lia|].
  rewrite length_app. lia.
Qed.

End TranslateMore.

(** X4. With the regular-expression splitter [split_sentences] never
    raises, and every sentence it returns begins and ends with a character
    that is not white space (so none is empty); there are at most as many
    sentences as pieces cut by the expression. *)
Theorem regex_sentences_are_trimmed :
  forall (cfg : translate_only.config) (eng : translate_only.engines)
         (text : str),
    translate_only.use_regex_splitter cfg = true ->
    exists sentences,
      translate_only.split_sentences cfg eng text = Ok sentences /\
      Forall trimmed sentences /\
      (length sentences <= length (translate_only.re_split eng text))%nat.
Proof.
  intros cfg eng text Hre. unfold translate_only.split_sentences. rewrite Hre.
  eexists. split; [reflexivity|]. split.
  - apply regex_split_trimmed.
  - etransitivity; [apply length_filter|]. rewrite length_map. lia.
Qed.

Lemma regex_sentences_are_trimmed_witness :
  exists sentences,
    translate_only.split_sentences Demo.rcfg Demo.eng (lit " Hi there. ") = Ok sentences /\
    Forall trimmed sentences /\
    (length sentences
     <= length (translate_only.re_split Demo.eng (lit " Hi there. ")))%nat.
Proof. apply regex_sentences_are_trimmed. reflexivity. Defined.

(** X5. The loop of [translate] over [n] segments calls the translation
    engine at most [n * max_lines] times (for a [max_lines] that is not
    negative), every time with the source and target language it was
    given; it does not touch the files. This holds whether the loop ends
    or an exception stops it. *)
Theorem engine_calls_are_bounded :
  forall (cfg : translate_only.config) (eng : translate_only.engines)
         (segments : list segment) (src tgt : str) (max_length : Z)
         (w w' : translate_only.world) (r : result (list segment)),
    0 <= translate_only.max_lines cfg ->
    translate_only.translated_segments cfg eng segments src tgt max_length w
      = (r, w') ->
    translate_only.files w' = translate_only.files w /\
    exists new,
      translate_only.calls w' = translate_only.calls w ++ new /\
      (length new
       <= length segments * Z.to_nat (translate_only.max_lines cfg))%nat /\
      Forall (fun c => translate_only.call_src c = src /\
                       translate_only.call_tgt c = tgt) new.
Proof.
  intros cfg eng segments src tgt n w w' r Hml H.
  split; [eapply translated_segments_files; exact H|].
  apply translated_segments_calls in H. destruct H as [groups [Hc [Hl Hg]]].
  exists (concat groups). split; [exact Hc|]. split.
  - etransitivity.
    + apply (length_concat_le (Z.to_nat (translate_only.max_lines cfg))).
      eapply Forall_impl; [exact Hg|].
      intros g [text [kept [k [-> Hk]]]]. cbv beta.
      rewrite length_map, length_take.
      destruct Hk as [->|[ss [_ ->]]]; [simpl; lia|].
      pose proof (cap_sentences_length cfg text ss Hml). lia.
    + apply Nat.mul_le_mono_r. exact Hl.
  - apply Forall_concat. eapply Forall_impl; [exact Hg|].
    intros g [text [kept [k [-> _]]]]. cbv beta.
    apply Forall_forall. intros c Hin. apply list_elem_of_fmap in Hin.
    destruct Hin as [x [-> _]]. split; reflexivity.
Qed.

Lemma engine_calls_are_bounded_witness :
  exists w' r,
    translate_only.translated_segments Demo.cfg Demo.eng
      [(of_int 0, of_int 2, Demo.text50)] (lit "eng_Latn") (lit "tur_Latn")
      512 Demo.w0 = (r, w') /\
    exists new,
      translate_only.calls w' = translate_only.calls Demo.w0 ++ new /\
      (length new <= 1 * 2)%nat.
Proof.
  eexists _, _. split; [reflexivity|].
  destruct (engine_calls_are_bounded Demo.cfg Demo.eng
              [(of_int 0, of_int 2, Demo.text50)] (lit "eng_Latn")
              (lit "tur_Latn") 512 Demo.w0 _ _
              ltac:(vm_compute; discriminate) eq_refl)
    as [_ [new [Hc [Hl _]]]].
  exists new. split; [exact Hc | exact Hl].
Defined.

(** X6. With the regular-expression splitter and a positive
    [max_line_length], the translation engine is never given an empty
    sentence. *)
Theorem engine_gets_no_empty_sentence :
  forall (cfg : translate_only.config) (eng : translate_only.engines)
         (segments : list segment) (src tgt : str) (max_length : Z)
         (w w' : translate_only.world) (r : result (list segment)),
    translate_only.use_regex_splitter cfg = true ->
    0 < translate_only.max_line_length cfg ->
    translate_only.translated_segments cfg eng segments src tgt max_length w
      = (r, w') ->
    exists new,
      translate_only.calls w' = translate_only.calls w ++ new /\
      Forall (fun c => translate_only.call_text c <> []) new.
Proof.
  intros cfg eng segments src tgt n w w' r Hre Hmll H.
  apply translated_segments_calls in H. destruct H as [groups [Hc [_ Hg]]].
  exists (concat groups). split; [exact Hc|].
  apply Forall_concat. eapply Forall_impl; [exact Hg|].
  intros g [text [kept [k [-> Hk]]]]. cbv beta.
  assert (Hkept : Forall (fun s : str => s <> []) kept).
  { destruct Hk as [->|[ss [Hs ->]]]; [constructor|].
    apply cap_sentences_nonempty; [exact Hmll|].
    unfold translate_only.split_sentences in Hs. rewrite Hre in Hs.
    inversion Hs; subst ss.
    eapply Forall_impl; [apply regex_split_trimmed|].
    intros s [[c [Hh _]] _] ->. discriminate. }
  apply Forall_forall. intros c Hin. apply list_elem_of_fmap in Hin.
  destruct Hin as [x [-> Hin]]. simpl.
  apply (Forall_take _ k) in Hkept. rewrite Forall_forall in Hkept.
  apply Hkept. exact Hin.
Qed.

Lemma engine_gets_no_empty_sentence_witness :
  exists w' r,
    translate_only.translated_segments Demo.rcfg Demo.eng
      [(of_int 0, of_int 2, Demo.text50)] (lit "eng_Latn") (lit "tur_Latn")
      512 Demo.w0 = (r, w') /\
    exists new,
      translate_only.calls w' = translate_only.calls Demo.w0 ++ new /\
      Forall (fun c => translate_only.call_text c <> []) new.
Proof.
  eexists _, _. split; [reflexivity|].
  apply (engine_gets_no_empty_sentence Demo.rcfg Demo.eng
           [(of_int 0, of_int 2, Demo.text50)] (lit "eng_Latn")
           (lit "tur_Latn") 512 Demo.w0 _ _ eq_refl
           ltac:(vm_compute; reflexivity) eq_refl).
Defined.

(** X7. [translate] writes nothing before its loop has ended: when the
    splitter or the engine raises for some segment, [translate] raises the
    same exception and the files are what they were, the two output files
    included. *)
Theorem translate_failure_keeps_files :
  forall (cfg : translate_only.config) (eng : translate_only.engines)
         (segments : list segment) (source_lang tgt : str)
         (output_srt output_txt : path)
         (w w1 : translate_only.world) (e : exn),
    translate_only.tokenizer_from_pretrained eng
      (translate_only.translation_model cfg) = Ok tt ->
    translate_only.model_from_pretrained eng
      (translate_only.translation_model cfg) = Ok tt ->
    translate_only.translated_segments cfg eng segments
      (translate_only.map_source_lang cfg source_lang) tgt 512 w
      = (Raise e, w1) ->
    translate_only.translate cfg eng segments source_lang tgt
      output_srt output_txt w = (Raise e, w1) /\
    translate_only.files w1 = translate_only.files w.
Proof.
  intros cfg eng segments source_lang tgt output_srt output_txt w w1 e
    Htok Hmod Hloop.
  split.
  - unfold translate_only.translate. unfold bind at 1, lift. rewrite Htok.
    unfold Ok. cbv beta iota. unfold bind at 1. rewrite Hmod.
    unfold Ok. cbv beta iota. unfold bind at 1. rewrite Hloop. reflexivity.
  - eapply translated_segments_files. exact Hloop.
Qed.

Lemma translate_failure_keeps_files_witness :
  exists w1,
    translate_only.translate Demo.cfg Demo.eng_down
      [(of_int 0, of_int 2, Demo.text50)] (lit "en") (lit "tur_Latn")
      (lit "out.srt") (lit "out.txt") Demo.w0 = (Raise RuntimeError, w1) /\
    translate_only.files w1 = translate_only.files Demo.w0.
Proof.
  eexists.
  apply (translate_failure_keeps_files Demo.cfg Demo.eng_down
           [(of_int 0, of_int 2, Demo.text50)] (lit "en") (lit "tur_Latn")
           (lit "out.srt") (lit "out.txt") Demo.w0 _ RuntimeError
           eq_refl eq_refl).
  vm_compute. reflexivity.
Defined.

(** X8. When the models load and the loop ends, with times and
    translated texts that can be written and two output paths that can be
    written without being in each other's way, [translate] returns and
    leaves the SRT file holding the numbered blocks of the translated
    segments and the text file holding their texts, one per line; nothing
    else changes. *)
Theorem translate_writes_both_files :
  forall (cfg : translate_only.config) (eng : translate_only.engines)
         (segments out : list segment) (source_lang tgt : str)
         (output_srt output_txt : path) (w w1 : translate_only.world),
    translate_only.tokenizer_from_pretrained eng
      (translate_only.translation_model cfg) = Ok tt ->
    translate_only.model_from_pretrained eng
      (translate_only.translation_model cfg) = Ok tt ->
    translate_only.translated_segments cfg eng segments
      (translate_only.map_source_lang cfg source_lang) tgt 512 w
      = (Ok out, w1) ->
    Forall times_ok segments ->
    texts_encodable out ->
    can_write (translate_only.files w) output_srt ->
    can_write (translate_only.files w) output_txt ->
    output_srt ∉ dirname output_txt :: ancestors (dirname output_txt) ->
    starts_with (output_txt ++ [slash]) output_srt = false ->
    translate_only.translate cfg eng segments source_lang tgt
      output_srt output_txt w
    = (Ok tt,
       {| translate_only.files :=
            <[output_txt := Raw (txt_text out)]>
              (<[output_srt := Raw (srt_text 1 out)]> (translate_only.files w));
          translate_only.calls := translate_only.calls w1 |}).
Proof.
  intros cfg eng segments out source_lang tgt output_srt output_txt w w1
    Htok Hmod Hloop Htimes Henc Hsrt Htxt Habove Hunder.
  assert (Hout : Forall times_ok out).
  { eapply times_ok_map_fst; [|exact Htimes].
    eapply translated_segments_timing. exact Hloop. }
  pose proof (translated_segments_files _ _ _ _ _ _ _ _ _ Hloop) as Hf.
  unfold translate_only.translate. unfold bind at 1, lift. rewrite Htok.
  unfold Ok. cbv beta iota. unfold bind at 1. rewrite Hmod.
  unfold Ok. cbv beta iota. unfold bind at 1. rewrite Hloop.
  unfold Ok. cbv beta iota.
  unfold bind at 1, translate_only.on_files at 1. rewrite Hf.
  rewrite (save_srt_segments_value out output_srt _ Hout Henc Hsrt).
  unfold Ok. cbv beta iota.
  unfold bind at 1, translate_only.on_files at 1. simpl translate_only.files.
  rewrite (save_txt_segments_value out output_txt _ Henc
             (can_write_insert _ _ _ _ Htxt Habove Hunder)).
  unfold Ok. cbv beta iota. unfold ret. reflexivity.
Qed.

Lemma translate_writes_both_files_witness :
  exists out w1,
    translate_only.translate Demo.cfg Demo.eng
      [(of_int 0, of_int 2, Demo.text50)] (lit "en") (lit "tur_Latn")
      (lit "subs/out.srt") (lit "subs/out.txt") Demo.w0
    = (Ok tt,
       {| translate_only.files :=
            <[lit "subs/out.txt" := Raw (txt_text out)]>
              (<[lit "subs/out.srt" := Raw (srt_text 1 out)]>
                 (translate_only.files Demo.w0));
          translate_only.calls := translate_only.calls w1 |}).
Proof.
  eexists _, _.
  apply (translate_writes_both_files Demo.cfg Demo.eng
           [(of_int 0, of_int 2, Demo.text50)] _ (lit "en")
           (lit "tur_Latn") (lit "subs/out.srt") (lit "subs/out.txt")
           Demo.w0 _ eq_refl eq_refl).
  - vm_compute. reflexivity.
  - repeat constructor; vm_compute; reflexivity.
  - repeat constructor.
  - apply can_write_empty; vm_compute; discriminate.
  - apply can_write_empty; vm_compute; discriminate.
  - vm_compute. intros H. inversion H as [|? ? ? H']; inversion H'.
  - vm_compute. reflexivity.
Defined.

(** ** The transcription stage *)

Lemma write_other (p q : path) (b : str) (st st' : fs) (r : result unit) :
  q <> p -> write p b st = (r, st') -> st' !! q = st !! q.
Proof.
  intros Hq. unfold write. destruct (encodable b); intros H; inversion H; subst;
    [|reflexivity].
  unfold append. unfold fs, path, str, char in *.
  destruct (st !! p) as [[t|d]|]; apply lookup_insert_ne; congruence.
Qed.

Lemma write_blocks_other (segments : list segment) (output_srt q : path) :
  q <> output_srt ->
  forall (idx : Z) (st st' : fs) (r : result unit),
    write_blocks idx segments output_srt st = (r, st') -> st' !! q = st !! q.
Proof.
  intros Hq. induction segments as [|seg rest IH]; intros idx st st' r H.
  - inversion H; subst. reflexivity.
  - simpl in H. destruct (block idx seg) as [e|b].
    + inversion H; subst. reflexivity.
    + unfold bind in H.
      destruct (write output_srt b st) as [[e|[]] st1] eqn:W.
      * inversion H; subst. eapply write_other; eassumption.
      * apply IH in H. rewrite H. eapply write_other; eassumption.
Qed.

Lemma save_srt_segments_other (segments : list segment) (output_srt q : path)
    (st st' : fs) (r : result unit) :
  q <> output_srt ->
  save_srt_segments segments output_srt st = (r, st') -> st' !! q = st !! q.
Proof.
  intros Hq. unfold save_srt_segments, bind, makedirs, open_w.
  destruct (bool_decide _); [intros H; inversion H; reflexivity|].
  destruct (existsb _ _); [intros H; inversion H; reflexivity|].
  destruct (is_file _ _); [intros H; inversion H; reflexivity|].
  unfold Ok. cbv beta iota.
  destruct (is_dir st output_srt); [intros H; inversion H; reflexivity|].
  cbv beta iota. intros H.
  apply (write_blocks_other _ _ q Hq) in H. rewrite H.
  unfold fs, path, str, char in *. apply lookup_insert_ne. congruence.
Qed.

Lemma load_saved_document (segments : list segment) (lang : str)
    (json_file : path) (st : fs) :
  st !! json_file = Some (Doc (transcript_doc segments lang)) ->
  exists loaded,
    translate_only.load_segments json_file st = Ok loaded /\
    as_transcript loaded = Some (segments, lang).
Proof.
  intros H. eexists. split.
  - unfold translate_only.load_segments, translate_only.json_load.
    rewrite H. reflexivity.
  - simpl. rewrite as_segments_segment_json. reflexivity.
Qed.

(** The steps of [transcribe] up to the two writers. *)
Lemma transcribe_recognised (ft : Json.float_text)
    (cfg : transcribe_only.config) (eng : transcribe_only.engines)
    (audio_file output_json output_srt : path) (source_lang : str) (st : fs)
    (segments : list transcribe_only.whisper_segment) (language : str) :
  transcribe_only.WhisperModel eng (transcribe_only.whisper_model cfg)
    = Ok tt ->
  transcribe_only.model_transcribe eng audio_file
    (if decide (source_lang = lit "auto") then None else Some source_lang)
    = Ok (segments, language) ->
  transcribe_only.transcribe ft cfg eng audio_file output_json output_srt
    source_lang st
  = (transcribe_only.save_json_segments ft
       (transcribe_only.transcription_segments segments)
       (transcribe_only.nllb_lang cfg language) output_json ;;;
     save_srt_segments (transcribe_only.transcription_segments segments)
       output_srt) st.
Proof.
  intros Hw Ht. unfold transcribe_only.transcribe. unfold bind at 1, lift.
  rewrite Hw. unfold Ok. cbv beta iota. unfold bind at 1. rewrite Ht.
  reflexivity.
Qed.

(** X9. When recognition succeeds, the times can be written, times,
    texts and language tag have a text that can be encoded and read
    back, and the two outputs are different files that can be written
    without being in each other's way, [transcribe] returns and changes
    the two files only; [load_segments] then reads from the JSON file the
    segments of the engine, in order, with their start and end and with
    the text stripped, and the language of the engine mapped by the table
    (or as it is when the table has no entry for it); the SRT file holds
    the numbered blocks of the same segments. *)
Theorem transcribe_then_load :
  forall (ft : Json.float_text) (cfg : transcribe_only.config)
         (eng : transcribe_only.engines)
         (audio_file output_json output_srt : path) (source_lang : str)
         (st : fs) (segments : list transcribe_only.whisper_segment)
         (language : str),
    transcribe_only.WhisperModel eng (transcribe_only.whisper_model cfg)
      = Ok tt ->
    transcribe_only.model_transcribe eng audio_file
      (if decide (source_lang = lit "auto") then None else Some source_lang)
      = Ok (segments, language) ->
    Forall times_ok (transcribe_only.transcription_segments segments) ->
    times_read_back ft (transcribe_only.transcription_segments segments) ->
    texts_encodable (transcribe_only.transcription_segments segments) ->
    encodable (transcribe_only.nllb_lang cfg language) = true ->
    can_write st output_json ->
    can_write st output_srt ->
    output_json ∉ dirname output_srt :: ancestors (dirname output_srt) ->
    starts_with (output_srt ++ [slash]) output_json = false ->
    output_json <> output_srt ->
    exists st',
      st' = <[output_srt :=
                Raw (srt_text 1
                       (transcribe_only.transcription_segments segments))]>
              (<[output_json :=
                   Doc (transcript_doc
                          (transcribe_only.transcription_segments segments)
                          (transcribe_only.nllb_lang cfg language))]> st) /\
      transcribe_only.transcribe ft cfg eng audio_file output_json output_srt
        source_lang st = (Ok tt, st') /\
      (exists loaded,
         translate_only.load_segments output_json st' = Ok loaded /\
         as_transcript loaded
         = Some (transcribe_only.transcription_segments segments,
                 transcribe_only.nllb_lang cfg language)) /\
      st' !! output_srt
      = Some (Raw (srt_text 1 (transcribe_only.transcription_segments segments))).
Proof.
  intros ft cfg eng audio_file output_json output_srt source_lang st segments
    language Hw Ht Htimes Hrb Henc Hlang Hjson Hsrt Habove Hunder Hne.
  eexists. split_and!.
  - reflexivity.
  - rewrite (transcribe_recognised ft cfg eng audio_file output_json
               output_srt source_lang st segments language Hw Ht).
    unfold bind.
    rewrite (save_json_segments_value ft _ _ output_json st Hrb Henc Hlang
               Hjson).
    unfold Ok. cbv beta iota.
    apply (save_srt_segments_value _ output_srt _ Htimes Henc).
    apply can_write_insert; assumption.
  - apply load_saved_document.
    unfold fs, path, str, char in *.
    rewrite lookup_insert_ne by congruence. apply lookup_insert_eq.
  - unfold fs, path, str, char in *. apply lookup_insert_eq.
Qed.

Lemma transcribe_then_load_witness :
  exists st',
    st' = <[lit "subs/original.srt" :=
              Raw (srt_text 1
                     (transcribe_only.transcription_segments Demo.heard))]>
            (<[lit "subs/original.json" :=
                 Doc (transcript_doc
                        (transcribe_only.transcription_segments Demo.heard)
                        (transcribe_only.nllb_lang Demo.tcfg (lit "en")))]> ∅) /\
    transcribe_only.transcribe Demo.ftext Demo.tcfg Demo.whisper
      (lit "audio.mp3") (lit "subs/original.json") (lit "subs/original.srt")
      (lit "auto") ∅ = (Ok tt, st') /\
    (exists loaded,
       translate_only.load_segments (lit "subs/original.json") st' = Ok loaded /\
       as_transcript loaded
       = Some (transcribe_only.transcription_segments Demo.heard,
               transcribe_only.nllb_lang Demo.tcfg (lit "en"))) /\
    st' !! lit "subs/original.srt"
    = Some (Raw (srt_text 1 (transcribe_only.transcription_segments Demo.heard))).
Proof.
  apply (transcribe_then_load Demo.ftext Demo.tcfg Demo.whisper
           (lit "audio.mp3") (lit "subs/original.json")
           (lit "subs/original.srt") (lit "auto") ∅
           Demo.heard (lit "en") eq_refl eq_refl).
  - repeat constructor; vm_compute; reflexivity.
  - repeat constructor; intros; reflexivity.
  - repeat constructor.
  - reflexivity.
  - apply can_write_empty; discriminate.
  - apply can_write_empty; discriminate.
  - apply (bool_decide_unpack _). vm_compute. exact I.
  - reflexivity.
  - discriminate.
Defined.

(** X10. The JSON file is written before the SRT file and does not depend
    on it: when recognition succeeds, the transcript has a text that can
    be encoded and read back, the JSON path can be written and the two
    outputs are different files, the JSON file holds the transcript
    whatever [transcribe] returns, also when a time that cannot be
    written or a path that cannot be opened makes the SRT writer raise. *)
Theorem json_is_written_before_srt :
  forall (ft : Json.float_text) (cfg : transcribe_only.config)
         (eng : transcribe_only.engines)
         (audio_file output_json output_srt : path) (source_lang : str)
         (st st' : fs) (r : result unit)
         (segments : list transcribe_only.whisper_segment) (language : str),
    transcribe_only.WhisperModel eng (transcribe_only.whisper_model cfg)
      = Ok tt ->
    transcribe_only.model_transcribe eng audio_file
      (if decide (source_lang = lit "auto") then None else Some source_lang)
      = Ok (segments, language) ->
    times_read_back ft (transcribe_only.transcription_segments segments) ->
    texts_encodable (transcribe_only.transcription_segments segments) ->
    encodable (transcribe_only.nllb_lang cfg language) = true ->
    can_write st output_json ->
    output_json <> output_srt ->
    transcribe_only.transcribe ft cfg eng audio_file output_json output_srt
      source_lang st = (r, st') ->
    exists loaded,
      translate_only.load_segments output_json st' = Ok loaded /\
      as_transcript loaded
      = Some (transcribe_only.transcription_segments segments,
              transcribe_only.nllb_lang cfg language).
Proof.
  intros ft cfg eng audio_file output_json output_srt source_lang st st' r
    segments language Hw Ht Hrb Henc Hlang Hjson Hne H.
  rewrite (transcribe_recognised ft cfg eng audio_file output_json
             output_srt source_lang st segments language Hw Ht) in H.
  unfold bind in H.
  rewrite (save_json_segments_value ft _ _ output_json st Hrb Henc Hlang
             Hjson) in H.
  unfold Ok in H. cbv beta iota in H.
  apply (save_srt_segments_other _ _ output_json _ _ _ Hne) in H.
  apply load_saved_document. rewrite H.
  unfold fs, path, str, char in *. apply lookup_insert_eq.
Qed.

Lemma json_is_written_before_srt_witness :
  let eng := {| transcribe_only.WhisperModel := fun _ => Ok tt;
                transcribe_only.model_transcribe := fun _ _ =>
                  Ok ([{| transcribe_only.seg_start := S754_nan;
                          transcribe_only.seg_end := of_int 2;
                          transcribe_only.seg_text := lit "Hi." |}], lit "en") |} in
  exists st',
    transcribe_only.transcribe Demo.ftext Demo.tcfg eng (lit "audio.mp3")
      (lit "subs/original.json") (lit "subs/original.srt") (lit "auto") ∅
    = (Raise ValueError, st') /\
    exists loaded,
      translate_only.load_segments (lit "subs/original.json") st' = Ok loaded /\
      as_transcript loaded
      = Some ([(S754_nan, of_int 2, lit "Hi.")], lit "eng_Latn").
Proof.
  intros eng. eexists. split; [vm_compute; reflexivity|].
  apply (json_is_written_before_srt Demo.ftext Demo.tcfg eng (lit "audio.mp3")
           (lit "subs/original.json") (lit "subs/original.srt") (lit "auto") ∅ _
           (Raise ValueError) _ (lit "en") eq_refl eq_refl).
  - repeat constructor; intros; reflexivity.
  - repeat constructor.
  - reflexivity.
  - apply can_write_empty; discriminate.
  - discriminate.
  - vm_compute. reflexivity.
Defined.


(** X11. The segments [transcribe] stores are those of the engine, one
    for one and in order, with the same start and end; each stored text
    is empty or begins and ends with a character that is not white
    space. *)
Theorem stored_texts_are_stripped :
  forall (segments : list transcribe_only.whisper_segment),
    map fst (transcribe_only.transcription_segments segments)
    = map (fun seg => (transcribe_only.seg_start seg,
                       transcribe_only.seg_end seg)) segments /\
    Forall (fun seg : segment => snd seg = [] \/ trimmed (snd seg))
      (transcribe_only.transcription_segments segments).
Proof.
  intros segments. unfold transcribe_only.transcription_segments. split.
  - induction segments as [|seg rest IH]; [reflexivity|].
    simpl. f_equal. exact IH.
  - apply Forall_forall. intros seg Hin. apply list_elem_of_fmap in Hin.
    destruct Hin as [x [-> _]]. simpl. apply strip_cases.
Qed.

(** X12. The two language mappings agree. [transcribe] maps the language
    of the engine through the table before storing it and [translate]
    maps the stored language through the table again; when no value of
    the table is itself a key of it, the second mapping changes nothing,
    apart from replacing an empty language by ["eng_Latn"]. *)
Theorem two_mappings_agree :
  forall (tcfg : transcribe_only.config) (cfg : translate_only.config)
         (language : str),
    translate_only.language_code_map cfg
      = transcribe_only.language_code_map tcfg ->
    (forall k v, transcribe_only.language_code_map tcfg !! k = Some v ->
                 transcribe_only.language_code_map tcfg !! v = None) ->
    translate_only.map_source_lang cfg
      (transcribe_only.nllb_lang tcfg language)
    = or_else (transcribe_only.nllb_lang tcfg language) (lit "eng_Latn").
Proof.
  intros tcfg cfg language Hsame Hvals.
  unfold translate_only.map_source_lang. rewrite Hsame.
  unfold transcribe_only.nllb_lang.
  destruct (transcribe_only.language_code_map tcfg !! language) as [v|] eqn:E;
    simpl.
  - rewrite (Hvals language v E). reflexivity.
  - rewrite E. reflexivity.
Qed.

Lemma two_mappings_agree_witness :
  translate_only.map_source_lang Demo.cfg
    (transcribe_only.nllb_lang Demo.tcfg (lit "en"))
  = or_else (transcribe_only.nllb_lang Demo.tcfg (lit "en")) (lit "eng_Latn").
Proof.
  apply two_mappings_agree; [reflexivity|].
  intros k v H. unfold Demo.tcfg in *. simpl in *.
  apply lookup_singleton_Some in H. destruct H as [_ <-].
  apply lookup_singleton_None. discriminate.
Defined.

(** ** More on the orchestrator *)

Section PipelineMore.
Import pipeline.
Context {W : Type}.
Variable cfg : config.
Variable os : host W.

Lemma plan_ext (steps steps' : list str) :
  (forall st, stage_name st ∈ steps <-> stage_name st ∈ steps') ->
  plan steps = plan steps'.
Proof.
  intros H.
  assert (E : forall st, requested steps st = requested steps' st)
    by (intros st; unfold requested; apply bool_decide_ext; apply H).
  unfold plan, all_stages. rewrite !filter_cons, !filter_nil, !E. reflexivity.
Qed.

Lemma subtitles_invalid_mode video_file mode s :
  mode <> lit "soft" -> mode <> lit "burned" ->
  run_stage cfg os video_file mode Subtitles s
  = (Raise ValueError,
     {| machine := machine s;
        log := log s ++ [Started Subtitles; Failed Subtitles ValueError] |}).
Proof.
  intros H1 H2. simpl. unfold step_subtitles.
  destruct (decide (mode = lit "soft")); [contradiction|].
  destruct (decide (mode = lit "burned")); [contradiction|].
  unfold bind, logging, reraising, raise, record. simpl.
  rewrite <- app_assoc. reflexivity.
Qed.

Lemma run_in_order_invalid_mode video_file mode pre final :
  mode <> lit "soft" -> mode <> lit "burned" ->
  forall s r s',
    run_in_order (run_stage cfg os video_file mode) (pre ++ [Subtitles]) final s
      = (r, s') ->
    (exists st e l, st ∈ pre /\ r = Raise e /\ log s' = l ++ [Failed st e]) \/
    (r = Raise ValueError /\
     started (log s') = started (log s) ++ pre ++ [Subtitles] /\
     exists l, log s' = l ++ [Started Subtitles; Failed Subtitles ValueError]).
Proof.
  intros H1 H2. induction pre as [|st pre IH]; intros s r s'.
  - cbn [app run_in_order]. unfold bind at 1.
    rewrite (subtitles_invalid_mode video_file mode s H1 H2).
    intros H. inversion H; subst. right. simpl.
    split_and!; [reflexivity | | eexists; reflexivity].
    rewrite started_app. reflexivity.
  - cbn [app run_in_order]. unfold bind at 1.
    destruct (run_stage cfg os video_file mode st s) as [[e|[]] s1] eqn:E;
      apply run_stage_shape in E; destruct E as [Hs Hf].
    + intros H. inversion H; subst. left.
      destruct (Hf e eq_refl) as [l Hl].
      exists st, e, l. split_and!; [left | reflexivity | exact Hl].
    + intros H. apply IH in H.
      destruct H as [[st' [e [l [Hin [Hr Hl]]]]]|[Hr [Htr Hl]]].
      * left. exists st', e, l. split_and!; [right; exact Hin | exact Hr | exact Hl].
      * right. split_and!; [exact Hr | | exact Hl].
        rewrite Htr, Hs, <- app_assoc. reflexivity.
Qed.

Lemma plan_with_subtitles (steps : list str) :
  requested steps Subtitles = true ->
  plan steps
  = filter (fun st => requested steps st = true) [Extract; Transcribe; Translate]
    ++ [Subtitles].
Proof.
  intros H. unfold plan, all_stages.
  change [Extract; Transcribe; Translate; Subtitles]
    with ([Extract; Transcribe; Translate] ++ [Subtitles]).
  rewrite filter_app. f_equal.
  rewrite filter_cons, filter_nil. rewrite H. reflexivity.
Qed.

End PipelineMore.

(** X13. A run depends on the list of steps only through the set of
    stage names in it: the order of the names, repetitions and names that
    are not one of the four stages change nothing. *)
Theorem steps_are_read_as_a_set :
  forall (W : Type) (cfg : pipeline.config) (os : pipeline.host W)
         (steps steps' : list str) (mode video_arg : option str)
         (s : pipeline.state W),
    (forall st, pipeline.stage_name st ∈ steps
                <-> pipeline.stage_name st ∈ steps') ->
    pipeline.run_pipeline cfg os steps mode video_arg s
    = pipeline.run_pipeline cfg os steps' mode video_arg s.
Proof.
  intros W cfg os steps steps' mode video_arg s H.
  rewrite !run_pipeline_plan. rewrite (plan_ext steps steps' H). reflexivity.
Qed.

Lemma steps_are_read_as_a_set_witness :
  pipeline.run_pipeline Demo.pcfg Demo.os
    [lit "translate"; lit "bogus"; lit "extract"; lit "translate"]
    None None Demo.with_video
  = pipeline.run_pipeline Demo.pcfg Demo.os [lit "extract"; lit "translate"]
      None None Demo.with_video.
Proof.
  apply steps_are_read_as_a_set.
  intros st. split; intros H; destruct st;
    first [ apply (bool_decide_unpack _); vm_compute; exact I
          | apply (bool_decide_pack _) in H; vm_compute in H; destruct H ].
Defined.

(** X14. The subtitle mode is checked last. When the stage Subtitles is
    requested and the mode in force (the argument, else the one of the
    configuration, else ["burned"]) is neither ["soft"] nor ["burned"],
    the run never returns: either an earlier requested stage fails, or
    every requested stage is entered and the run raises [ValueError],
    recorded by the wrapper of Subtitles and by [run_pipeline]. *)
Theorem invalid_mode_is_found_last :
  forall (W : Type) (cfg : pipeline.config) (os : pipeline.host W)
         (steps : list str) (mode video_arg : option str)
         (s s0 : pipeline.state W) (video_file : path) (w1 : W),
    pipeline.select_video_file cfg os video_arg s = (Ok video_file, s0) ->
    pipeline.makedirs os (pipeline.audio_dir (pipeline.cfg_paths cfg))
      (pipeline.machine s0) = (Ok tt, w1) ->
    final_mode cfg mode <> lit "soft" ->
    final_mode cfg mode <> lit "burned" ->
    lit "subtitles" ∈ steps ->
    let '(r, s') := pipeline.run_pipeline cfg os steps mode video_arg s in
    (exists st e l,
        st <> pipeline.Subtitles /\ pipeline.stage_name st ∈ steps /\
        r = Raise e /\
        pipeline.log s' = l ++ [pipeline.Failed st e; pipeline.Aborted e]) \/
    (r = Raise ValueError /\
     pipeline.started (pipeline.log s')
       = pipeline.started (pipeline.log s) ++ plan steps /\
     exists l,
       pipeline.log s'
       = l ++ [pipeline.Started pipeline.Subtitles;
               pipeline.Failed pipeline.Subtitles ValueError;
               pipeline.Aborted ValueError]).
Proof.
  intros W cfg os steps mode video_arg s s0 video_file w1 Hsel Hmk H1 H2 Hreq.
  pose proof (quiet_select cfg os video_arg _ _ _ Hsel) as Hq0.
  assert (Hsub : pipeline.requested steps pipeline.Subtitles = true)
    by (apply bool_decide_eq_true; exact Hreq).
  rewrite run_pipeline_plan. unfold reraising.
  unfold bind at 1. rewrite Hsel.
  unfold bind at 1, pipeline.on_machine at 1. rewrite Hmk.
  unfold Ok at 1 2. cbv beta iota.
  set (s1 := {| pipeline.machine := w1; pipeline.log := pipeline.log s0 |}).
  rewrite (plan_with_subtitles steps Hsub).
  destruct (run_in_order _ _ _ s1) as [r s'] eqn:R.
  apply (run_in_order_invalid_mode cfg os _ _ _ _ H1 H2) in R.
  destruct R as [[st [e [l [Hin [-> Hl]]]]]|[-> [Htr [l Hl]]]].
  - left. exists st, e, l.
    apply list_elem_of_filter in Hin. destruct Hin as [Hst Hin].
    split_and!.
    + intros ->. rewrite !elem_of_cons, elem_of_nil in Hin.
      intuition discriminate.
    + apply bool_decide_eq_true in Hst. exact Hst.
    + reflexivity.
    + simpl. rewrite Hl, <- app_assoc. reflexivity.
  - right. split_and!; [reflexivity | |].
    + simpl. rewrite started_app. simpl. rewrite app_nil_r.
      rewrite Htr. simpl. rewrite Hq0. reflexivity.
    + exists l. simpl. rewrite Hl, <- app_assoc. reflexivity.
Qed.

Lemma invalid_mode_is_found_last_witness :
  let '(r, s') :=
    pipeline.run_pipeline Demo.pcfg Demo.os [lit "subtitles"; lit "extract"]
      (Some (lit "karaoke")) None Demo.with_video in
  (exists st e l,
      st <> pipeline.Subtitles /\
      pipeline.stage_name st ∈ [lit "subtitles"; lit "extract"] /\
      r = Raise e /\
      pipeline.log s' = l ++ [pipeline.Failed st e; pipeline.Aborted e]) \/
  (r = Raise ValueError /\
   pipeline.started (pipeline.log s')
     = pipeline.started (pipeline.log Demo.with_video)
       ++ plan [lit "subtitles"; lit "extract"] /\
   exists l,
     pipeline.log s'
     = l ++ [pipeline.Started pipeline.Subtitles;
             pipeline.Failed pipeline.Subtitles ValueError;
             pipeline.Aborted ValueError]).
Proof.
  apply (invalid_mode_is_found_last (list path) Demo.pcfg Demo.os
           [lit "subtitles"; lit "extract"] (Some (lit "karaoke")) None
           Demo.with_video Demo.with_video (lit "data/video/sample.mp4")
           [lit "data/video/sample.mp4"]).
  - vm_compute. reflexivity.
  - vm_compute. reflexivity.
  - vm_compute. discriminate.
  - vm_compute. discriminate.
  - left.
Defined.

(** ** Audio extraction and subtitle embedding *)

Ltac outcome_cases :=
  split_and!; intros; try discriminate;
  split_and!; intros; simplify_eq;
  repeat match goal with
         | E : ?t = (_, _), H : ?t = (_, _) |- _ => rewrite E in H; simplify_eq
         end;
  cbn [Sys.machine]; auto.

(** X15. The calls of [extract_audio_from_video]. A missing video raises
    [FileNotFoundError] before anything is done. With FFmpeg the one call
    is the command, whose outcome is the outcome of the extraction;
    MoviePy is not used. With MoviePy the clip is opened, the directory
    of the output made, the audio written and the clip closed, in this
    order; the first of the first three calls that raises ends the
    extraction with its exception, and the clip is then not closed. *)
Theorem extraction_calls :
  forall (W : Type) (cfg : mp3extractor.config) (os : Sys.host W)
         (video_file output_audio : path) (s s' : Sys.state W)
         (r : result unit),
    mp3extractor.extract_audio_from_video cfg os video_file output_audio s
      = (r, s') ->
    let d := Sys.dirname os output_audio in
    exists new,
      Sys.actions s' = Sys.actions s ++ new /\
      (Sys.path_exists os (Sys.machine s) video_file = false ->
         r = Raise FileNotFoundError /\ new = [] /\
         Sys.machine s' = Sys.machine s) /\
      (Sys.path_exists os (Sys.machine s) video_file = true ->
       mp3extractor.use_ffmpeg cfg = true ->
         new = [Sys.Run (mp3extractor.ffmpeg_command cfg video_file output_audio)] /\
         Sys.subprocess_run os
           (mp3extractor.ffmpeg_command cfg video_file output_audio)
           (Sys.machine s) = (r, Sys.machine s')) /\
      (Sys.path_exists os (Sys.machine s) video_file = true ->
       mp3extractor.use_ffmpeg cfg = false ->
         (forall e w1,
             Sys.VideoFileClip os video_file (Sys.machine s) = (Raise e, w1) ->
             r = Raise e /\ new = [Sys.OpenClip video_file] /\
             Sys.machine s' = w1) /\
         (forall w1 e w2,
             Sys.VideoFileClip os video_file (Sys.machine s) = (Ok tt, w1) ->
             Sys.makedirs os d w1 = (Raise e, w2) ->
             r = Raise e /\
             new = [Sys.OpenClip video_file; Sys.Makedirs d] /\
             Sys.machine s' = w2) /\
         (forall w1 w2 e w3,
             Sys.VideoFileClip os video_file (Sys.machine s) = (Ok tt, w1) ->
             Sys.makedirs os d w1 = (Ok tt, w2) ->
             Sys.write_audiofile os video_file output_audio w2 = (Raise e, w3) ->
             r = Raise e /\
             new = [Sys.OpenClip video_file; Sys.Makedirs d;
                    Sys.WriteAudio video_file output_audio] /\
             Sys.machine s' = w3) /\
         (forall w1 w2 w3,
             Sys.VideoFileClip os video_file (Sys.machine s) = (Ok tt, w1) ->
             Sys.makedirs os d w1 = (Ok tt, w2) ->
             Sys.write_audiofile os video_file output_audio w2 = (Ok tt, w3) ->
             new = moviepy_calls os video_file output_audio /\
             Sys.close os video_file w3 = (r, Sys.machine s'))).
Proof.
  intros W cfg os video_file output_audio s s' r.
  unfold mp3extractor.extract_audio_from_video.
  unfold bind at 1, Sys.looking at 1. unfold Ok. cbv beta iota.
  destruct (Sys.path_exists os (Sys.machine s) video_file) eqn:Hex;
    cbv beta iota delta [negb].
  - destruct (mp3extractor.use_ffmpeg cfg) eqn:Hff.
    + unfold mp3extractor.extract_audio_with_ffmpeg, Sys.acting.
      destruct (Sys.subprocess_run os _ (Sys.machine s)) as [r1 w1] eqn:E.
      intros H. inversion H; subst. eexists. split; [reflexivity|].
      split_and!; intros; try discriminate.
      split; reflexivity.
    + unfold mp3extractor.extract_audio_with_moviepy, bind, Sys.acting.
      destruct (Sys.VideoFileClip os video_file (Sys.machine s))
        as [[e1|[]] w1] eqn:E1; cbn [Sys.machine Sys.actions].
      { intros H. inversion H; subst. eexists. split; [reflexivity|].
        outcome_cases. }
      destruct (Sys.makedirs os (Sys.dirname os output_audio) w1) as [[e2|[]] w2] eqn:E2;
        cbn [Sys.machine Sys.actions].
      { intros H. inversion H; subst. eexists. split;
          [cbn [Sys.actions]; rewrite <- app_assoc; reflexivity|].
        outcome_cases. }
      destruct (Sys.write_audiofile os video_file output_audio w2)
        as [[e3|[]] w3] eqn:E3; cbn [Sys.machine Sys.actions].
      { intros H. inversion H; subst. eexists. split;
          [cbn [Sys.actions]; rewrite <- !app_assoc; reflexivity|].
        outcome_cases. }
      destruct (Sys.close os video_file w3) as [r4 w4] eqn:E4.
      intros H. inversion H; subst. eexists. split;
        [cbn [Sys.actions]; rewrite <- !app_assoc; reflexivity|].
      outcome_cases.
  - intros H. inversion H; subst. exists []. rewrite app_nil_r.
    split_and!; intros; try discriminate; auto.
Qed.

Lemma extraction_calls_witness :
  let run :=
    mp3extractor.extract_audio_from_video Demo.mcfg Demo.sys
      (lit "data/video/sample.mp4") (lit "data/audio.mp3") Demo.video_only in
  exists new,
    Sys.actions (snd run) = Sys.actions Demo.video_only ++ new /\
    new = moviepy_calls Demo.sys (lit "data/video/sample.mp4")
            (lit "data/audio.mp3").
Proof.
  intros run.
  destruct (extraction_calls (list path) Demo.mcfg Demo.sys
              (lit "data/video/sample.mp4") (lit "data/audio.mp3")
              Demo.video_only (snd run) (fst run))
    as [new [Ha [_ [_ Hm]]]].
  - subst run. vm_compute. reflexivity.
  - exists new. split; [exact Ha|].
    destruct Hm as (_ & _ & _ & H4);
      [vm_compute; reflexivity | reflexivity |].
    edestruct H4 as [Hn _]; [| | | exact Hn]; vm_compute; reflexivity.
Defined.

Section EmbeddingFacts.
Import Sys.
Context {W : Type}.
Variable os : host W.

(** The frame the two embedding functions share. *)
Lemma embedding_frame (command : list str) (video subs output : path)
    (s s' : state W) (r : result unit) :
  (ex <- looking (fun w => path_exists os w video) ;;
   if negb ex then raise FileNotFoundError else
   ex <- looking (fun w => path_exists os w subs) ;;
   if negb ex then raise FileNotFoundError else
   acting (Makedirs (dirname os output)) (makedirs os (dirname os output)) ;;;
   acting (Run command) (subprocess_run os command)) s = (r, s') ->
  embeds os command video subs output s r s'.
Proof.
  unfold embeds. unfold bind at 1, looking at 1. unfold Ok. cbv beta iota.
  destruct (path_exists os (machine s) video); cbv beta iota delta [negb].
  - unfold bind at 1, looking at 1. unfold Ok. cbv beta iota.
    destruct (path_exists os (machine s) subs); cbv beta iota delta [negb].
    + unfold bind, acting. simpl.
      destruct (makedirs os _ (machine s)) as [[e1|[]] w1] eqn:E1;
        cbn [machine actions].
      * intros H. inversion H; subst. eexists. split; [reflexivity|].
        outcome_cases.
      * destruct (subprocess_run os command w1) as [r2 w2] eqn:E2.
        intros H. inversion H; subst. eexists. split;
          [cbn [actions]; rewrite <- app_assoc; reflexivity|].
        outcome_cases.
    + intros H. inversion H; subst. exists []. rewrite app_nil_r.
      split_and!; intros; try discriminate; auto.
  - intros H. inversion H; subst. exists []. rewrite app_nil_r.
    split_and!; intros; try discriminate; auto.
Qed.

End EmbeddingFacts.

(** X16. The calls of [add_soft_subs] and [add_burned_subs]. When the
    video or the subtitle file is missing the function raises
    [FileNotFoundError] and does nothing. Otherwise it makes the directory
    of the output and then, unless that failed, runs FFmpeg once with its
    command; it returns only after FFmpeg has been run. *)
Theorem embedding_calls :
  forall (W : Type) (conf : embed_subtitles.ffmpeg_conf) (os : Sys.host W)
         (video subs output : path) (s s' : Sys.state W) (r : result unit),
    (embed_subtitles.add_soft_subs os video subs output s = (r, s') ->
     embeds os (embed_subtitles.soft_command video subs output)
       video subs output s r s') /\
    (embed_subtitles.add_burned_subs conf os video subs output s = (r, s') ->
     embeds os (embed_subtitles.burned_command conf video subs output)
       video subs output s r s').
Proof.
  intros W conf os video subs output s s' r. split; apply embedding_frame.
Qed.

Lemma embedding_calls_witness :
  let run :=
    embed_subtitles.add_burned_subs Demo.fconf Demo.sys
      (lit "data/video/sample.mp4") (lit "data/translated.srt")
      (lit "data/out/burned.mp4") Demo.video_and_subs in
  embeds Demo.sys
    (embed_subtitles.burned_command Demo.fconf (lit "data/video/sample.mp4")
       (lit "data/translated.srt") (lit "data/out/burned.mp4"))
    (lit "data/video/sample.mp4") (lit "data/translated.srt")
    (lit "data/out/burned.mp4") Demo.video_and_subs (fst run) (snd run).
Proof.
  intros run.
  apply (embedding_calls (list path) Demo.fconf Demo.sys
           (lit "data/video/sample.mp4") (lit "data/translated.srt")
           (lit "data/out/burned.mp4") Demo.video_and_subs (snd run) (fst run)).
  subst run. vm_compute. reflexivity.
Defined.

(** X17. A [subtitle_position] that is none of ["bottom"], ["top"] and
    ["center"] is read as ["bottom"]: [add_burned_subs] does exactly what
    it does with ["bottom"], and the filter ends with [Alignment=2']. *)
Theorem unknown_position_is_bottom :
  forall (W : Type) (conf : embed_subtitles.ffmpeg_conf) (os : Sys.host W)
         (video subs output : path) (s : Sys.state W),
    embed_subtitles.subtitle_position conf <> lit "bottom" ->
    embed_subtitles.subtitle_position conf <> lit "top" ->
    embed_subtitles.subtitle_position conf <> lit "center" ->
    embed_subtitles.add_burned_subs conf os video subs output s
    = embed_subtitles.add_burned_subs (with_position conf (lit "bottom")) os
        video subs output s /\
    exists before,
      embed_subtitles.style conf subs = before ++ lit "Alignment=2'".
Proof.
  intros W conf os video subs output s H1 H2 H3.
  assert (Ha : embed_subtitles.alignment conf = 2).
  { unfold embed_subtitles.alignment.
    destruct (decide (embed_subtitles.subtitle_position conf = lit "bottom"));
      [reflexivity|].
    destruct (decide (embed_subtitles.subtitle_position conf = lit "top"));
      [contradiction|].
    destruct (decide (embed_subtitles.subtitle_position conf = lit "center"));
      [contradiction | reflexivity]. }
  assert (Hs : embed_subtitles.style conf subs
               = embed_subtitles.style (with_position conf (lit "bottom")) subs).
  { unfold embed_subtitles.style. rewrite Ha. reflexivity. }
  split.
  - unfold embed_subtitles.add_burned_subs, embed_subtitles.burned_command.
    rewrite Hs. reflexivity.
  - unfold embed_subtitles.style. rewrite Ha.
    eexists. rewrite !app_assoc.
    rewrite <- (app_assoc _ (str_of_int 2)).
    rewrite <- (app_assoc _ (lit "Alignment=")).
    reflexivity.
Qed.

Lemma unknown_position_is_bottom_witness :
  embed_subtitles.add_burned_subs Demo.fconf Demo.sys
    (lit "data/video/sample.mp4") (lit "data/translated.srt")
    (lit "data/out/burned.mp4") Demo.video_and_subs
  = embed_subtitles.add_burned_subs (with_position Demo.fconf (lit "bottom"))
      Demo.sys (lit "data/video/sample.mp4") (lit "data/translated.srt")
      (lit "data/out/burned.mp4") Demo.video_and_subs.
Proof.
  apply (unknown_position_is_bottom (list path) Demo.fconf Demo.sys
           (lit "data/video/sample.mp4") (lit "data/translated.srt")
           (lit "data/out/burned.mp4") Demo.video_and_subs);
    vm_compute; discriminate.
Defined.

(** X18. The two copies of [select_video_file] agree. On the same
    machine and video directory, the one of [mp3extractor.py] and the one
    of [pipeline.py], when it is given no path (or an empty one), both
    return the first MP4 file of the directory, resolved, or raise
    [FileNotFoundError] when there is none; neither changes the
    machine. *)
Theorem select_video_file_copies_agree :
  forall (W : Type) (cfg : mp3extractor.config) (pcfg : pipeline.config)
         (os : Sys.host W) (pos : pipeline.host W) (video_arg : option str)
         (s : Sys.state W) (ps : pipeline.state W),
    (forall w dir, Sys.glob_mp4 os w dir = pipeline.glob_mp4 pos w dir) ->
    (forall w p, Sys.resolve os w p = pipeline.resolve pos w p) ->
    mp3extractor.video_dir cfg = pipeline.video_dir (pipeline.cfg_paths pcfg) ->
    Sys.machine s = pipeline.machine ps ->
    video_arg = None \/ video_arg = Some [] ->
    let found :=
      match Sys.glob_mp4 os (Sys.machine s) (mp3extractor.video_dir cfg) with
      | [] => Raise FileNotFoundError
      | first :: _ => Ok (Sys.resolve os (Sys.machine s) first)
      end in
    fst (mp3extractor.select_video_file cfg os s) = found /\
    fst (pipeline.select_video_file pcfg pos video_arg ps) = found /\
    snd (mp3extractor.select_video_file cfg os s) = s /\
    pipeline.machine (snd (pipeline.select_video_file pcfg pos video_arg ps))
    = pipeline.machine ps.
Proof.
  intros W cfg pcfg os pos video_arg s ps Hglob Hres Hdir Hm Harg.
  assert (Hg : pipeline.given video_arg = None)
    by (destruct Harg as [->| ->]; reflexivity).
  unfold mp3extractor.select_video_file, pipeline.select_video_file.
  rewrite Hg. unfold bind, Sys.looking, pipeline.observe, Ok.
  cbv beta iota zeta. rewrite Hglob, Hdir, Hm.
  destruct (pipeline.glob_mp4 pos (pipeline.machine ps) _) as [|first others].
  - split_and!; reflexivity.
  - rewrite ?Hres.
    destruct others; cbn; rewrite ?Hm, ?Hres; split_and!; reflexivity.
Qed.

Lemma select_video_file_copies_agree_witness :
  fst (mp3extractor.select_video_file Demo.mcfg Demo.sys Demo.video_only)
  = Ok (lit "data/video/sample.mp4") /\
  fst (pipeline.select_video_file Demo.pcfg Demo.os None Demo.with_video)
  = Ok (lit "data/video/sample.mp4").
Proof.
  destruct (select_video_file_copies_agree (list path) Demo.mcfg Demo.pcfg
              Demo.sys Demo.os None Demo.video_only Demo.with_video)
    as (H1 & H2 & _).
  - intros w dir. reflexivity.
  - intros w p. reflexivity.
  - reflexivity.
  - reflexivity.
  - left. reflexivity.
  - split; [exact H1 | exact H2].
Defined.
